(** * PE2 command-line prompt optimizer: a shallow embedding

    The development follows the JavaScript sources of the tool:
    the complexity analyzer, the response parser with its recovery tiers,
    the refinement loop of [processPrompt], and the five provider clients;
    then the schemas of the results, [LLMUtils], the command table and the
    string and range helpers of the Python adapter.

    Conventions.
    - A JavaScript string is the list of its UTF-16 code units ([jsstring]).
    - A JavaScript value is a [value]; objects keep their members in
      insertion order.
    - Numbers are exact rationals, extended with NaN and the infinities.
    - The remote backend is an oracle: the outcome of the k-th call.
    Part I holds the definitions, Part II the lemmas and theorems. *)

From Stdlib Require Import String Ascii DecimalString.
From Stdlib Require Import ZArith NArith QArith Qabs Bool List Lia.
Import ListNotations.

Set Implicit Arguments.
Set Warnings "-register-all".
Local Open Scope Z_scope.

(* ================================================================== *)
(** * Part I. Definitions *)
(* ================================================================== *)

(* ------------------------------------------------------------------ *)
(** ** JavaScript strings *)
(* ------------------------------------------------------------------ *)

Definition codeunit := N.
Definition jsstring := list codeunit.

(** A source literal, as its sequence of code units (ASCII literals only). *)
Definition lit (s : string) : jsstring :=
  map N_of_ascii (list_ascii_of_string s).

Definition cu_eqb (a b : codeunit) : bool := N.eqb a b.

Fixpoint str_eqb (a b : jsstring) : bool :=
  match a, b with
  | [], [] => true
  | x :: a', y :: b' => cu_eqb x y && str_eqb a' b'
  | _, _ => false
  end.

Definition NL : codeunit := 10%N.
Definition DQUOTE : codeunit := 34%N.
Definition SQUOTE : codeunit := 39%N.
Definition BACKSLASH : codeunit := 92%N.
Definition LBRACE : codeunit := 123%N.
Definition RBRACE : codeunit := 125%N.
Definition LBRACKET : codeunit := 91%N.
Definition RBRACKET : codeunit := 93%N.
Definition COMMA : codeunit := 44%N.
Definition COLON : codeunit := 58%N.
Definition STAR : codeunit := 42%N.

(** Example texts are written with ['] where the text has a double quote. *)
Definition dq (s : string) : jsstring :=
  map (fun c => if cu_eqb c SQUOTE then DQUOTE else c) (lit s).

Definition in_range (lo hi c : codeunit) : bool :=
  (N.leb lo c && N.leb c hi)%bool.

(** [\s] of a regular expression, which is also what [trim] strips:
    WhiteSpace and LineTerminator code units. *)
Definition is_space (c : codeunit) : bool :=
  (in_range 9 13 c || cu_eqb c 32 || cu_eqb c 160 || cu_eqb c 5760
   || in_range 8192 8202 c || cu_eqb c 8232 || cu_eqb c 8233
   || cu_eqb c 8239 || cu_eqb c 8287 || cu_eqb c 12288 || cu_eqb c 65279)%N%bool.

(** [\d] *)
Definition is_digit (c : codeunit) : bool := in_range 48%N 57%N c.

Definition js_length (s : jsstring) : Z := Z.of_nat (length s).

Fixpoint starts_with (p s : jsstring) : bool :=
  match p, s with
  | [], _ => true
  | x :: p', y :: s' => cu_eqb x y && starts_with p' s'
  | _ :: _, [] => false
  end.

(** [s.includes(needle)] *)
Fixpoint includes (s needle : jsstring) : bool :=
  starts_with needle s ||
  match s with
  | [] => false
  | _ :: t => includes t needle
  end.

(** [s.indexOf(c)] for a one-character needle; -1 when absent. *)
Fixpoint indexOf_from (i : Z) (s : jsstring) (c : codeunit) : Z :=
  match s with
  | [] => -1
  | x :: t => if cu_eqb x c then i else indexOf_from (i + 1) t c
  end.

Definition indexOf (s : jsstring) (c : codeunit) : Z := indexOf_from 0 s c.

(** [s.lastIndexOf(c)] for a one-character needle; -1 when absent. *)
Fixpoint lastIndexOf_from (i : Z) (found : Z) (s : jsstring) (c : codeunit) : Z :=
  match s with
  | [] => found
  | x :: t => lastIndexOf_from (i + 1) (if cu_eqb x c then i else found) t c
  end.

Definition lastIndexOf (s : jsstring) (c : codeunit) : Z :=
  lastIndexOf_from 0 (-1) s c.

(** [s.slice(a, b)]: negative indices count from the end. *)
Definition slice (s : jsstring) (a b : Z) : jsstring :=
  let len := js_length s in
  let from := if a <? 0 then Z.max (len + a) 0 else Z.min a len in
  let to := if b <? 0 then Z.max (len + b) 0 else Z.min b len in
  firstn (Z.to_nat (Z.max (to - from) 0)) (skipn (Z.to_nat from) s).

(** [s.substring(a, b)]: indices clamped to the string, swapped if needed. *)
Definition substring (s : jsstring) (a b : Z) : jsstring :=
  let len := js_length s in
  let a' := Z.min (Z.max a 0) len in
  let b' := Z.min (Z.max b 0) len in
  let from := Z.min a' b' in
  let to := Z.max a' b' in
  firstn (Z.to_nat (to - from)) (skipn (Z.to_nat from) s).

Fixpoint trimStart (s : jsstring) : jsstring :=
  match s with
  | c :: t => if is_space c then trimStart t else s
  | [] => []
  end.

(** [s.trim()] *)
Definition trim (s : jsstring) : jsstring :=
  rev (trimStart (rev (trimStart s))).

(** [s.toLowerCase()].  The ASCII and Latin-1 capitals are mapped exactly,
    and so are the two code units outside ASCII whose lower case contains
    an ASCII letter (U+212A and U+0130).  Every other code unit is left as
    it is: its lower case is again outside ASCII, which is all that
    [includes] with an ASCII needle can observe. *)
Definition lower_unit (c : codeunit) : jsstring :=
  (if in_range 65 90 c then [c + 32]
   else if in_range 192 222 c && negb (cu_eqb c 215) then [c + 32]
   else if cu_eqb c 8490 then [107]
   else if cu_eqb c 304 then [105; 775]
   else [c])%N.

Definition toLowerCase (s : jsstring) : jsstring := flat_map lower_unit s.

(** [s.split(/\s+/).length]: one more than the number of maximal runs of
    white space (the empty string splits into one empty piece). *)
Fixpoint space_runs (in_run : bool) (s : jsstring) : Z :=
  match s with
  | [] => 0
  | c :: t =>
      if is_space c
      then (if in_run then 0 else 1) + space_runs true t
      else space_runs false t
  end.

Definition split_spaces_length (s : jsstring) : Z := 1 + space_runs false s.

(** [arr.join(sep)] on strings *)
Fixpoint join (sep : jsstring) (l : list jsstring) : jsstring :=
  match l with
  | [] => []
  | [x] => x
  | x :: t => x ++ sep ++ join sep t
  end.

(* ------------------------------------------------------------------ *)
(** ** Numbers and values *)
(* ------------------------------------------------------------------ *)

(** A JavaScript number: a finite value (kept exact), NaN or an infinity. *)
Inductive number : Type :=
| NaN
| NegInf
| Fin (q : Q)
| PosInf.

Definition num_leb (a b : number) : bool :=
  match a, b with
  | NaN, _ | _, NaN => false
  | NegInf, _ => true
  | _, PosInf => true
  | Fin x, Fin y => Qle_bool x y
  | _, _ => false
  end.

Definition num_ltb (a b : number) : bool :=
  num_leb a b && negb (num_leb b a).

(** [Math.min(a, b)] and [Math.max(a, b)] *)
Definition Math_min (a b : number) : number :=
  match a, b with
  | NaN, _ | _, NaN => NaN
  | _, _ => if num_leb a b then a else b
  end.

Definition Math_max (a b : number) : number :=
  match a, b with
  | NaN, _ | _, NaN => NaN
  | _, _ => if num_leb a b then b else a
  end.

Definition num (z : Z) : number := Fin (inject_Z z).

(** A finite value reads as zero when it is at most half the least
    positive double, 2^-1075. *)
Definition TINY : Q := 1 # (2 ^ 1075).

Definition num_truthy (n : number) : bool :=
  match n with
  | NaN => false
  | Fin q => negb (Qle_bool (Qabs q) TINY)
  | _ => true
  end.

Inductive value : Type :=
| VUndefined
| VNull
| VBool (b : bool)
| VNum (n : number)
| VStr (s : jsstring)
| VArr (l : list value)
| VObj (m : list (jsstring * value)).

Definition object := list (jsstring * value).

(** ToBoolean: what [!x] and [x || y] test. *)
Definition truthy (v : value) : bool :=
  match v with
  | VUndefined | VNull => false
  | VBool b => b
  | VNum n => num_truthy n
  | VStr s => match s with [] => false | _ => true end
  | VArr _ | VObj _ => true
  end.

(** [a || b] *)
Definition js_or (a b : value) : value := if truthy a then a else b.

Definition is_string (v : value) : bool :=
  match v with VStr _ => true | _ => false end.

Definition is_array (v : value) : bool :=
  match v with VArr _ => true | _ => false end.

(** [v === s] for a string literal [s] *)
Definition is_str (v : value) (s : jsstring) : bool :=
  match v with VStr x => str_eqb x s | _ => false end.

Fixpoint obj_lookup (m : object) (k : jsstring) : option value :=
  match m with
  | [] => None
  | (k', v) :: t => if str_eqb k' k then Some v else obj_lookup t k
  end.

Definition obj_has (m : object) (k : jsstring) : bool :=
  match obj_lookup m k with Some _ => true | None => false end.

(** Defining a member: a key already present keeps its place. *)
Fixpoint obj_set (m : object) (k : jsstring) (v : value) : object :=
  match m with
  | [] => [(k, v)]
  | (k', v') :: t =>
      if str_eqb k' k then (k', v) :: t else (k', v') :: obj_set t k v
  end.

(** [o.k] for one of the member names read by the program, none of
    which is defined on [Object.prototype]: an own member or [undefined]. *)
Definition obj_get (m : object) (k : jsstring) : value :=
  match obj_lookup m k with Some v => v | None => VUndefined end.

(** [v.k] on an arbitrary value: reading a member of [null] or [undefined]
    raises a TypeError ([None]); a primitive or an array has none of the
    member names read by the program. *)
Definition get_prop (v : value) (k : jsstring) : option value :=
  match v with
  | VUndefined | VNull => None
  | VObj m => Some (obj_get m k)
  | _ => Some VUndefined
  end.

(* ------------------------------------------------------------------ *)
(** ** Regular expressions *)
(* ------------------------------------------------------------------ *)

(** The fragment of regular expressions the program uses: characters,
    character classes, greedy repetition of a class, an optional
    character, sequencing and one capture group. *)
Inductive regex : Type :=
| Eps
| Chr (c : codeunit)
| Cls (p : codeunit -> bool)
| Star (p : codeunit -> bool)
| Plus (p : codeunit -> bool)
| OptChr (c : codeunit)
| Seq (r1 r2 : regex)
| Group (r : regex).

(** The characters of [s] one after the other. *)
Fixpoint Str (s : jsstring) : regex :=
  match s with
  | [] => Eps
  | c :: t => Seq (Chr c) (Str t)
  end.

(** Flag [i]: a pattern character and an input code unit are compared up
    to the case of ASCII letters.  The pattern characters of the program
    are ASCII, and no code unit outside ASCII is canonicalized to an ASCII
    one; its classes hold no letters. *)
Definition upper_ascii (c : codeunit) : codeunit :=
  (if in_range 97 122 c then c - 32 else c)%N.

Definition chr_matches (ci : bool) (x c : codeunit) : bool :=
  if ci then cu_eqb (upper_ascii x) (upper_ascii c) else cu_eqb x c.

(** The outcome of a match at a position: what follows the match, and the
    text of the capture group. *)
Definition rx_result : Type := jsstring * option jsstring.

(** Greedy repetition with backtracking: the longest run first. *)
Fixpoint star_bt (p : codeunit -> bool) (s : jsstring)
    (k : jsstring -> option rx_result) : option rx_result :=
  match s with
  | c :: t =>
      if p c
      then match star_bt p t k with
           | Some r => Some r
           | None => k s
           end
      else k s
  | [] => k []
  end.

Fixpoint rx_match (ci : bool) (r : regex) (s : jsstring) (cap : option jsstring)
    (k : jsstring -> option jsstring -> option rx_result) : option rx_result :=
  match r with
  | Eps => k s cap
  | Chr c =>
      match s with
      | x :: t => if chr_matches ci x c then k t cap else None
      | [] => None
      end
  | Cls p =>
      match s with
      | x :: t => if p x then k t cap else None
      | [] => None
      end
  | Star p => star_bt p s (fun s' => k s' cap)
  | Plus p =>
      match s with
      | x :: t => if p x then star_bt p t (fun s' => k s' cap) else None
      | [] => None
      end
  | OptChr c =>
      match (match s with
             | x :: t => if chr_matches ci x c then k t cap else None
             | [] => None
             end) with
      | Some res => Some res
      | None => k s cap
      end
  | Seq r1 r2 => rx_match ci r1 s cap (fun s' cap' => rx_match ci r2 s' cap' k)
  | Group r1 =>
      rx_match ci r1 s cap
        (fun s' _ => k s' (Some (firstn (length s - length s') s)))
  end.

(** A match starting exactly at the head of [s]. *)
Definition match_here (ci : bool) (r : regex) (s : jsstring) : option rx_result :=
  rx_match ci r s None (fun rest cap => Some (rest, cap)).

(** The leftmost match, as [s.match(r)] finds it (without flag [g]). *)
Fixpoint rx_search (ci : bool) (r : regex) (s : jsstring) : option rx_result :=
  match match_here ci r s with
  | Some res => Some res
  | None =>
      match s with
      | [] => None
      | _ :: t => rx_search ci r t
      end
  end.

(** [r.test(s)] *)
Definition rx_test (ci : bool) (r : regex) (s : jsstring) : bool :=
  match rx_search ci r s with Some _ => true | None => false end.

Definition capture_text (cap : option jsstring) : jsstring :=
  match cap with Some c => c | None => [] end.

(** [s.replace(r, '$1')] with flag [g]: every match, from left to right,
    is replaced by its capture.  [skip] counts the code units of the
    current match that are still to be passed over. *)
Fixpoint replace_all_g1 (ci : bool) (r : regex) (skip : nat) (s : jsstring)
    : jsstring :=
  match skip, s with
  | S n, _ :: t => replace_all_g1 ci r n t
  | S _, [] => []
  | O, [] =>
      match match_here ci r [] with
      | Some (_, cap) => capture_text cap
      | None => []
      end
  | O, c :: t =>
      match match_here ci r s with
      | Some (rest, cap) =>
          match (length s - length rest)%nat with
          | O => capture_text cap ++ c :: replace_all_g1 ci r 0 t
          | S n => capture_text cap ++ replace_all_g1 ci r n t
          end
      | None => c :: replace_all_g1 ci r 0 t
      end
  end.

(** [(s.match(/[...]/g) || []).length] for a one-character class. *)
Definition count_class (p : codeunit -> bool) (s : jsstring) : Z :=
  Z.of_nat (length (filter p s)).

(* ------------------------------------------------------------------ *)
(** ** [JSON.parse] *)
(* ------------------------------------------------------------------ *)

(** The built-in parser, as a machine that reads the text one code unit
    at a time: a scanner for the tokens of the JSON grammar feeding a
    stack of the arrays and objects under construction.  A syntax error
    is [None]. *)

Inductive token : Type :=
| TOpenObj
| TCloseObj
| TOpenArr
| TCloseArr
| TColon
| TComma
| TValue (v : value).

(** Where the scanner stands inside a number: an optional minus sign,
    an integer part without a leading zero, an optional fraction and an
    optional exponent. *)
Inductive numphase : Type :=
| NMinus
| NZero
| NInt
| NDot
| NFrac
| NExp
| NExpSign
| NExpDigits.

Record numacc : Type := mkNumacc {
  neg : bool;      (* a leading minus sign *)
  mant : Z;        (* the digits of the integer and fraction parts *)
  fracn : Z;       (* how many of them are fraction digits *)
  eneg : bool;     (* a minus sign in the exponent *)
  expo : Z         (* the digits of the exponent *)
}.

Inductive literal : Type :=
| LitTrue
| LitFalse
| LitNull.

Definition literal_value (l : literal) : value :=
  match l with
  | LitTrue => VBool true
  | LitFalse => VBool false
  | LitNull => VNull
  end.

Inductive lexstate : Type :=
| LIdle
| LStr (acc : jsstring)                      (* in a string; [acc] reversed *)
| LEsc (acc : jsstring)                      (* after a backslash *)
| LHex (acc : jsstring) (n : nat) (code : N) (* after backslash-u and [n] digits *)
| LNum (ph : numphase) (a : numacc)
| LLit (rest : jsstring) (l : literal).      (* in true, false or null *)

Definition is_json_ws (c : codeunit) : bool :=
  cu_eqb c 32%N || cu_eqb c 9%N || cu_eqb c 10%N || cu_eqb c 13%N.

Definition digit_val (c : codeunit) : Z := Z.of_N (c - 48)%N.

Definition hex_val (c : codeunit) : option N :=
  (if in_range 48 57 c then Some (c - 48)
   else if in_range 65 70 c then Some (c - 55)
   else if in_range 97 102 c then Some (c - 87)
   else None)%N.

(** The value a number literal denotes, exactly.  (The run-time rounds it
    to a double; [num_truthy] accounts for the values rounded to zero.) *)
Definition number_of (a : numacc) : number :=
  let m := if neg a then - mant a else mant a in
  let e := (if eneg a then - expo a else expo a) - fracn a in
  Fin (Qred (if 0 <=? e then inject_Z (m * 10 ^ e)
             else Qmake m (Z.to_pos (10 ^ (- e))))).

Definition num_start (negative : bool) (m : Z) : numacc :=
  mkNumacc negative m 0 false 0.

(** The scanner between tokens. *)
Definition lex_idle (c : codeunit) : option (lexstate * list token) :=
  if is_json_ws c then Some (LIdle, [])
  else if cu_eqb c LBRACE then Some (LIdle, [TOpenObj])
  else if cu_eqb c RBRACE then Some (LIdle, [TCloseObj])
  else if cu_eqb c LBRACKET then Some (LIdle, [TOpenArr])
  else if cu_eqb c RBRACKET then Some (LIdle, [TCloseArr])
  else if cu_eqb c COLON then Some (LIdle, [TColon])
  else if cu_eqb c COMMA then Some (LIdle, [TComma])
  else if cu_eqb c DQUOTE then Some (LStr [], [])
  else if cu_eqb c 45%N then Some (LNum NMinus (num_start true 0), [])
  else if cu_eqb c 48%N then Some (LNum NZero (num_start false 0), [])
  else if in_range 49%N 57%N c
       then Some (LNum NInt (num_start false (digit_val c)), [])
  else if cu_eqb c 116%N then Some (LLit (lit "rue") LitTrue, [])
  else if cu_eqb c 102%N then Some (LLit (lit "alse") LitFalse, [])
  else if cu_eqb c 110%N then Some (LLit (lit "ull") LitNull, [])
  else None.

Definition is_exp_mark (c : codeunit) : bool :=
  cu_eqb c 101%N || cu_eqb c 69%N.

Definition push_digit (a : numacc) (c : codeunit) (frac : bool) : numacc :=
  mkNumacc (neg a) (mant a * 10 + digit_val c)
           (if frac then fracn a + 1 else fracn a) (eneg a) (expo a).

Definition push_exp_digit (a : numacc) (c : codeunit) : numacc :=
  mkNumacc (neg a) (mant a) (fracn a) (eneg a) (expo a * 10 + digit_val c).

Definition set_eneg (a : numacc) : numacc :=
  mkNumacc (neg a) (mant a) (fracn a) true (expo a).

(** One more code unit of a number, when it continues the number. *)
Definition num_continue (ph : numphase) (a : numacc) (c : codeunit)
    : option (numphase * numacc) :=
  match ph with
  | NMinus =>
      if cu_eqb c 48%N then Some (NZero, a)
      else if in_range 49%N 57%N c then Some (NInt, push_digit a c false)
      else None
  | NZero =>
      if cu_eqb c 46%N then Some (NDot, a)
      else if is_exp_mark c then Some (NExp, a)
      else None
  | NInt =>
      if is_digit c then Some (NInt, push_digit a c false)
      else if cu_eqb c 46%N then Some (NDot, a)
      else if is_exp_mark c then Some (NExp, a)
      else None
  | NDot =>
      if is_digit c then Some (NFrac, push_digit a c true) else None
  | NFrac =>
      if is_digit c then Some (NFrac, push_digit a c true)
      else if is_exp_mark c then Some (NExp, a)
      else None
  | NExp =>
      if cu_eqb c 43%N then Some (NExpSign, a)
      else if cu_eqb c 45%N then Some (NExpSign, set_eneg a)
      else if is_digit c then Some (NExpDigits, push_exp_digit a c)
      else None
  | NExpSign =>
      if is_digit c then Some (NExpDigits, push_exp_digit a c) else None
  | NExpDigits =>
      if is_digit c then Some (NExpDigits, push_exp_digit a c) else None
  end.

(** The phases in which the text read so far is a complete number. *)
Definition num_complete (ph : numphase) : bool :=
  match ph with
  | NZero | NInt | NFrac | NExpDigits => true
  | _ => false
  end.

Definition lex_step (lx : lexstate) (c : codeunit)
    : option (lexstate * list token) :=
  match lx with
  | LIdle => lex_idle c
  | LStr acc =>
      if cu_eqb c DQUOTE then Some (LIdle, [TValue (VStr (rev acc))])
      else if cu_eqb c BACKSLASH then Some (LEsc acc, [])
      else if N.ltb c 32 then None
      else Some (LStr (c :: acc), [])
  | LEsc acc =>
      if cu_eqb c DQUOTE || cu_eqb c BACKSLASH || cu_eqb c 47%N
      then Some (LStr (c :: acc), [])
      else if cu_eqb c 98%N then Some (LStr (8%N :: acc), [])
      else if cu_eqb c 102%N then Some (LStr (12%N :: acc), [])
      else if cu_eqb c 110%N then Some (LStr (10%N :: acc), [])
      else if cu_eqb c 114%N then Some (LStr (13%N :: acc), [])
      else if cu_eqb c 116%N then Some (LStr (9%N :: acc), [])
      else if cu_eqb c 117%N then Some (LHex acc 0 0%N, [])
      else None
  | LHex acc n code =>
      match hex_val c with
      | Some h =>
          let code' := (code * 16 + h)%N in
          if Nat.eqb n 3 then Some (LStr (code' :: acc), [])
          else Some (LHex acc (S n) code', [])
      | None => None
      end
  | LNum ph a =>
      match num_continue ph a c with
      | Some (ph', a') => Some (LNum ph' a', [])
      | None =>
          if num_complete ph
          then match lex_idle c with
               | Some (lx', toks) =>
                   Some (lx', TValue (VNum (number_of a)) :: toks)
               | None => None
               end
          else None
      end
  | LLit rest l =>
      match rest with
      | x :: rest' =>
          if cu_eqb c x
          then match rest' with
               | [] => Some (LIdle, [TValue (literal_value l)])
               | _ => Some (LLit rest' l, [])
               end
          else None
      | [] => None
      end
  end.

(** An array or an object under construction. *)
Inductive frame : Type :=
| FArr (elems : list value)                       (* reversed *)
| FObj (members : object) (key : option jsstring) (* the member being read *).

(** What the grammar allows next. *)
Inductive pmode : Type :=
| MValue      (* a value *)
| MArrFirst   (* after an opening bracket: a value or the closing bracket *)
| MObjFirst   (* after an opening brace: a key or the closing brace *)
| MKey        (* after a comma in an object: a key *)
| MColon      (* after a key *)
| MAfter      (* after a value in an array or object *)
| MDone (v : value).  (* the whole value is read *)

Definition pstate : Type := list frame * pmode.

(** A finished value goes to the innermost open array or object. *)
Definition deliver (v : value) (stack : list frame) : option pstate :=
  match stack with
  | [] => Some ([], MDone v)
  | FArr es :: rest => Some (FArr (v :: es) :: rest, MAfter)
  | FObj m (Some k) :: rest => Some (FObj (obj_set m k v) None :: rest, MAfter)
  | FObj _ None :: _ => None
  end.

Definition parse_token (st : pstate) (t : token) : option pstate :=
  let '(stack, mode) := st in
  match mode with
  | MValue =>
      match t with
      | TValue v => deliver v stack
      | TOpenObj => Some (FObj [] None :: stack, MObjFirst)
      | TOpenArr => Some (FArr [] :: stack, MArrFirst)
      | _ => None
      end
  | MArrFirst =>
      match t with
      | TValue v => deliver v stack
      | TOpenObj => Some (FObj [] None :: stack, MObjFirst)
      | TOpenArr => Some (FArr [] :: stack, MArrFirst)
      | TCloseArr =>
          match stack with
          | FArr es :: rest => deliver (VArr (rev es)) rest
          | _ => None
          end
      | _ => None
      end
  | MObjFirst =>
      match t, stack with
      | TValue (VStr k), FObj m _ :: rest => Some (FObj m (Some k) :: rest, MColon)
      | TCloseObj, FObj m _ :: rest => deliver (VObj m) rest
      | _, _ => None
      end
  | MKey =>
      match t, stack with
      | TValue (VStr k), FObj m _ :: rest => Some (FObj m (Some k) :: rest, MColon)
      | _, _ => None
      end
  | MColon =>
      match t with
      | TColon => Some (stack, MValue)
      | _ => None
      end
  | MAfter =>
      match t, stack with
      | TComma, FArr _ :: _ => Some (stack, MValue)
      | TCloseArr, FArr es :: rest => deliver (VArr (rev es)) rest
      | TComma, FObj _ _ :: _ => Some (stack, MKey)
      | TCloseObj, FObj m _ :: rest => deliver (VObj m) rest
      | _, _ => None
      end
  | MDone _ => None
  end.

Fixpoint parse_tokens (st : pstate) (ts : list token) : option pstate :=
  match ts with
  | [] => Some st
  | t :: ts' =>
      match parse_token st t with
      | Some st' => parse_tokens st' ts'
      | None => None
      end
  end.

(** The whole machine; [None] once the text is known to be malformed. *)
Definition jstate : Type := option (lexstate * pstate).

Definition json_init : jstate := Some (LIdle, ([], MValue)).

Definition json_step (st : jstate) (c : codeunit) : jstate :=
  match st with
  | None => None
  | Some (lx, ps) =>
      match lex_step lx c with
      | None => None
      | Some (lx', toks) =>
          match parse_tokens ps toks with
          | Some ps' => Some (lx', ps')
          | None => None
          end
      end
  end.

(** At the end of the text a number still being read is complete. *)
Definition json_finish (st : jstate) : option value :=
  match st with
  | None => None
  | Some (lx, ps) =>
      let final :=
        match lx with
        | LIdle => Some ps
        | LNum ph a =>
            if num_complete ph
            then parse_token ps (TValue (VNum (number_of a)))
            else None
        | _ => None
        end in
      match final with
      | Some ([], MDone v) => Some v
      | _ => None
      end
  end.

Definition JSON_parse (text : jsstring) : option value :=
  json_finish (fold_left json_step text json_init).

(* ------------------------------------------------------------------ *)
(** ** The complexity analyzer ([analyzePromptComplexity]) *)
(* ------------------------------------------------------------------ *)

Inductive Difficulty : Type :=
| NOVICE
| INTERMEDIATE
| ADVANCED
| EXPERT
| MASTER.

Record Complexity : Type := mkComplexity {
  difficulty : Difficulty;
  iterations : Z;
  score : Z
}.

Definition techKeywords : list jsstring :=
  map lit
    ["algorithm"; "framework"; "architecture"; "microservice"; "database";
     "api"; "sdk"; "ml"; "ai"; "neural"; "blockchain"; "docker"; "kubernetes";
     "encryption"; "protocol"; "latency"; "throughput"; "concurrency";
     "distributed"; "cloud"; "python"; "javascript"; "java"; "c++"; "rust";
     "go"]%string.

Definition domainKeywords : list jsstring :=
  map lit
    ["regulation"; "compliance"; "governance"; "strategy"; "analytics";
     "research"; "finance"; "biotech"; "healthcare"; "supply chain";
     "marketing"; "production"; "enterprise"]%string.

(** [/\n\s*\d+\./] *)
Definition numberedListPattern : regex :=
  Seq (Chr NL) (Seq (Star is_space) (Seq (Plus is_digit) (Chr 46%N))).

(** [/\n\s*\-/] *)
Definition bulletListPattern : regex :=
  Seq (Chr NL) (Seq (Star is_space) (Chr 45%N)).

(** [/```/] *)
Definition codeFencePattern : regex := Str (lit "```").

(** [/#/] *)
Definition headingPattern : regex := Chr 35%N.

Definition structuralPatterns : list regex :=
  [numberedListPattern; bulletListPattern; codeFencePattern; headingPattern].

Definition logicWords : list jsstring :=
  map lit
    [" if "; " then "; " when "; " unless "; " until "; "depending on";
     "while "]%string.

(** [/[;\{\[]/] *)
Definition is_special (c : codeunit) : bool :=
  cu_eqb c 59%N || cu_eqb c LBRACE || cu_eqb c LBRACKET.

(** [list.filter(kw => text.includes(kw)).length] *)
Definition hits (text : jsstring) (kws : list jsstring) : Z :=
  Z.of_nat (length (filter (fun kw => includes text kw) kws)).

Definition words (rawPrompt : jsstring) : Z := split_spaces_length rawPrompt.

Definition lengthScore (rawPrompt : jsstring) : Z :=
  let w := words rawPrompt in
  if w >? 400 then 4
  else if w >? 250 then 3
  else if w >? 120 then 2
  else if w >? 60 then 1
  else 0.

Definition techHits (rawPrompt : jsstring) : Z :=
  hits (toLowerCase rawPrompt) techKeywords.

Definition domainHits (rawPrompt : jsstring) : Z :=
  hits (toLowerCase rawPrompt) domainKeywords.

Definition structuralHits (rawPrompt : jsstring) : Z :=
  Z.of_nat (length (filter (fun pat => rx_test false pat rawPrompt)
                           structuralPatterns)).

Definition logicHits (rawPrompt : jsstring) : Z :=
  hits (toLowerCase rawPrompt) logicWords.

Definition specialChars (rawPrompt : jsstring) : Z :=
  count_class is_special rawPrompt.

Definition specialScore (rawPrompt : jsstring) : Z :=
  let n := specialChars rawPrompt in
  if n >=? 5 then 2 else if n >=? 2 then 1 else 0.

(** The running total [score] after the six steps. *)
Definition totalScore (rawPrompt : jsstring) : Z :=
  lengthScore rawPrompt
  + Z.min (techHits rawPrompt) 4
  + Z.min (domainHits rawPrompt) 3
  + Z.min (structuralHits rawPrompt) 4
  + Z.min (logicHits rawPrompt) 3
  + specialScore rawPrompt.

(** The final [if]/[else if] chain mapping the score to a difficulty and
    an iteration count. *)
Definition mapScore (score : Z) : Difficulty * Z :=
  if score <=? 4 then (NOVICE, 1)
  else if score <=? 8 then (INTERMEDIATE, 2)
  else if score <=? 12 then (ADVANCED, 3)
  else if score <=? 16 then (EXPERT, 4)
  else (MASTER, 5).

Definition analyzePromptComplexity (rawPrompt : jsstring) : Complexity :=
  let score := totalScore rawPrompt in
  let '(difficulty, iterations) := mapScore score in
  mkComplexity difficulty iterations score.

(** The band table as the specification words it: five contiguous bands
    of the score.  [None] outside every band (a negative score). *)
Definition bandTable (score : Z) : option (Difficulty * Z) :=
  if (0 <=? score) && (score <=? 4) then Some (NOVICE, 1)
  else if (5 <=? score) && (score <=? 8) then Some (INTERMEDIATE, 2)
  else if (9 <=? score) && (score <=? 12) then Some (ADVANCED, 3)
  else if (13 <=? score) && (score <=? 16) then Some (EXPERT, 4)
  else if 17 <=? score then Some (MASTER, 5)
  else None.

(* ------------------------------------------------------------------ *)
(** ** The response parser of [generateInitialPrompt] and [refinePrompt] *)
(* ------------------------------------------------------------------ *)

(** What both functions return: [{ prompt, edits }]. *)
Record Generated : Type := mkGenerated {
  prompt : value;
  edits : value
}.

(** What awaiting [client.chat.completions.create] and reading
    [response.choices[0].message.content] gives: an exception, or the
    text of the reply. *)
Inductive Outcome : Type :=
| Throws
| Replies (content : jsstring).

Definition requiredFields : list jsstring :=
  map lit ["context"; "role"; "task"; "constraints"; "output"]%string.

(** [parsed.hasOwnProperty(field)].  The method is looked up on [parsed]
    itself: a member named [hasOwnProperty] hides the built-in one, and a
    value read from JSON is never callable, so the call raises a
    TypeError ([None]).  So does the lookup on [null] or [undefined]. *)
Definition call_hasOwnProperty (parsed : value) (field : jsstring) : option bool :=
  match parsed with
  | VUndefined | VNull => None
  | VObj m =>
      if obj_has m (lit "hasOwnProperty") then None else Some (obj_has m field)
  | _ => Some false
  end.

(** [fields.every(field => parsed.hasOwnProperty(field))] *)
Fixpoint every_hasOwnProperty (parsed : value) (fields : list jsstring)
    : option bool :=
  match fields with
  | [] => Some true
  | f :: rest =>
      match call_hasOwnProperty parsed f with
      | None => None
      | Some false => Some false
      | Some true => every_hasOwnProperty parsed rest
      end
  end.

Definition is_closer (c : codeunit) : bool :=
  cu_eqb c RBRACE || cu_eqb c RBRACKET.

(** [/,(\s*[}\]])/g] *)
Definition trailingCommaPattern : regex :=
  Seq (Chr COMMA) (Group (Seq (Star is_space) (Cls is_closer))).

(** [jsonStr.replace(/,(\s*[}\]])/g, '$1')] *)
Definition stripTrailingCommas (jsonStr : jsstring) : jsstring :=
  replace_all_g1 false trailingCommaPattern 0 jsonStr.

(** [parsed.field || fallback] *)
Definition field_or (parsed : value) (field : string) (fallback : string)
    : option value :=
  match get_prop parsed (lit field) with
  | Some v => Some (js_or v (VStr (lit fallback)))
  | None => None
  end.

(** The record built when some required member is missing. *)
Definition validPrompt (parsed : value) : option value :=
  match field_or parsed "context" "No context provided",
        field_or parsed "role" "Expert assistant",
        field_or parsed "task" "Complete the requested task",
        field_or parsed "constraints" "Follow best practices",
        field_or parsed "output" "Provide appropriate output" with
  | Some c, Some r, Some t, Some k, Some o =>
      Some (VObj [(lit "context", c); (lit "role", r); (lit "task", t);
                  (lit "constraints", k); (lit "output", o)])
  | _, _, _, _, _ => None
  end.

(** The text handed to the second [JSON.parse]: from the first opening
    brace to the last closing brace, trailing commas removed.  [None]
    when the braces are not found in that order. *)
Definition braceSlice (content : jsstring) : option jsstring :=
  let firstBrace := indexOf content LBRACE in
  let lastBrace := lastIndexOf content RBRACE in
  if negb (firstBrace =? -1) && negb (lastBrace =? -1)
     && (lastBrace >? firstBrace)
  then Some (stripTrailingCommas (slice content firstBrace (lastBrace + 1)))
  else None.

(** The second tier, shared word for word by the two functions up to the
    texts of [edits]: the body of [catch (jsonError)] down to the end of
    its inner [try].  The result is the prompt returned and whether its
    members had to be filled in; [None] when control leaves the block
    without [return]: no braces, or an exception caught by
    [catch (parseError)]. *)
Definition bracePrompt (content : jsstring) : option (value * bool) :=
  match braceSlice content with
  | None => None
  | Some jsonStr =>
      match JSON_parse jsonStr with
      | None => None
      | Some parsed =>
          match every_hasOwnProperty parsed requiredFields with
          | None => None
          | Some true => Some (parsed, false)
          | Some false =>
              match validPrompt parsed with
              | Some p => Some (p, true)
              | None => None
              end
          end
      end
  end.

Definition braceExtraction (content : jsstring) (editsFull editsFilled : string)
    : option Generated :=
  match bracePrompt content with
  | Some (p, filled) =>
      Some (mkGenerated p (VStr (lit (if filled then editsFilled else editsFull))))
  | None => None
  end.

Definition not_dquote (c : codeunit) : bool := negb (cu_eqb c DQUOTE).
Definition not_squote (c : codeunit) : bool := negb (cu_eqb c SQUOTE).
Definition not_newline (c : codeunit) : bool := negb (cu_eqb c NL).
Definition not_newline_star (c : codeunit) : bool :=
  negb (cu_eqb c NL || cu_eqb c STAR).

Definition seq_all (rs : list regex) : regex := fold_right Seq Eps rs.

(** The five patterns of [extractField], in order, all with flag [i].
    With Q for the double quote, q for the single quote and f for the
    field name, they read
    - [Q f Q \s* : \s* Q ( [^Q]* ) Q]
    - [q f q \s* : \s* q ( [^q]* ) q]
    - [f \s* : \s* Q ( [^Q]* ) Q]
    - [\*\* f \*\* :? \s* ( [^\n\*]+ )]
    - [f :? \s* ( [^\n]+ )]. *)
Definition fieldPatterns (fieldName : jsstring) : list regex :=
  [ seq_all [Chr DQUOTE; Str fieldName; Chr DQUOTE; Star is_space; Chr COLON;
             Star is_space; Chr DQUOTE; Group (Star not_dquote); Chr DQUOTE];
    seq_all [Chr SQUOTE; Str fieldName; Chr SQUOTE; Star is_space; Chr COLON;
             Star is_space; Chr SQUOTE; Group (Star not_squote); Chr SQUOTE];
    seq_all [Str fieldName; Star is_space; Chr COLON; Star is_space;
             Chr DQUOTE; Group (Star not_dquote); Chr DQUOTE];
    seq_all [Chr STAR; Chr STAR; Str fieldName; Chr STAR; Chr STAR;
             OptChr COLON; Star is_space; Group (Plus not_newline_star)];
    seq_all [Str fieldName; OptChr COLON; Star is_space;
             Group (Plus not_newline)] ].

(** The loop over the patterns: the first one that matches with a
    non-empty capture gives the result, trimmed. *)
Fixpoint firstCapture (content : jsstring) (patterns : list regex) : value :=
  match patterns with
  | [] => VNull
  | pattern :: rest =>
      match rx_search true pattern content with
      | Some (_, Some (c :: cs)) => VStr (trim (c :: cs))
      | _ => firstCapture content rest
      end
  end.

Definition extractField (content : jsstring) (fieldName : string) : value :=
  firstCapture content (fieldPatterns (lit fieldName)).

(** The record built from the extracted fields. *)
Definition extractedPrompt (content rawPrompt : jsstring) : value :=
  VObj
    [(lit "context",
      js_or (extractField content "context")
            (VStr (lit "Context based on: " ++ substring rawPrompt 0 200
                   ++ lit "...")));
     (lit "role",
      js_or (extractField content "role")
            (VStr (lit "Expert assistant specialized in the given domain")));
     (lit "task",
      js_or (extractField content "task")
            (VStr (lit "Complete the task as described in the user's prompt")));
     (lit "constraints",
      js_or (extractField content "constraints")
            (VStr (lit "Ensure accuracy, clarity, and adherence to best practices")));
     (lit "output",
      js_or (extractField content "output")
            (VStr (lit "Deliver a comprehensive and well-structured response")))].

(** The record of the last resort. *)
Definition basicPrompt (rawPrompt : jsstring) : value :=
  VObj
    [(lit "context",
      VStr (lit "The user wants to: " ++ substring rawPrompt 0 500
            ++ (if js_length rawPrompt >? 500 then lit "..." else [])));
     (lit "role",
      VStr (lit "Expert assistant with deep knowledge in the relevant domain"));
     (lit "task",
      VStr (lit "1. Understand the user's requirements" ++ [NL]
            ++ lit "2. Provide a comprehensive solution" ++ [NL]
            ++ lit "3. Ensure clarity and completeness"));
     (lit "constraints",
      VStr (lit "- Be accurate and thorough" ++ [NL]
            ++ lit "- Follow best practices" ++ [NL]
            ++ lit "- Provide clear explanations"));
     (lit "output",
      VStr (lit "A well-structured response that fully addresses the user's needs"))].

(** The end of [catch (jsonError)] in [generateInitialPrompt]: field by
    field extraction, then the basic structure. *)
Definition fieldExtraction (content rawPrompt : jsstring) : Generated :=
  if truthy (js_or (js_or (extractField content "context")
                          (extractField content "role"))
                   (extractField content "task"))
  then mkGenerated (extractedPrompt content rawPrompt)
         (VStr (lit "Initial prompt generation with field extraction fallback."))
  else mkGenerated (basicPrompt rawPrompt)
         (VStr (lit "Initial prompt generation with automatic structuring.")).

Definition failure : Generated := mkGenerated VNull VNull.

(** [generateInitialPrompt], given the outcome of its one call. *)
Definition generateInitialPrompt (reply : Outcome) (rawPrompt : jsstring)
    : Generated :=
  match reply with
  | Throws => failure
  | Replies content =>
      match JSON_parse content with
      | Some parsed =>
          mkGenerated parsed (VStr (lit "Initial prompt generation."))
      | None =>
          match braceExtraction content "Initial prompt generation."
                  "Initial prompt generation with field validation." with
          | Some g => g
          | None => fieldExtraction content rawPrompt
          end
      end
  end.

(** The decimal digits of a non-negative integer. *)
Definition decimal (z : Z) : jsstring :=
  lit (NilZero.string_of_uint (N.to_uint (Z.to_N z))).

(** [refinePrompt], given the outcome of its one call. *)
Definition refinePrompt (reply : Outcome) (iterationNum : Z) : Generated :=
  match reply with
  | Throws => failure
  | Replies content =>
      match JSON_parse content with
      | Some refinedPromptJson =>
          mkGenerated refinedPromptJson
            (VStr (lit "Refined prompt based on PE2 principles (Iteration "
                   ++ decimal iterationNum ++ lit ")."))
      | None =>
          match braceExtraction content "Refined prompt generation."
                  "Refined prompt generation with field validation." with
          | Some g => g
          | None => failure
          end
      end
  end.

(* ------------------------------------------------------------------ *)
(** ** The refinement loop of [processPrompt] *)
(* ------------------------------------------------------------------ *)

(** [validatePrompt]: the message of the refusal, or [None] for [null]. *)
Definition validatePrompt (text : jsstring) : option jsstring :=
  if negb (truthy (VStr text)) || (js_length (trim text) =? 0)
  then Some (lit "Please enter a prompt")
  else if js_length text <? 10
  then Some (lit "Prompt too short. Please provide more detail.")
  else if js_length text >? 10000
  then Some (lit "Prompt too long. Consider breaking it down.")
  else None.

(** [strategySelector.selectStrategy(context).iterations]: the selector
    in place is a stub whose strategy leaves [iterations] undefined
    ([None]). *)
Definition strategyIterations : option Z := None.

(** [strategy.iterations || baseIterations] *)
Definition recommendedIterations (text : jsstring) : Z :=
  let baseIterations := iterations (analyzePromptComplexity text) in
  match strategyIterations with
  | Some n => if n =? 0 then baseIterations else n
  | None => baseIterations
  end.

(** The backend behind the client, as the outcome of each call in the
    order the calls are made (the first call is call 0).  Every sequence
    of outcomes is a possible backend. *)
Definition Client : Type := nat -> Outcome.

(** An element of [refinementHistory]: [{ iteration, edits }]. *)
Record HistoryEntry : Type := mkEntry {
  iteration : Z;
  entry_edits : value
}.

(** The variables the loop updates, and the number of calls made. *)
Record LoopState : Type := mkLoop {
  workingPrompt : value;
  refinementHistory : list HistoryEntry;
  calls : nat
}.

(** [for (let i = 0; i < recommendedIterations; i++)], with [remaining]
    the number of values of [i] still to come. *)
Fixpoint refineLoop (client : Client) (remaining : nat) (i : Z) (st : LoopState)
    : LoopState :=
  match remaining with
  | O => st
  | S remaining' =>
      let iterationNum := i + 2 in
      let refined := refinePrompt (client (calls st)) iterationNum in
      if negb (truthy (prompt refined))
      then (* break *)
        mkLoop (workingPrompt st) (refinementHistory st) (S (calls st))
      else
        refineLoop client remaining' (i + 1)
          (mkLoop (prompt refined)
                  (refinementHistory st ++ [mkEntry iterationNum (edits refined)])
                  (S (calls st)))
  end.

(** How a run ends: the text is refused before anything is called, the
    initial generation gives no prompt, or the final prompt and the
    history go on to be rendered and saved. *)
Inductive Run : Type :=
| Rejected (message : jsstring)
| Failed
| Done (final : value) (history : list HistoryEntry).

(** [processPrompt]: how the run ends, and how many calls it made. *)
Definition processPrompt (client : Client) (text : jsstring) : Run * nat :=
  match validatePrompt text with
  | Some message => (Rejected message, O)
  | None =>
      let initial := generateInitialPrompt (client O) text in
      if negb (truthy (prompt initial))
      then (Failed, 1%nat)
      else
        let st :=
          refineLoop client (Z.to_nat (recommendedIterations text)) 0
            (mkLoop (prompt initial) [mkEntry 1 (edits initial)] 1%nat) in
        (Done (workingPrompt st) (refinementHistory st), calls st)
  end.

(* ------------------------------------------------------------------ *)
(** ** The provider clients *)
(* ------------------------------------------------------------------ *)

(** The argument of [chat.completions.create].  [model] and [messages]
    are arbitrary values, as the validation tests them; the optional
    numeric parameters are numbers or undefined ([None]). *)
Module Opts.
Record t : Type := mk {
  model : value;
  messages : value;
  max_tokens : option number;
  temperature : option number;
  top_p : option number;
  top_k : option number;
  frequency_penalty : option number;
  presence_penalty : option number;
  stop : value;
  stop_sequences : value;
  stream : value;
  user : value;
  headers : value;
  safety_settings : value
}.
End Opts.

(** The exceptions a client raises.  The first four are those of the
    validation at the head of [create]. *)
Inductive Error : Type :=
| ModelRequired          (* model parameter is required and must be a string *)
| MessagesRequired       (* messages parameter is required and must be a non-empty array *)
| InvalidRole (role : value)
| ContentRequired        (* Message content is required and must be a string *)
| ConversationStart      (* Anthropic conversation must start with a user message *)
| TypeError              (* a member read on null or undefined *)
| NoInput                (* Google: no message left to send *)
| Backend (status : option Z).  (* a failed call, reported by status *)

Inductive Result (A : Type) : Type :=
| Returned (a : A)
| Thrown (e : Error).

Arguments Returned {A} a.
Arguments Thrown {A} e.

(** What the network gives back: a reply, or a failure with its status. *)
Inductive Reply (R : Type) : Type :=
| Ok (r : R)
| Fails (status : option Z).

Arguments Ok {R} r.
Arguments Fails {R} status.

(** The result of [create] together with the requests it sent out. *)
Record Effect (W A : Type) : Type := mkEffect {
  result : Result A;
  sent : list W
}.


(** [['system', 'user', 'assistant'].includes(message.role)] *)
Definition allowedRole (role : value) : bool :=
  is_str role (lit "system") || is_str role (lit "user")
  || is_str role (lit "assistant").

(** [for (const message of messages)]: the first offending message ends
    the loop with its error. *)
Fixpoint validateMessages (ms : list value) : option Error :=
  match ms with
  | [] => None
  | message :: rest =>
      match get_prop message (lit "role") with
      | None => Some TypeError
      | Some role =>
          if negb (truthy role) || negb (allowedRole role)
          then Some (InvalidRole role)
          else
            match get_prop message (lit "content") with
            | None => Some TypeError
            | Some content =>
                if negb (truthy content) || negb (is_string content)
                then Some ContentRequired
                else validateMessages rest
            end
      end
  end.

(** The validation that opens [create] in the OpenAI, OpenRouter,
    Anthropic and Google clients (the same statements in the four
    files, up to the provider named in the messages). *)
Definition validate (opts : Opts.t) : option Error :=
  if negb (truthy (Opts.model opts)) || negb (is_string (Opts.model opts))
  then Some ModelRequired
  else
    match Opts.messages opts with
    | VArr ms =>
        match ms with
        | [] => Some MessagesRequired
        | _ => validateMessages ms
        end
    | _ => Some MessagesRequired
    end.

(** [Math.max(lo, Math.min(hi, x))] *)
Definition clamp (lo hi : Z) (x : number) : number :=
  Math_max (num lo) (Math_min (num hi) x).

(** [x !== undefined ? Math.max(lo, Math.min(hi, x)) : dflt] *)
Definition clamp_or (lo hi : Z) (dflt : number) (x : option number) : number :=
  match x with
  | Some n => clamp lo hi n
  | None => dflt
  end.

(** [x || dflt] for an optional number *)
Definition number_or (x : option number) (dflt : number) : number :=
  match x with
  | Some n => if num_truthy n then n else dflt
  | None => dflt
  end.

(** [x || dflt] and [x && { key: x }] for an arbitrary value *)
Definition when_truthy (x : value) : option value :=
  if truthy x then Some x else None.

(** Read on validated messages: [m.role] and [m.content]. *)
Definition role_of (m : value) : value :=
  match get_prop m (lit "role") with Some r => r | None => VUndefined end.

Definition content_of (m : value) : jsstring :=
  match get_prop m (lit "content") with Some (VStr s) => s | _ => [] end.

Definition is_system (m : value) : bool := is_str (role_of m) (lit "system").

Definition message_list (v : value) : list value :=
  match v with VArr ms => ms | _ => [] end.

(** [messages.filter(m => m.role === 'system')] and its complement *)
Definition systemMessages (opts : Opts.t) : list value :=
  filter is_system (message_list (Opts.messages opts)).

Definition conversationMessages (opts : Opts.t) : list value :=
  filter (fun m => negb (is_system m)) (message_list (Opts.messages opts)).

(** [systemMessages.map(m => m.content).join('\n\n')], or [null] when
    there is no system message. *)
Definition systemPrompt (opts : Opts.t) : option jsstring :=
  match systemMessages opts with
  | [] => None
  | ms => Some (join [NL; NL] (map content_of ms))
  end.

(** [opts.stop_sequences && Array.isArray(opts.stop_sequences)
     && { key: opts.stop_sequences.slice(0, n) }] *)
Definition stopSlice (n : nat) (opts : Opts.t) : option (list value) :=
  match Opts.stop_sequences opts with
  | VArr l => Some (firstn n l)
  | _ => None
  end.

(** *** OpenAI ([createOpenAIClient]) *)
Module OpenAI.

Record Params : Type := mkParams {
  model : value;
  messages : value;
  max_tokens : number;
  temperature : number;
  top_p : number;
  frequency_penalty : number;
  presence_penalty : number;
  stream : value;
  stop : value;
  user : value;
  headers : option value
}.

(** [enhancedParams] *)
Definition enhancedParams (params : Opts.t) : Params :=
  mkParams
    (Opts.model params)
    (Opts.messages params)
    (number_or (Opts.max_tokens params) (num 2048))
    (clamp_or 0 2 (Fin (7 # 10)) (Opts.temperature params))
    (clamp_or 0 1 (num 1) (Opts.top_p params))
    (clamp_or (-2) 2 (num 0) (Opts.frequency_penalty params))
    (clamp_or (-2) 2 (num 0) (Opts.presence_penalty params))
    (js_or (Opts.stream params) (VBool false))
    (js_or (Opts.stop params) VNull)
    (js_or (Opts.user params) VNull)
    (when_truthy (Opts.headers params)).

(** The wrapped [create]; [originalCreate] is the method of the SDK. *)
Definition create {R : Type} (originalCreate : Params -> Reply R)
    (params : Opts.t) : Effect Params R :=
  match validate params with
  | Some e => mkEffect (Thrown e) []
  | None =>
      let enhanced := enhancedParams params in
      mkEffect
        (match originalCreate enhanced with
         | Ok response => Returned response
         | Fails status => Thrown (Backend status)
         end)
        [enhanced]
  end.

End OpenAI.

(** *** OpenRouter ([OpenRouterClient]) *)
Module OpenRouter.

Record Body : Type := mkBody {
  model : value;
  messages : value;
  max_tokens : number;
  temperature : number;
  top_p : number;
  frequency_penalty : number;
  presence_penalty : number;
  stream : value;
  stop : option value;
  user : option value
}.

(** [requestBody] *)
Definition requestBody (options : Opts.t) : Body :=
  mkBody
    (Opts.model options)
    (Opts.messages options)
    (number_or (Opts.max_tokens options) (num 2048))
    (clamp_or 0 2 (Fin (7 # 10)) (Opts.temperature options))
    (clamp_or 0 1 (num 1) (Opts.top_p options))
    (clamp_or (-2) 2 (num 0) (Opts.frequency_penalty options))
    (clamp_or (-2) 2 (num 0) (Opts.presence_penalty options))
    (js_or (Opts.stream options) (VBool false))
    (when_truthy (Opts.stop options))
    (when_truthy (Opts.user options)).

(** [chat.completions.create]; [fetch] posts the body and reshapes the
    reply. *)
Definition create {R : Type} (fetch : Body -> Reply R) (options : Opts.t)
    : Effect Body R :=
  match validate options with
  | Some e => mkEffect (Thrown e) []
  | None =>
      let body := requestBody options in
      mkEffect
        (match fetch body with
         | Ok response => Returned response
         | Fails status => Thrown (Backend status)
         end)
        [body]
  end.

End OpenRouter.

(** *** Anthropic ([createAnthropicClient]) *)
Module Anthropic.

Record Params : Type := mkParams {
  model : value;
  messages : list value;
  max_tokens : number;
  system : option jsstring;
  temperature : option number;
  top_p : option number;
  stop_sequences : option (list value);
  stream : option value
}.

(** [anthropicParams] *)
Definition anthropicParams (opts : Opts.t) : Params :=
  mkParams
    (Opts.model opts)
    (conversationMessages opts)
    (number_or (Opts.max_tokens opts) (num 2048))
    (match systemPrompt opts with
     | Some (c :: s) => Some (c :: s)
     | _ => None
     end)
    (option_map (clamp 0 1) (Opts.temperature opts))
    (option_map (clamp 0 1) (Opts.top_p opts))
    (stopSlice 4 opts)
    (when_truthy (Opts.stream opts)).

(** A block of [response.content]; [text] may be missing. *)
Record Block : Type := mkBlock {
  type : jsstring;
  text : option jsstring
}.

(** [response.content]: an array of blocks, or something else, of which
    only a [text] member is read. *)
Inductive Content : Type :=
| Blocks (blocks : list Block)
| Single (text : option jsstring).

Record Response : Type := mkResponse {
  content : Content;
  stop_reason : option jsstring
}.

(** What [create] returns: the text and finish reason of its one choice. *)
Record Completion : Type := mkCompletion {
  message_content : jsstring;
  finish_reason : jsstring
}.

Definition text_or_empty (t : option jsstring) : jsstring :=
  match t with Some s => s | None => [] end.

(** [response.content.filter(block => block.type === 'text')
       .map(block => block.text || '').join('')] *)
Definition responseText (c : Content) : jsstring :=
  match c with
  | Blocks blocks =>
      join [] (map (fun block => text_or_empty (text block))
                   (filter (fun block => str_eqb (type block) (lit "text"))
                           blocks))
  | Single t => text_or_empty t
  end.

Definition completion (response : Response) : Completion :=
  mkCompletion
    (responseText (content response))
    (match stop_reason response with
     | Some (c :: s) => c :: s
     | _ => lit "stop"
     end).

(** [create]; [messagesCreate] is [anthropic.messages.create]. *)
Definition create (messagesCreate : Params -> Reply Response) (opts : Opts.t)
    : Effect Params Completion :=
  match validate opts with
  | Some e => mkEffect (Thrown e) []
  | None =>
      match conversationMessages opts with
      | first :: _ =>
          if negb (is_str (role_of first) (lit "user"))
          then mkEffect (Thrown ConversationStart) []
          else
            let params := anthropicParams opts in
            mkEffect
              (match messagesCreate params with
               | Ok response => Returned (completion response)
               | Fails status => Thrown (Backend status)
               end)
              [params]
      | [] =>
          let params := anthropicParams opts in
          mkEffect
            (match messagesCreate params with
             | Ok response => Returned (completion response)
             | Fails status => Thrown (Backend status)
             end)
            [params]
      end
  end.

End Anthropic.

(** *** Google ([createGoogleClient]) *)
Module Google.

(** A turn in Gemini's format: [{ role, parts: [{ text }] }]. *)
Record Turn : Type := mkTurn {
  role : jsstring;
  text : jsstring
}.

Record Request : Type := mkRequest {
  model : value;
  systemInstruction : option jsstring;
  history : list Turn;
  input : jsstring;
  maxOutputTokens : number;
  temperature : option number;
  topP : option number;
  topK : option number;
  stopSequences : option (list value);
  safetySettings : option value   (* [None]: the default settings *)
}.

Definition turn (message : value) : Turn :=
  mkTurn (if is_str (role_of message) (lit "assistant")
          then lit "model" else lit "user")
         (content_of message).

(** The request, when there is a last message to send. *)
Definition request (opts : Opts.t) : option Request :=
  match rev (map turn (conversationMessages opts)) with
  | [] => None
  | last :: before =>
      Some (mkRequest
              (Opts.model opts)
              (match systemPrompt opts with
               | Some (c :: s) => Some (c :: s)
               | _ => None
               end)
              (rev before)
              (text last)
              (number_or (Opts.max_tokens opts) (num 2048))
              (option_map (clamp 0 2) (Opts.temperature opts))
              (option_map (clamp 0 1) (Opts.top_p opts))
              (option_map (clamp 1 100) (Opts.top_k opts))
              (stopSlice 5 opts)
              (when_truthy (Opts.safety_settings opts)))
  end.

(** [create]; [generate] is [chat.sendMessage] or [generateContent]
    followed by the reshaping of the reply. *)
Definition create {R : Type} (generate : Request -> Reply R) (opts : Opts.t)
    : Effect Request R :=
  match validate opts with
  | Some e => mkEffect (Thrown e) []
  | None =>
      match request opts with
      | None => mkEffect (Thrown NoInput) []
      | Some req =>
          mkEffect
            (match generate req with
             | Ok response => Returned response
             | Fails status => Thrown (Backend status)
             end)
            [req]
      end
  end.

End Google.

(** *** Ollama ([createOllamaClient]) *)
Module Ollama.

(** The body posted to [/api/chat]. *)
Record Body : Type := mkBody {
  model : value;
  messages : value;
  stream : value;
  num_predict : number
}.

(** The parameter list [{ model, messages, max_tokens = 2048,
    stream = false }]: a default stands in for [undefined] only. *)
Definition body (opts : Opts.t) : Body :=
  mkBody
    (Opts.model opts)
    (Opts.messages opts)
    (match Opts.stream opts with VUndefined => VBool false | s => s end)
    (match Opts.max_tokens opts with Some n => n | None => num 2048 end).

(** [create]: the request is posted as it comes. *)
Definition create {R : Type} (fetch : Body -> Reply R) (opts : Opts.t)
    : Effect Body R :=
  let b := body opts in
  mkEffect
    (match fetch b with
     | Ok response => Returned response
     | Fails status => Thrown (Backend status)
     end)
    [b].

End Ollama.

(* ------------------------------------------------------------------ *)
(** ** Vocabulary of the statements *)
(* ------------------------------------------------------------------ *)

(** A text of 500 words with exactly five technical keywords (docker,
    rust, python, kubernetes, latency), one numbered list and the two
    connectives if and then, and nothing else the analyzer counts. *)
Definition sample500 : jsstring :=
  lit "Build service with docker rust python kubernetes latency if ready then ship"
  ++ [NL] ++ lit "1. first" ++ concat (repeat (lit " word") 486).

(** The points the analyzer adds to the 11 that such a text is sure of:
    domain keywords, the structural cues beyond the numbered list, and
    the special characters. *)
Definition extraPoints (rawPrompt : jsstring) : Z :=
  Z.min (domainHits rawPrompt) 3
  + (Z.min (structuralHits rawPrompt) 4 - 1)
  + specialScore rawPrompt.

(** A message that the validation of a client refuses: its role is not
    one of the three, or its content is not a non-empty string. *)
Definition bad_message (m : value) : bool :=
  negb (allowedRole (role_of m))
  || negb (match get_prop m (lit "content") with
           | Some (VStr (_ :: _)) => true
           | _ => false
           end).


(** A request the validation must refuse: the model is missing or not a
    non-empty string, the message list is missing or empty, or some
    message is a bad one. *)
Definition invalid_request (opts : Opts.t) : Prop :=
  (truthy (Opts.model opts) && is_string (Opts.model opts) = false)
  \/ is_array (Opts.messages opts) = false
  \/ Opts.messages opts = VArr []
  \/ existsb bad_message (message_list (Opts.messages opts)) = true.


Definition message (role content : string) : value :=
  VObj [(lit "role", VStr (lit role)); (lit "content", VStr (lit content))].

(** A request with a model and messages, and nothing else set. *)
Definition request_of (model : value) (messages : value) : Opts.t :=
  Opts.mk model messages None None None None None None
          VUndefined VUndefined VUndefined VUndefined VUndefined VUndefined.

(** The request of the clamping example: temperature 5 and top_p -1. *)
Definition hot_request : Opts.t :=
  Opts.mk (VStr (lit "gpt-4o")) (VArr [message "user" "Hello"])
          None (Some (num 5)) (Some (num (-1))) None None None
          VUndefined VUndefined VUndefined VUndefined VUndefined VUndefined.

(** A request with two system messages around a user turn, and six stop
    sequences; a reply made of a text block, a tool block and a text
    block. *)
Definition anthropic_sample : Opts.t :=
  Opts.mk (VStr (lit "claude-3-5-sonnet-20241022"))
          (VArr [message "system" "Be brief."; message "user" "Hi";
                 message "system" "Be kind."; message "assistant" "Hello"])
          None None None None None None
          VUndefined
          (VArr (map (fun s => VStr (lit s)) ["a"; "b"; "c"; "d"; "e"; "f"]%string))
          VUndefined VUndefined VUndefined VUndefined.

Definition anthropic_reply : Anthropic.Response :=
  Anthropic.mkResponse
    (Anthropic.Blocks
       [Anthropic.mkBlock (lit "text") (Some (lit "Hel"));
        Anthropic.mkBlock (lit "tool_use") (Some (lit "ignored"));
        Anthropic.mkBlock (lit "text") (Some (lit "lo"))])
    (Some (lit "end_turn")).

(** The texts of the blocks typed [text], in order. *)
Definition text_blocks (blocks : list Anthropic.Block) : list jsstring :=
  map (fun b => Anthropic.text_or_empty (Anthropic.text b))
      (filter (fun b => str_eqb (Anthropic.type b) (lit "text")) blocks).

(** A result the loop of [processPrompt] goes on with: its prompt passes
    the tests [!currentPrompt] and [!refinedPrompt]. *)
Definition usable (g : Generated) : bool := truthy (prompt g).

(** The result of refinement round [j] (from 1): the round reads the
    outcome of call [j], call 0 being the initial generation, and is
    numbered [j + 1] in the history. *)
Definition round (client : Client) (j : nat) : Generated :=
  refinePrompt (client j) (Z.of_nat j + 1).

(** The prompt in hand after [j] good rounds. *)
Definition prompt_after (client : Client) (text : jsstring) (j : nat) : value :=
  match j with
  | O => prompt (generateInitialPrompt (client O) text)
  | S _ => prompt (round client j)
  end.

(** The entries of a history are numbered 1, 2, 3, ... in order. *)
Definition numbered (history : list HistoryEntry) : Prop :=
  map iteration history = map Z.of_nat (seq 1 (length history)).

(** A backend whose first two replies are records and whose third is
    plain prose. *)
Definition client_two_good : Client :=
  fun k =>
    match k with
    | 0%nat => Replies (dq "{'context':'c','role':'r','task':'t','constraints':'k','output':'o'}")
    | 1%nat => Replies (dq "Sure: {'context':'c2','role':'r',}")
    | 2%nat => Replies (lit "I am sorry, I cannot help with that.")
    | _ => Replies (dq "{'context':'late'}")
    end.

(** A field is recoverable when one of the patterns of [extractField]
    matches with a capture. *)
Definition recovered (content : jsstring) (field : string) : bool :=
  match extractField content field with VNull => false | _ => true end.

Definition some_field_recovered (content : jsstring) : bool :=
  existsb (recovered content)
          ["context"; "role"; "task"; "constraints"; "output"]%string.

(** The placeholder of the second tier for a missing member. *)
Definition placeholder (field : string) : string :=
  if String.eqb field "context" then "No context provided"
  else if String.eqb field "role" then "Expert assistant"
  else if String.eqb field "task" then "Complete the requested task"
  else if String.eqb field "constraints" then "Follow best practices"
  else "Provide appropriate output".

(** A reply whose text holds an object with a member named
    hasOwnProperty. *)
Definition shadowing_reply : jsstring :=
  dq "Result: {'hasOwnProperty': true, 'context': 'Review the code'}".

(** The record of the second tier for an object [m] lacking a member. *)
Definition filled (m : object) : object :=
  map (fun field => (lit field, js_or (obj_get m (lit field))
                                      (VStr (lit (placeholder field)))))
      ["context"; "role"; "task"; "constraints"; "output"]%string.

(** A record of exactly the five required members. *)
Definition is_five_field_record (v : value) : bool :=
  match v with
  | VObj m =>
      forallb (obj_has m) requiredFields
      && forallb (fun kv => existsb (str_eqb (fst kv)) requiredFields) m
  | _ => false
  end.

(** A strictly valid record whose context ends in a comma and a brace. *)
Definition comma_brace_record : jsstring :=
  dq "{'context':'x,}','role':'r','task':'t','constraints':'c','output':'o'}".

(** A strictly valid record, with white space around it. *)
Definition plain_record : jsstring :=
  [NL] ++ dq " {'context':'x', 'role':'r', 'task':['t'], 'constraints':'c', 'output':{'format':'md'}} "
  ++ [NL].

(** The machine of [JSON.parse] run over a text from a given state. *)
Definition run (text : jsstring) (st : jstate) : jstate :=
  fold_left json_step text st.

(** The state in which the whole text read so far is the value [v]. *)
Definition closed (v : value) : jstate := Some (LIdle, ([], MDone v)).

(** The tokens the scanner can emit carry no array and no object. *)
Definition scanner_token (t : token) : bool :=
  match t with
  | TValue (VObj _) | TValue (VArr _) => false
  | _ => true
  end.

(** The outermost array or object under construction. *)
Fixpoint bottom (stack : list frame) : option frame :=
  match stack with
  | [] => None
  | [f] => Some f
  | _ :: rest => bottom rest
  end.

(** Parser states from which the value of the text cannot be an object:
    the outermost frame is an array, or the value is complete and is not
    an object. *)
Definition pstate_non_object (ps : pstate) : Prop :=
  match bottom (fst ps) with
  | Some (FArr _) => True
  | Some (FObj _ _) => False
  | None =>
      match snd ps with
      | MDone (VObj _) => False
      | MDone _ => True
      | _ => False
      end
  end.

(** Machine states from which the value of the text cannot be an object:
    besides the above, those in which a scalar is being scanned at the
    top of the text. *)
Definition non_object (st : jstate) : Prop :=
  match st with
  | None => True
  | Some (lx, ps) =>
      pstate_non_object ps \/ (ps = ([], MValue) /\ lx <> LIdle)
  end.

(* ------------------------------------------------------------------ *)
(** ** Further vocabulary: the analyzer *)
(* ------------------------------------------------------------------ *)

(** The place of a difficulty among the five, from 1. *)
Definition rank (d : Difficulty) : Z :=
  match d with
  | NOVICE => 1
  | INTERMEDIATE => 2
  | ADVANCED => 3
  | EXPERT => 4
  | MASTER => 5
  end.

(** The six amounts [analyzePromptComplexity] adds to its score, one per
    step, under the names [ComplexityFactorsSchema] gives them. *)
Record Factors : Type := mkFactors {
  length_score : Z;
  technical_keywords : Z;
  domain_keywords : Z;
  structural_cues : Z;
  logical_connectors : Z;
  punctuation_density : Z
}.

Definition factors (rawPrompt : jsstring) : Factors :=
  mkFactors (lengthScore rawPrompt)
            (Z.min (techHits rawPrompt) 4)
            (Z.min (domainHits rawPrompt) 3)
            (Z.min (structuralHits rawPrompt) 4)
            (Z.min (logicHits rawPrompt) 3)
            (specialScore rawPrompt).

(** The numeric bounds of [ComplexityFactorsSchema]. *)
Definition factors_in_schema (f : Factors) : Prop :=
  0 <= length_score f <= 4 /\
  0 <= technical_keywords f <= 4 /\
  0 <= domain_keywords f <= 3 /\
  0 <= structural_cues f <= 4 /\
  0 <= logical_connectors f <= 3 /\
  0 <= punctuation_density f <= 2.

(* ------------------------------------------------------------------ *)
(** ** The schemas of the prompt and of the history *)
(* ------------------------------------------------------------------ *)

(** [z.string().min(1)] *)
Definition nonempty_string (v : value) : bool :=
  match v with VStr (_ :: _) => true | _ => false end.

(** [z.array(z.string().min(1)).min(1)] *)
Definition nonempty_string_array (v : value) : bool :=
  match v with
  | VArr (x :: l) => forallb nonempty_string (x :: l)
  | _ => false
  end.

(** [z.record(z.string(), z.unknown())] refined by
    [Object.keys(obj).length > 0] *)
Definition nonempty_record (v : value) : bool :=
  match v with VObj (_ :: _) => true | _ => false end.

(** [PE2PromptSchema]: whether [validatePE2Prompt] accepts the data. *)
Definition PE2PromptSchema (data : value) : bool :=
  match data with
  | VObj m =>
      nonempty_string (obj_get m (lit "context"))
      && nonempty_string (obj_get m (lit "role"))
      && (nonempty_string (obj_get m (lit "task"))
          || nonempty_string_array (obj_get m (lit "task")))
      && (nonempty_string (obj_get m (lit "constraints"))
          || nonempty_string_array (obj_get m (lit "constraints")))
      && (nonempty_string (obj_get m (lit "output"))
          || nonempty_record (obj_get m (lit "output")))
  | _ => false
  end.

(** [RefinementHistoryItemSchema] on [{ iteration, edits }], and
    [RefinementHistorySchema]. *)
Definition RefinementHistoryItemSchema (item : HistoryEntry) : bool :=
  (1 <=? iteration item) && nonempty_string (entry_edits item).

Definition RefinementHistorySchema (history : list HistoryEntry) : bool :=
  forallb RefinementHistoryItemSchema history.

(** A value with the five required members. *)
Definition has_required_fields (v : value) : bool :=
  match v with
  | VObj m => forallb (obj_has m) requiredFields
  | _ => false
  end.

(** A backend that answers every call with the same complete record. *)
Definition client_steady : Client :=
  fun _ =>
    Replies (dq "{'context':'c','role':'r','task':'t','constraints':'k','output':'o'}").

(** [deletes_commas s s']: [s'] is [s] with some of its commas taken
    out, and nothing else changed. *)
Inductive deletes_commas : jsstring -> jsstring -> Prop :=
| dc_nil : deletes_commas [] []
| dc_keep : forall c s s', deletes_commas s s' -> deletes_commas (c :: s) (c :: s')
| dc_drop : forall s s', deletes_commas s s' -> deletes_commas (COMMA :: s) s'.

(* ------------------------------------------------------------------ *)
(** ** [LLMUtils] and the bounds of the sampling parameters *)
(* ------------------------------------------------------------------ *)

(** [LLMUtils.sanitizeOptions]: a copy of the options in which the
    sampling parameters that are set are clamped, and [max_tokens] is
    raised to 1. *)
Definition sanitizeOptions (options : Opts.t) : Opts.t :=
  Opts.mk
    (Opts.model options)
    (Opts.messages options)
    (option_map (Math_max (num 1)) (Opts.max_tokens options))
    (option_map (clamp 0 2) (Opts.temperature options))
    (option_map (clamp 0 1) (Opts.top_p options))
    (Opts.top_k options)
    (option_map (clamp (-2) 2) (Opts.frequency_penalty options))
    (option_map (clamp (-2) 2) (Opts.presence_penalty options))
    (Opts.stop options)
    (Opts.stop_sequences options)
    (Opts.stream options)
    (Opts.user options)
    (Opts.headers options)
    (Opts.safety_settings options).

(** A number between two bounds; NaN is between none. *)
Definition within (lo hi : Z) (x : number) : bool :=
  num_leb (num lo) x && num_leb x (num hi).

(** Two numbers of the same value (a finite value has many fractions). *)
Definition same_number (a b : number) : bool :=
  match a, b with
  | NaN, NaN => true
  | _, _ => num_leb a b && num_leb b a
  end.

(** A parameter given as NaN. *)
Definition given_nan (x : option number) : bool :=
  match x with Some NaN => true | _ => false end.

(** A parameter that is absent, or within the bounds. *)
Definition absent_or_within (lo hi : Z) (x : option number) : bool :=
  match x with Some n => within lo hi n | None => true end.


(** A request with sampling parameters out of range on both sides. *)
Definition wild_request : Opts.t :=
  Opts.mk (VStr (lit "gemini-1.5-pro"))
          (VArr [message "system" "Be brief."; message "user" "Hi";
                 message "assistant" "Hello"; message "user" "Bye"])
          (Some (num 0)) (Some (num 5)) (Some (num (-1))) (Some (num 1000))
          (Some PosInf) (Some NegInf)
          VUndefined VUndefined VUndefined VUndefined VUndefined VUndefined.

(** How a clamped parameter relates to the one given: NaN stays NaN,
    every other number lands within the bounds, and a number within the
    bounds keeps its value. *)
Definition clamped_to (lo hi : Z) (given sent : number) : Prop :=
  (given = NaN -> sent = NaN) /\
  (given <> NaN -> within lo hi sent = true) /\
  (within lo hi given = true -> same_number sent given = true).

(** The same for a parameter that is only sent when it is given. *)
Definition clamped_option (lo hi : Z) (given sent : option number) : Prop :=
  match given, sent with
  | Some g, Some s => clamped_to lo hi g s
  | None, None => True
  | _, _ => False
  end.

(* ------------------------------------------------------------------ *)
(** ** The Python adapter: [PythonString] and [PythonUtils] *)
(* ------------------------------------------------------------------ *)

(** [arr.slice(a, b)] and [arr.slice(a)]: negative indices count from
    the end. *)
Definition array_slice {A : Type} (arr : list A) (a b : Z) : list A :=
  let len := Z.of_nat (length arr) in
  let from := if a <? 0 then Z.max (len + a) 0 else Z.min a len in
  let to := if b <? 0 then Z.max (len + b) 0 else Z.min b len in
  firstn (Z.to_nat (Z.max (to - from) 0)) (skipn (Z.to_nat from) arr).

Definition array_slice_from {A : Type} (arr : list A) (a : Z) : list A :=
  array_slice arr a (Z.of_nat (length arr)).

(** [s.split(separator)] for a separator that is a non-empty string:
    the text is cut at each occurrence of the separator, found from
    left to right, the search going on after the occurrence.  [skip]
    counts the code units of the current occurrence still to be passed
    over, [cur] holds the piece being read, backwards. *)
Fixpoint split_scan (separator : jsstring) (skip : nat) (cur : jsstring)
    (s : jsstring) : list jsstring :=
  match s with
  | [] => [rev cur]
  | c :: t =>
      match skip with
      | S n => split_scan separator n cur t
      | O =>
          if starts_with separator s
          then rev cur :: split_scan separator (length separator - 1) [] t
          else split_scan separator 0 (c :: cur) t
      end
  end.

(** [s.split(separator)]: the empty separator cuts between the code
    units. *)
Definition js_split (s separator : jsstring) : list jsstring :=
  match separator with
  | [] => map (fun c => [c]) s
  | _ => split_scan separator 0 [] s
  end.

(** [s.split(/\s+/)]: the pieces between the maximal runs of white
    space. *)
Fixpoint space_pieces (in_run : bool) (cur : jsstring) (s : jsstring)
    : list jsstring :=
  match s with
  | [] => [rev cur]
  | c :: t =>
      if is_space c
      then (if in_run then space_pieces true cur t
            else rev cur :: space_pieces true [] t)
      else space_pieces false (c :: cur) t
  end.

Definition split_spaces (s : jsstring) : list jsstring := space_pieces false [] s.

(** [s.indexOf(searchString, position)]: the first index from
    [position] (brought within the text) at which the search string
    stands, or -1. *)
Fixpoint find_at (searchString s : jsstring) (k : Z) : Z :=
  if starts_with searchString s then k
  else match s with
       | [] => -1
       | _ :: t => find_at searchString t (k + 1)
       end.

Definition indexOf_string (s searchString : jsstring) (position : Z) : Z :=
  let start := Z.min (Z.max position 0) (js_length s) in
  find_at searchString (skipn (Z.to_nat start) s) start.

(** [s => s.length > 0] *)
Definition has_length (s : jsstring) : bool := js_length s >? 0.

(** A code unit that is not white space. *)
Definition no_space (c : codeunit) : bool := negb (is_space c).

Module PythonString.

(** [split(separator, maxsplit)]; each argument may be left out. *)
Definition split (value : jsstring) (separator : option jsstring)
    (maxsplit : option Z) : list jsstring :=
  match separator with
  | None =>
      filter has_length (split_spaces (trim value))
  | Some separator =>
      match maxsplit with
      | None => js_split value separator
      | Some maxsplit =>
          let parts := js_split value separator in
          if Z.of_nat (length parts) <=? maxsplit + 1
          then parts
          else
            array_slice parts 0 maxsplit
            ++ [join separator (array_slice_from parts maxsplit)]
      end
  end.

(** [charSet.has(c)] for [new Set(chars.split(''))] *)
Definition charSet_has (chars : jsstring) (c : codeunit) : bool :=
  existsb (cu_eqb c) chars.

(** The first loop of [strip]: [start] moves right over the code units
    of the set; [s] is the text from [start] on. *)
Fixpoint scan_start (chars : jsstring) (s : jsstring) (start : Z) : Z :=
  match s with
  | [] => start
  | c :: t => if charSet_has chars c then scan_start chars t (start + 1) else start
  end.

(** The second loop: [end] moves left over the code units of the set,
    down to [start]; [backwards] is the text from [end] down to [start]. *)
Fixpoint scan_end (chars : jsstring) (backwards : jsstring) (end_ : Z) : Z :=
  match backwards with
  | [] => end_
  | c :: t => if charSet_has chars c then scan_end chars t (end_ - 1) else end_
  end.

(** [strip(chars)] *)
Definition strip (value : jsstring) (chars : option jsstring) : jsstring :=
  match chars with
  | None => trim value
  | Some chars =>
      let start := scan_start chars value 0 in
      let end_ :=
        scan_end chars (rev (skipn (Z.to_nat start) value)) (js_length value - 1) in
      slice value start (end_ + 1)
  end.

(** [lower()] *)
Definition lower (value : jsstring) : jsstring := toLowerCase value.

(** The loop of [count], with the number of rounds it may take:
    [None] when they do not suffice. *)
Fixpoint count_loop (rounds : nat) (value substring : jsstring) (count pos : Z)
    : option Z :=
  match rounds with
  | O => None
  | S rounds' =>
      let found := indexOf_string value substring pos in
      if found =? -1 then Some count
      else count_loop rounds' value substring (count + 1)
             (found + js_length substring)
  end.

(** [count(substring)] within a number of rounds *)
Definition count (rounds : nat) (value substring : jsstring) : option Z :=
  count_loop rounds value substring 0 0.

End PythonString.

Module PythonUtils.



End PythonUtils.

(** The longest prefix of a list whose elements pass a test, and what
    follows it. *)
Fixpoint take_while {A : Type} (p : A -> bool) (l : list A) : list A :=
  match l with
  | x :: t => if p x then x :: take_while p t else []
  | [] => []
  end.

Fixpoint drop_while {A : Type} (p : A -> bool) (l : list A) : list A :=
  match l with
  | x :: t => if p x then drop_while p t else l
  | [] => []
  end.


(* ------------------------------------------------------------------ *)
(** ** The command table ([COMMANDS], [getCommandSuggestions]) *)
(* ------------------------------------------------------------------ *)

Definition COMMANDS : object :=
  map (fun kv => (lit (fst kv), VStr (lit (snd kv))))
    [("/settings", "Configure API provider, model, and key");
     ("/config", "View current settings");
     ("/model", "Quick model switch");
     ("/clear", "Clear screen");
     ("/history", "View recent prompts");
     ("/export", "Export session history");
     ("/import", "Import prompts from file");
     ("/theme", "Toggle between light/dark themes");
     ("/help", "Show all commands");
     ("/batch", "Process multiple prompts from file");
     ("/copy", "Copy last result to clipboard");
     ("/clearall", "Clear all saved prompts")]%string.

(** [Object.keys(o)] *)
Definition Object_keys (o : object) : list jsstring := map fst o.

(** A suggestion: [{ command, description }]. *)
Record Suggestion : Type := mkSuggestion {
  command : jsstring;
  description : value
}.

(** [getCommandSuggestions] *)
Definition getCommandSuggestions (input : jsstring) : list Suggestion :=
  if negb (starts_with (lit "/") input) then []
  else
    let partial := toLowerCase input in
    map (fun cmd => mkSuggestion cmd (obj_get COMMANDS cmd))
        (filter (fun cmd => starts_with partial cmd) (Object_keys COMMANDS)).

(* ------------------------------------------------------------------ *)
(** ** The requests of the tool *)
(* ------------------------------------------------------------------ *)

(** The one message of the requests of [generateInitialPrompt] and
    [refinePrompt]: [{ role: "system", content }]. *)
Definition systemMessage (content : jsstring) : value :=
  VObj [(lit "role", VStr (lit "system")); (lit "content", VStr content)].

Definition requestHeaders : value :=
  VObj [(lit "HTTP-Referer", VStr (lit "https://pe2-cli-tool.local"));
        (lit "X-Title", VStr (lit "KleoSr PE2-CLI Tool"))].

(** The argument both functions pass to [client.chat.completions.create]:
    the model, one system message holding the filled-in template, and
    the two headers. *)
Definition completionRequest (model : value) (content : jsstring) : Opts.t :=
  Opts.mk model (VArr [systemMessage content])
          None None None None None None
          VUndefined VUndefined VUndefined VUndefined requestHeaders VUndefined.

(** What the functions make of the call: the text of the reply, or the
    exception caught. *)
Definition outcome (r : Result jsstring) : Outcome :=
  match r with
  | Returned content => Replies content
  | Thrown _ => Throws
  end.

(** The backend of a run that goes through the Google client: call [k]
    sends the template filled in for that call. *)
Definition googleBackend (generate : Google.Request -> Reply jsstring)
    (model : value) (contents : nat -> jsstring) : Client :=
  fun k => outcome (result (Google.create generate
                              (completionRequest model (contents k)))).

(* ------------------------------------------------------------------ *)
(** ** The reports of failed calls *)
(* ------------------------------------------------------------------ *)















(* ================================================================== *)
(** * Part II. Lemmas and theorems *)
(* ================================================================== *)

Unset Implicit Arguments.

(* ------------------------------------------------------------------ *)
(** ** The complexity analyzer *)
(* ------------------------------------------------------------------ *)

Lemma hits_nonneg : forall text kws, 0 <= hits text kws.
Proof. intros; unfold hits; lia. Qed.

Lemma lengthScore_range : forall rawPrompt, 0 <= lengthScore rawPrompt <= 4.
Proof.
  intros; unfold lengthScore.
  repeat match goal with |- context [if ?b then _ else _] => destruct b end; lia.
Qed.

Lemma specialScore_range : forall rawPrompt, 0 <= specialScore rawPrompt <= 2.
Proof.
  intros; unfold specialScore.
  repeat match goal with |- context [if ?b then _ else _] => destruct b end; lia.
Qed.

Lemma structuralHits_range : forall rawPrompt, 0 <= structuralHits rawPrompt <= 4.
Proof.
  intros; unfold structuralHits.
  pose proof (filter_length_le (fun pat => rx_test false pat rawPrompt)
                structuralPatterns) as H.
  simpl length in H at 2. lia.
Qed.

Lemma totalScore_range : forall rawPrompt, 0 <= totalScore rawPrompt <= 20.
Proof.
  intros; unfold totalScore.
  pose proof (lengthScore_range rawPrompt).
  pose proof (specialScore_range rawPrompt).
  pose proof (structuralHits_range rawPrompt).
  pose proof (hits_nonneg (toLowerCase rawPrompt) techKeywords).
  pose proof (hits_nonneg (toLowerCase rawPrompt) domainKeywords).
  pose proof (hits_nonneg (toLowerCase rawPrompt) logicWords).
  unfold techHits, domainHits, logicHits. lia.
Qed.

(** On a score that is not negative the chain of comparisons of the code
    is the band table. *)
Lemma mapScore_bandTable : forall s, 0 <= s -> bandTable s = Some (mapScore s).
Proof.
  intros s Hs; unfold bandTable, mapScore.
  repeat match goal with
         | |- context [?a <=? ?b] => destruct (Z.leb_spec a b)
         end; simpl; try reflexivity; lia.
Qed.

Lemma analyze_fields : forall rawPrompt,
  score (analyzePromptComplexity rawPrompt) = totalScore rawPrompt /\
  (difficulty (analyzePromptComplexity rawPrompt),
   iterations (analyzePromptComplexity rawPrompt)) = mapScore (totalScore rawPrompt).
Proof.
  intros; unfold analyzePromptComplexity.
  destruct (mapScore (totalScore rawPrompt)); simpl; auto.
Qed.

(** C2. For every input text the analyzer's score is an integer that is
    not negative, and the difficulty tier and the iteration count are the
    ones the band table gives for that score: 0 to 4 the lowest tier with
    1 iteration, 5 to 8 the second with 2, 9 to 12 the third with 3,
    13 to 16 the fourth with 4, 17 and more the highest with 5.  (The
    analyzer is a function of the text, hence deterministic.) *)
Theorem analyzer_score_and_bands : forall rawPrompt : jsstring,
  let r := analyzePromptComplexity rawPrompt in
  0 <= score r /\
  bandTable (score r) = Some (difficulty r, iterations r).
Proof.
  intros rawPrompt r; subst r.
  destruct (analyze_fields rawPrompt) as [Hs Hm].
  pose proof (totalScore_range rawPrompt).
  rewrite Hs, Hm. split; [lia | apply mapScore_bandTable; lia].
Qed.

(** The iteration count of the analyzer is always between 1 and 5. *)
Lemma iterations_range : forall rawPrompt,
  1 <= iterations (analyzePromptComplexity rawPrompt) <= 5.
Proof.
  intros. destruct (analyze_fields rawPrompt) as [_ Hm].
  unfold mapScore in Hm.
  repeat match type of Hm with
         | context [if ?b then _ else _] => destruct b
         end; inversion Hm; lia.
Qed.

Lemma structuralHits_numbered : forall rawPrompt,
  rx_test false numberedListPattern rawPrompt = true ->
  1 <= structuralHits rawPrompt.
Proof.
  intros rawPrompt H; unfold structuralHits, structuralPatterns.
  simpl filter. rewrite H. simpl length. lia.
Qed.

(** C5, as stated, fails: [sample500] has 500 words, five technical
    keywords, a numbered list and two conditional connectives, and scores
    11, in the third band. *)
Lemma example_500_words_not_top_bands :
  ~ (forall rawPrompt : jsstring,
       words rawPrompt = 500 ->
       techHits rawPrompt = 5 ->
       rx_test false numberedListPattern rawPrompt = true ->
       logicHits rawPrompt = 2 ->
       difficulty (analyzePromptComplexity rawPrompt) = EXPERT \/
       difficulty (analyzePromptComplexity rawPrompt) = MASTER).
Proof.
  intro H.
  assert (E : analyzePromptComplexity sample500 = mkComplexity ADVANCED 3 11)
    by (vm_compute; reflexivity).
  specialize (H sample500).
  rewrite E in H. simpl in H.
  destruct H as [H | H]; try discriminate H; vm_compute; reflexivity.
Qed.

(** C5, amended.  A text of 500 words with five technical keywords, a
    numbered list and two conditional connectives scores 11 plus its extra
    points (at most 8): it falls in one of the three highest bands, with 3
    to 5 iterations, and in the two highest exactly when it has at least 2
    extra points. *)
Theorem example_500_words_score : forall rawPrompt : jsstring,
  words rawPrompt = 500 ->
  techHits rawPrompt = 5 ->
  rx_test false numberedListPattern rawPrompt = true ->
  logicHits rawPrompt = 2 ->
  let r := analyzePromptComplexity rawPrompt in
  score r = 11 + extraPoints rawPrompt /\
  0 <= extraPoints rawPrompt <= 8 /\
  (difficulty r = ADVANCED \/ difficulty r = EXPERT \/ difficulty r = MASTER) /\
  3 <= iterations r <= 5 /\
  ((difficulty r = EXPERT \/ difficulty r = MASTER) <-> 2 <= extraPoints rawPrompt).
Proof.
  intros rawPrompt Hw Ht Hn Hl r; subst r.
  destruct (analyze_fields rawPrompt) as [Hs Hm].
  pose proof (structuralHits_numbered rawPrompt Hn) as H1.
  pose proof (structuralHits_range rawPrompt) as H2.
  pose proof (specialScore_range rawPrompt) as H3.
  pose proof (hits_nonneg (toLowerCase rawPrompt) domainKeywords) as H4.
  fold (domainHits rawPrompt) in H4.
  assert (Hscore : totalScore rawPrompt = 11 + extraPoints rawPrompt).
  { assert (Hlen : lengthScore rawPrompt = 4)
      by (unfold lengthScore; rewrite Hw; reflexivity).
    unfold totalScore, extraPoints. rewrite Hlen, Ht, Hl. lia. }
  assert (Hx : 0 <= extraPoints rawPrompt <= 8) by (unfold extraPoints; lia).
  rewrite Hs, Hscore.
  rewrite Hscore in Hm. unfold mapScore in Hm.
  split; [reflexivity | split; [exact Hx | ]].
  destruct (Z.leb_spec (11 + extraPoints rawPrompt) 4); [lia | ].
  destruct (Z.leb_spec (11 + extraPoints rawPrompt) 8); [lia | ].
  destruct (Z.leb_spec (11 + extraPoints rawPrompt) 12);
    [ | destruct (Z.leb_spec (11 + extraPoints rawPrompt) 16) ];
    injection Hm as Hd Hi; rewrite Hd, Hi;
    (split; [ tauto | split; [ lia | ] ]);
    (split; [ intros [E | E]; try discriminate E; lia | intro; try lia; tauto ]).
Qed.

(** The amended statement at [sample500]: no extra point, 11, third band. *)
Lemma example_500_words_score_witness :
  words sample500 = 500 /\
  score (analyzePromptComplexity sample500) = 11 + extraPoints sample500.
Proof.
  split; [ vm_compute; reflexivity | ].
  apply (example_500_words_score sample500); vm_compute; reflexivity.
Defined.

(* ------------------------------------------------------------------ *)
(** ** The provider clients *)
(* ------------------------------------------------------------------ *)





(** C3 at the local client.  [createOllamaClient] has no validation: a
    request with an empty model and an empty message list is posted to
    the server, one outbound call, whatever the server answers. *)
Theorem ollama_posts_invalid_request : forall (R : Type)
    (fetch : Ollama.Body -> Reply R),
  invalid_request (request_of (VStr []) (VArr [])) /\
  sent (Ollama.create fetch (request_of (VStr []) (VArr [])))
  = [Ollama.mkBody (VStr []) (VArr []) (VBool false) (num 2048)].
Proof.
  intros R fetch. split; [ left; reflexivity | reflexivity ].
Qed.

Lemma num_ltb_leb : forall a b, num_ltb a b = true ->
  num_leb a b = true /\ num_leb b a = false.
Proof.
  intros a b H. unfold num_ltb in H.
  apply andb_true_iff in H as [H1 H2].
  apply negb_true_iff in H2. auto.
Qed.

Lemma num_leb_false_mono : forall a b c,
  num_leb a b = true -> num_leb a c = false -> num_leb b c = false.
Proof.
  intros a b c Hab Hac.
  destruct a, b, c; simpl in *; try discriminate; try reflexivity.
  destruct (Qle_bool q0 q1) eqn:E; [ | reflexivity ].
  apply Qle_bool_iff in E, Hab.
  assert (Hc : Qle_bool q q1 = true)
    by (apply Qle_bool_iff; eapply Qle_trans; eassumption).
  congruence.
Qed.

(** A value above the upper bound is clamped to the upper bound. *)
Lemma clamp_above : forall lo hi x,
  lo <= hi -> num_ltb (num hi) x = true -> clamp lo hi x = num hi.
Proof.
  intros lo hi x Hlh Hx. apply num_ltb_leb in Hx as [H1 H2].
  unfold clamp.
  assert (Emin : Math_min (num hi) x = num hi).
  { unfold Math_min. destruct x; simpl in *; try discriminate;
      try rewrite H1; reflexivity. }
  rewrite Emin. unfold Math_max, num. simpl.
  assert (E : Qle_bool (inject_Z lo) (inject_Z hi) = true).
  { apply Qle_bool_iff. rewrite <- Zle_Qle. exact Hlh. }
  rewrite E. reflexivity.
Qed.

(** A value below the lower bound is clamped to the lower bound. *)
Lemma clamp_below : forall lo hi x,
  lo <= hi -> num_ltb x (num lo) = true -> clamp lo hi x = num lo.
Proof.
  intros lo hi x Hlh Hx. apply num_ltb_leb in Hx as [H1 H2].
  unfold clamp.
  assert (Ehi : num_leb (num hi) x = false).
  { apply num_leb_false_mono with (a := num lo); [ | exact H2 ].
    simpl. apply Qle_bool_iff. rewrite <- Zle_Qle. exact Hlh. }
  assert (Emin : Math_min (num hi) x = x).
  { unfold Math_min. destruct x; simpl in *; try discriminate;
      try rewrite Ehi; reflexivity. }
  rewrite Emin. unfold Math_max.
  destruct x; simpl in *; try discriminate; try rewrite H2; reflexivity.
Qed.

(** C9. Both OpenAI-compatible clients send a valid request with its
    temperature clamped to 2 when it is above 2 (5, say), and with its
    top_p clamped to 0 when it is below 0 (-1, say). *)
Theorem openai_compatible_clamping : forall (R : Type) (opts : Opts.t)
    (originalCreate : OpenAI.Params -> Reply R)
    (fetch : OpenRouter.Body -> Reply R),
  validate opts = None ->
  (exists params,
     sent (OpenAI.create originalCreate opts) = [params] /\
     (forall t, Opts.temperature opts = Some t -> num_ltb (num 2) t = true ->
                OpenAI.temperature params = num 2) /\
     (forall p, Opts.top_p opts = Some p -> num_ltb p (num 0) = true ->
                OpenAI.top_p params = num 0)) /\
  (exists body,
     sent (OpenRouter.create fetch opts) = [body] /\
     (forall t, Opts.temperature opts = Some t -> num_ltb (num 2) t = true ->
                OpenRouter.temperature body = num 2) /\
     (forall p, Opts.top_p opts = Some p -> num_ltb p (num 0) = true ->
                OpenRouter.top_p body = num 0)).
Proof.
  intros R opts f1 f2 Hv.
  unfold OpenAI.create, OpenRouter.create. rewrite Hv. simpl.
  split; eexists; (split; [reflexivity | ]); simpl;
    (split; [ intros t Et Ht; rewrite Et; simpl; apply clamp_above; [lia | exact Ht]
            | intros p Ep Hp; rewrite Ep; simpl; apply clamp_below; [lia | exact Hp] ]).
Qed.

(** The example of the claim: temperature 5 goes out as 2, top_p -1 as 0. *)
Lemma openai_compatible_clamping_witness :
  validate hot_request = None /\
  exists params,
    sent (OpenAI.create (fun _ => Ok tt) hot_request) = [params] /\
    OpenAI.temperature params = num 2 /\ OpenAI.top_p params = num 0.
Proof.
  split; [ reflexivity | ].
  destruct (openai_compatible_clamping unit hot_request (fun _ => Ok tt)
              (fun _ => Ok tt) eq_refl) as [[params [Hs [Ht Hp]]] _].
  exists params. split; [ exact Hs | ].
  split; [ apply (Ht (num 5)) | apply (Hp (num (-1))) ]; reflexivity.
Defined.

Lemma join_nil_concat : forall l : list jsstring, join [] l = concat l.
Proof.
  induction l as [| x [| y l] IH]; simpl in *.
  - reflexivity.
  - rewrite app_nil_r. reflexivity.
  - rewrite IH. reflexivity.
Qed.

(** After the validation every message has a non-empty text. *)
Lemma validateMessages_content : forall ms,
  validateMessages ms = None ->
  forall m, In m ms -> content_of m <> [].
Proof.
  induction ms as [| m0 ms IH]; simpl; intros Hv m Hin; [contradiction | ].
  destruct (get_prop m0 (lit "role")) as [role |] eqn:Er; [ | discriminate ].
  destruct (negb (truthy role) || negb (allowedRole role)); [discriminate | ].
  destruct (get_prop m0 (lit "content")) as [content |] eqn:Ec; [ | discriminate ].
  destruct (negb (truthy content) || negb (is_string content)) eqn:E;
    [discriminate | ].
  destruct Hin as [<- | Hin]; [ | apply IH; assumption ].
  unfold content_of. rewrite Ec.
  apply orb_false_iff in E as [Et Es].
  destruct content as [ | | | | [| c s] | | ]; simpl in *; discriminate.
Qed.

Lemma validate_messages : forall opts,
  validate opts = None ->
  exists ms, Opts.messages opts = VArr ms /\ validateMessages ms = None.
Proof.
  intros opts Hv. unfold validate in Hv.
  destruct (negb (truthy (Opts.model opts)) || negb (is_string (Opts.model opts)));
    [discriminate | ].
  destruct (Opts.messages opts) as [ | | | | | ms | ]; try discriminate.
  exists ms. split; [reflexivity | ].
  destruct ms; [discriminate | exact Hv].
Qed.

Lemma join_nonempty : forall sep (l : list jsstring),
  l <> [] -> (forall x, In x l -> x <> []) -> join sep l <> [].
Proof.
  intros sep [| x l] Hl Hx; [contradiction | ].
  assert (x <> []) by (apply Hx; left; reflexivity).
  destruct x; [contradiction | ].
  destruct l; simpl; discriminate.
Qed.

(** On a valid request the system field is the text of the system
    messages, joined in their order, and is absent without them. *)
Lemma anthropic_system : forall opts,
  validate opts = None ->
  Anthropic.system (Anthropic.anthropicParams opts) =
  match systemMessages opts with
  | [] => None
  | ms => Some (join [NL; NL] (map content_of ms))
  end.
Proof.
  intros opts Hv. unfold Anthropic.anthropicParams.
  cbn [Anthropic.system]. unfold systemPrompt.
  destruct (systemMessages opts) as [| m ms] eqn:Es; [reflexivity | ].
  destruct (validate_messages opts Hv) as [all [Hall Hval]].
  assert (Hne : join [NL; NL] (map content_of (m :: ms)) <> []).
  { apply join_nonempty; [discriminate | ].
    intros x Hx. apply in_map_iff in Hx as [m' [<- Hin]].
    apply (validateMessages_content all Hval).
    rewrite <- Es in Hin. unfold systemMessages in Hin.
    rewrite Hall in Hin. simpl in Hin.
    apply filter_In in Hin. tauto. }
  cbv beta iota.
  destruct (join [NL; NL] (map content_of (m :: ms))) eqn:Ej;
    [contradiction | reflexivity].
Qed.

Lemma conversation_no_system : forall opts,
  forallb (fun m => negb (is_system m)) (conversationMessages opts) = true.
Proof.
  intros opts. apply forallb_forall. intros m Hm.
  unfold conversationMessages in Hm. apply filter_In in Hm. tauto.
Qed.

(** C8. For every valid request, the Anthropic client
    - refuses it, sending nothing, when the first message left after the
      system messages are taken out is not a user message;
    - otherwise sends one request whose system field, outside the message
      list, is the text of all system messages joined in their order
      (by a blank line), whose message list is the other messages, and
      whose stop sequences are the first four of the given list;
    - and returns as text the concatenation of the texts of the blocks
      typed text, in the order of the reply. *)
Theorem anthropic_request_and_response : forall (opts : Opts.t)
    (messagesCreate : Anthropic.Params -> Reply Anthropic.Response),
  validate opts = None ->
  (forall first rest,
     conversationMessages opts = first :: rest ->
     is_str (role_of first) (lit "user") = false ->
     Anthropic.create messagesCreate opts = mkEffect (Thrown ConversationStart) [])
  /\
  ((conversationMessages opts = [] \/
    exists first rest, conversationMessages opts = first :: rest /\
                       is_str (role_of first) (lit "user") = true) ->
   exists params,
     sent (Anthropic.create messagesCreate opts) = [params] /\
     Anthropic.system params =
       match systemMessages opts with
       | [] => None
       | ms => Some (join [NL; NL] (map content_of ms))
       end /\
     Anthropic.messages params = conversationMessages opts /\
     forallb (fun m => negb (is_system m)) (Anthropic.messages params) = true /\
     (forall l, Opts.stop_sequences opts = VArr l ->
        Anthropic.stop_sequences params = Some (firstn 4 l) /\
        (length (firstn 4 l) <= 4)%nat) /\
     (forall blocks stop,
        messagesCreate params = Ok (Anthropic.mkResponse (Anthropic.Blocks blocks) stop) ->
        exists completion,
          result (Anthropic.create messagesCreate opts) = Returned completion /\
          Anthropic.message_content completion = concat (text_blocks blocks))).
Proof.
  intros opts messagesCreate Hv. split.
  - intros first rest Hc Hu. unfold Anthropic.create.
    rewrite Hv, Hc, Hu. reflexivity.
  - intros Hstart.
    exists (Anthropic.anthropicParams opts).
    assert (Hcreate :
      Anthropic.create messagesCreate opts =
      mkEffect
        (match messagesCreate (Anthropic.anthropicParams opts) with
         | Ok response => Returned (Anthropic.completion response)
         | Fails status => Thrown (Backend status)
         end)
        [Anthropic.anthropicParams opts]).
    { unfold Anthropic.create. rewrite Hv.
      destruct Hstart as [Hc | [first [rest [Hc Hu]]]]; rewrite Hc;
        [ reflexivity | rewrite Hu; reflexivity ]. }
    rewrite Hcreate. cbn [sent result].
    split; [reflexivity | ].
    split; [ apply (anthropic_system opts Hv) | ].
    split; [reflexivity | ].
    split; [ apply conversation_no_system | ].
    split.
    + intros l Hl. unfold Anthropic.anthropicParams.
      cbn [Anthropic.stop_sequences]. unfold stopSlice. rewrite Hl.
      split; [ reflexivity | apply firstn_le_length ].
    + intros blocks stop Hreply. rewrite Hreply.
      eexists. split; [reflexivity | ].
      unfold Anthropic.completion.
      cbn [Anthropic.message_content Anthropic.content Anthropic.responseText].
      apply join_nil_concat.
Qed.

(** The statement at a request with two system messages and six stop
    sequences, answered by two text blocks around a tool block. *)
Lemma anthropic_request_and_response_witness :
  exists params,
    sent (Anthropic.create (fun _ => Ok anthropic_reply) anthropic_sample) = [params] /\
    Anthropic.system params = Some (lit "Be brief." ++ [NL; NL] ++ lit "Be kind.") /\
    Anthropic.messages params = [message "user" "Hi"; message "assistant" "Hello"] /\
    Anthropic.stop_sequences params
      = Some (map (fun s => VStr (lit s)) ["a"; "b"; "c"; "d"]%string) /\
    exists completion,
      result (Anthropic.create (fun _ => Ok anthropic_reply) anthropic_sample)
        = Returned completion /\
      Anthropic.message_content completion = lit "Hello".
Proof.
  destruct (anthropic_request_and_response anthropic_sample
              (fun _ => Ok anthropic_reply) eq_refl) as [_ H].
  destruct H as [params [Hs [Hsys [Hm [_ [Hstop Htext]]]]]].
  { right. exists (message "user" "Hi"), [message "assistant" "Hello"].
    split; reflexivity. }
  exists params.
  split; [ exact Hs | ].
  split; [ exact Hsys | ].
  split; [ exact Hm | ].
  split; [ exact (proj1 (Hstop _ eq_refl)) | ].
  exact (Htext _ _ eq_refl).
Defined.

(* ------------------------------------------------------------------ *)
(** ** The refinement loop *)
(* ------------------------------------------------------------------ *)

(** A round is unusable when its call throws, and when neither strict
    parsing nor the brace extraction gives a value. *)
Lemma refine_throws_unusable : forall n, usable (refinePrompt Throws n) = false.
Proof. reflexivity. Qed.

Lemma refine_unparsed_unusable : forall content n,
  JSON_parse content = None ->
  bracePrompt content = None ->
  refinePrompt (Replies content) n = failure /\
  usable (refinePrompt (Replies content) n) = false.
Proof.
  intros content n H1 H2. unfold usable, refinePrompt, braceExtraction.
  rewrite H1, H2. split; reflexivity.
Qed.

Section Loop.

Variable client : Client.

(** The loop stops at the first unusable round: it has made one call per
    round up to that one, and keeps the prompt and the history of the
    rounds before it. *)
Lemma refineLoop_break : forall (j remaining : nat) (i : Z) (st : LoopState),
  (j < remaining)%nat ->
  (forall k, (k < j)%nat ->
     usable (refinePrompt (client (calls st + k)%nat) (i + Z.of_nat k + 2)) = true) ->
  usable (refinePrompt (client (calls st + j)%nat) (i + Z.of_nat j + 2)) = false ->
  let st' := refineLoop client remaining i st in
  calls st' = (calls st + j + 1)%nat /\
  length (refinementHistory st') = (length (refinementHistory st) + j)%nat /\
  workingPrompt st' =
    match j with
    | O => workingPrompt st
    | S j' => prompt (refinePrompt (client (calls st + j')%nat) (i + Z.of_nat j' + 2))
    end.
Proof.
  unfold usable.
  induction j as [| j IH]; intros remaining i st Hlt Hgood Hbad;
    (destruct remaining as [| remaining]; [lia | ]); simpl refineLoop.
  - rewrite Nat.add_0_r, Z.add_0_r in Hbad. rewrite Hbad. simpl.
    repeat split; lia.
  - pose proof (Hgood O ltac:(lia)) as H0.
    rewrite Nat.add_0_r, Z.add_0_r in H0. rewrite H0. simpl negb. cbv iota.
    set (st1 := mkLoop _ _ _).
    specialize (IH remaining (i + 1) st1 ltac:(lia)).
    assert (Hcalls : calls st1 = S (calls st)) by reflexivity.
    destruct IH as [Hc [Hl Hw]].
    + intros k Hk. rewrite Hcalls.
      replace (S (calls st) + k)%nat with (calls st + S k)%nat by lia.
      replace (i + 1 + Z.of_nat k + 2) with (i + Z.of_nat (S k) + 2) by lia.
      apply Hgood. lia.
    + rewrite Hcalls.
      replace (S (calls st) + j)%nat with (calls st + S j)%nat by lia.
      replace (i + 1 + Z.of_nat j + 2) with (i + Z.of_nat (S j) + 2) by lia.
      exact Hbad.
    + rewrite Hc, Hl, Hw, Hcalls.
      split; [lia | ]. split.
      * subst st1; simpl. rewrite length_app. simpl. lia.
      * destruct j as [| j'].
        -- subst st1; simpl. rewrite Nat.add_0_r, Z.add_0_r. reflexivity.
        -- replace (S (calls st) + j')%nat with (calls st + S j')%nat by lia.
           replace (i + 1 + Z.of_nat j' + 2) with (i + Z.of_nat (S j') + 2) by lia.
           reflexivity.
Qed.

(** The loop keeps the history numbered: entry after entry, the number
    pushed is the next position. *)
Lemma refineLoop_numbered : forall (remaining : nat) (i : Z) (st : LoopState),
  numbered (refinementHistory st) ->
  Z.of_nat (length (refinementHistory st)) = i + 1 ->
  numbered (refinementHistory (refineLoop client remaining i st)).
Proof.
  induction remaining as [| remaining IH]; intros i st Hn Hlen; simpl.
  - exact Hn.
  - destruct (negb (truthy (prompt (refinePrompt (client (calls st)) (i + 2))))).
    + exact Hn.
    + apply IH; simpl.
      * unfold numbered in *. rewrite length_app, map_app. simpl.
        rewrite Nat.add_1_r, seq_S, map_app, Hn. simpl.
        do 3 f_equal. lia.
      * rewrite length_app. simpl. lia.
Qed.

End Loop.

(** C1. In every run whose initial generation gives a usable prompt, if
    round [i] is the first refinement round without a usable result (its
    call throws, or its reply does not parse), then the run ends in Done
    after 1 + i calls (one for the initial generation and one for each
    round up to [i]: round [i] is not tried again, and no later round is
    tried), with the prompt of the last good round (of the initial
    generation when [i] is 1) and a history of 1 + (i - 1) entries.  In
    particular, with 3 iterations and round 2 unusable, the history has 2
    entries and only 3 calls are made. *)
Theorem refinement_stops_at_first_failure : forall (client : Client)
    (text : jsstring) (i : nat),
  validatePrompt text = None ->
  usable (generateInitialPrompt (client O) text) = true ->
  (1 <= i <= Z.to_nat (recommendedIterations text))%nat ->
  (forall j, (1 <= j < i)%nat -> usable (round client j) = true) ->
  usable (round client i) = false ->
  (exists history,
     processPrompt client text
       = (Done (prompt_after client text (i - 1)) history, (1 + i)%nat) /\
     length history = (1 + (i - 1))%nat) /\
  (recommendedIterations text = 3 -> i = 2%nat ->
   exists final history,
     processPrompt client text = (Done final history, 3%nat) /\
     length history = 2%nat).
Proof.
  intros client text i Hvalid Hinit Hi Hgood Hbad.
  assert (Hrun : exists history,
     processPrompt client text
       = (Done (prompt_after client text (i - 1)) history, (1 + i)%nat) /\
     length history = (1 + (i - 1))%nat).
  { unfold processPrompt. rewrite Hvalid.
    unfold usable in Hinit. rewrite Hinit. simpl negb. cbv iota.
    set (st0 := mkLoop _ _ _).
    destruct (refineLoop_break client (i - 1)
                (Z.to_nat (recommendedIterations text)) 0 st0) as [Hc [Hl Hw]].
    - lia.
    - intros k Hk. subst st0; simpl calls.
      specialize (Hgood (S k) ltac:(lia)). unfold round in Hgood.
      replace (0 + Z.of_nat k + 2) with (Z.of_nat (S k) + 1) by lia.
      exact Hgood.
    - subst st0; simpl calls. unfold round in Hbad.
      replace (1 + (i - 1))%nat with i by lia.
      replace (0 + Z.of_nat (i - 1) + 2) with (Z.of_nat i + 1) by lia.
      exact Hbad.
    - eexists. split.
      + f_equal; [ f_equal | ].
        * rewrite Hw. subst st0; simpl workingPrompt; simpl calls.
          destruct (i - 1)%nat as [| j'] eqn:Ej; simpl prompt_after.
          -- reflexivity.
          -- unfold round.
             replace (0 + Z.of_nat j' + 2) with (Z.of_nat (S j') + 1) by lia.
             reflexivity.
        * rewrite Hc. subst st0; simpl calls. lia.
      + rewrite Hl. subst st0; simpl. lia. }
  split; [ exact Hrun | ].
  intros _ ->. destruct Hrun as [history [Hp Hl]].
  exists (prompt_after client text 1), history. split; assumption.
Qed.

(** The example of the claim: three iterations, round 1 good, round 2
    plain prose.  Three calls are made and the history has two entries. *)
Lemma refinement_stops_at_first_failure_witness :
  recommendedIterations sample500 = 3 /\
  exists final history,
    processPrompt client_two_good sample500 = (Done final history, 3%nat) /\
    length history = 2%nat.
Proof.
  split; [ vm_compute; reflexivity | ].
  refine (proj2 (refinement_stops_at_first_failure client_two_good sample500 2
                   _ _ _ _ _) _ eq_refl).
  - vm_compute; reflexivity.
  - vm_compute; reflexivity.
  - vm_compute. split; apply Nat.leb_le; reflexivity.
  - intros j Hj. assert (j = 1%nat) by lia. subst j. vm_compute; reflexivity.
  - vm_compute; reflexivity.
  - vm_compute; reflexivity.
Defined.

(** C10. The history of every run that ends in Done is numbered by
    position: its iteration numbers are 1, 2, ..., its length, so the
    initial entry is numbered 1, the k-th good refinement k + 1, and the
    number of every entry is its position counted from 1. *)
Theorem history_numbered_by_position : forall (client : Client)
    (text : jsstring) (final : value) (history : list HistoryEntry) (n : nat),
  processPrompt client text = (Done final history, n) ->
  map iteration history = map Z.of_nat (seq 1 (length history)) /\
  forall (k : nat) (entry : HistoryEntry),
    nth_error history k = Some entry -> iteration entry = Z.of_nat k + 1.
Proof.
  intros client text final history n Hrun.
  assert (Hn : numbered history).
  { unfold processPrompt in Hrun.
    destruct (validatePrompt text); [discriminate | ].
    destruct (negb (truthy (prompt (generateInitialPrompt (client O) text))));
      [discriminate | ].
    injection Hrun as _ Hh _. rewrite <- Hh.
    apply refineLoop_numbered; reflexivity. }
  split; [ exact Hn | ].
  intros k entry Hk. unfold numbered in Hn.
  assert (Hlt : (k < length history)%nat)
    by (apply nth_error_Some; congruence).
  pose proof (map_nth_error iteration k history Hk) as Hm.
  rewrite Hn in Hm.
  rewrite (map_nth_error Z.of_nat k (seq 1 (length history)) (d := (1 + k)%nat)) in Hm.
  - injection Hm as Hm. lia.
  - rewrite nth_error_nth' with (d := O) by (rewrite length_seq; exact Hlt).
    rewrite seq_nth by exact Hlt. reflexivity.
Qed.

(** The statement at a run of three calls: the history is numbered 1, 2. *)
Lemma history_numbered_by_position_witness :
  exists final history,
    processPrompt client_two_good sample500 = (Done final history, 3%nat) /\
    map iteration history = [1; 2].
Proof.
  destruct (processPrompt client_two_good sample500) as [[ | | final history] n] eqn:E;
    try (vm_compute in E; discriminate E).
  assert (Hn : n = 3%nat) by (vm_compute in E; congruence).
  assert (Hlen : length history = 2%nat)
    by (vm_compute in E; injection E as _ <- _; reflexivity).
  subst n. exists final, history. split; [reflexivity | ].
  rewrite (proj1 (history_numbered_by_position client_two_good sample500 _ _ _ E)).
  rewrite Hlen. reflexivity.
Defined.

(* ------------------------------------------------------------------ *)
(** ** The recovery tiers of the parser *)
(* ------------------------------------------------------------------ *)

Lemma every_hasOwnProperty_plain : forall m fields,
  obj_has m (lit "hasOwnProperty") = false ->
  every_hasOwnProperty (VObj m) fields = Some (forallb (obj_has m) fields).
Proof.
  intros m fields Hs. induction fields as [| f fields IH]; simpl.
  - reflexivity.
  - rewrite Hs. destruct (obj_has m f); simpl; [exact IH | reflexivity].
Qed.

Lemma validPrompt_object : forall m, validPrompt (VObj m) = Some (VObj (filled m)).
Proof. intros m. reflexivity. Qed.

Lemma obj_get_missing : forall m f, obj_has m f = false -> obj_get m f = VUndefined.
Proof.
  intros m f Hf. unfold obj_has, obj_get in *.
  destruct (obj_lookup m f); [discriminate | reflexivity].
Qed.

Lemma filled_get : forall m field,
  In field ["context"; "role"; "task"; "constraints"; "output"]%string ->
  obj_get (filled m) (lit field)
  = js_or (obj_get m (lit field)) (VStr (lit (placeholder field))).
Proof.
  intros m field Hin. simpl in Hin.
  destruct Hin as [<- | [<- | [<- | [<- | [<- | []]]]]]; reflexivity.
Qed.

(** The second tier on an object that lacks a required member and has no
    member named hasOwnProperty: every required member that is missing
    gets its placeholder, and the record is a usable prompt for both
    callers. *)
Lemma brace_extraction_fills_missing : forall (content jsonStr : jsstring)
    (m : object) (n : Z) (rawPrompt : jsstring),
  JSON_parse content = None ->
  braceSlice content = Some jsonStr ->
  JSON_parse jsonStr = Some (VObj m) ->
  obj_has m (lit "hasOwnProperty") = false ->
  forallb (obj_has m) requiredFields = false ->
  prompt (refinePrompt (Replies content) n) = VObj (filled m) /\
  prompt (generateInitialPrompt (Replies content) rawPrompt) = VObj (filled m) /\
  usable (refinePrompt (Replies content) n) = true /\
  forall field, In field ["context"; "role"; "task"; "constraints"; "output"]%string ->
    obj_has m (lit field) = false ->
    obj_get (filled m) (lit field) = VStr (lit (placeholder field)).
Proof.
  intros content jsonStr m n rawPrompt Hstrict Hslice Hparse Hshadow Hmissing.
  assert (Hb : bracePrompt content = Some (VObj (filled m), true)).
  { unfold bracePrompt. rewrite Hslice, Hparse.
    rewrite (every_hasOwnProperty_plain m requiredFields Hshadow), Hmissing.
    rewrite validPrompt_object. reflexivity. }
  unfold usable, refinePrompt, generateInitialPrompt, braceExtraction.
  rewrite Hstrict, Hb. cbn [prompt].
  split; [reflexivity | ]. split; [reflexivity | ]. split; [reflexivity | ].
  intros field Hin Hf.
  rewrite (filled_get m field Hin), (obj_get_missing m _ Hf). reflexivity.
Qed.

(** The statement at a reply with a trailing comma and two members. *)
Lemma brace_extraction_fills_missing_witness :
  prompt (refinePrompt (Replies (dq "Sure: {'context':'c2','role':'r',}")) 2)
  = VObj [(lit "context", VStr (lit "c2"));
          (lit "role", VStr (lit "r"));
          (lit "task", VStr (lit "Complete the requested task"));
          (lit "constraints", VStr (lit "Follow best practices"));
          (lit "output", VStr (lit "Provide appropriate output"))].
Proof.
  rewrite (proj1 (brace_extraction_fills_missing
                    (dq "Sure: {'context':'c2','role':'r',}")
                    (dq "{'context':'c2','role':'r'}")
                    [(lit "context", VStr (lit "c2")); (lit "role", VStr (lit "r"))]
                    2 (lit "raw prompt")
                    eq_refl eq_refl eq_refl eq_refl eq_refl)).
  reflexivity.
Defined.

(** C6 at a reply that defines hasOwnProperty.  Strict parsing fails, the
    text between the braces parses after the second tier's clean-up, and
    four of the five required members are missing; but the test for the
    members calls [hasOwnProperty] on the parsed object itself, which
    raises, and the tier is abandoned: [refinePrompt] returns a null
    prompt, and [generateInitialPrompt] goes on to the extraction by
    patterns, whose record has other texts than the placeholders. *)
Theorem brace_extraction_shadowed_check :
  JSON_parse shadowing_reply = None /\
  braceSlice shadowing_reply
    = Some (dq "{'hasOwnProperty': true, 'context': 'Review the code'}") /\
  JSON_parse (dq "{'hasOwnProperty': true, 'context': 'Review the code'}")
    = Some (VObj [(lit "hasOwnProperty", VBool true);
                  (lit "context", VStr (lit "Review the code"))]) /\
  bracePrompt shadowing_reply = None /\
  refinePrompt (Replies shadowing_reply) 2 = failure /\
  obj_get (match prompt (generateInitialPrompt (Replies shadowing_reply)
                           (lit "Review my code"))
           with VObj record => record | _ => [] end) (lit "role")
    = VStr (lit "Expert assistant specialized in the given domain").
Proof.
  repeat split; vm_compute; reflexivity.
Qed.

Lemma js_or_truthy : forall a b, truthy (js_or a b) = truthy a || truthy b.
Proof. intros a b. unfold js_or. destruct (truthy a) eqn:E; simpl; auto. Qed.

Lemma not_recovered_falsy : forall content field,
  recovered content field = false -> truthy (extractField content field) = false.
Proof.
  intros content field H. unfold recovered in H.
  destruct (extractField content field); try discriminate H. reflexivity.
Qed.

(** C4, as stated, fails: on the reply [context: hello], which neither
    strict parsing nor the brace extraction can read, the field context
    is recoverable by the patterns, and yet [refinePrompt] returns null. *)
Lemma refinement_has_no_third_tier :
  ~ (forall (content rawPrompt : jsstring) (n : Z),
       JSON_parse content = None ->
       bracePrompt content = None ->
       (prompt (generateInitialPrompt (Replies content) rawPrompt) = VNull
        <-> some_field_recovered content = false) /\
       (prompt (refinePrompt (Replies content) n) = VNull
        <-> some_field_recovered content = false)).
Proof.
  intro H.
  destruct (H (lit "context: hello") (lit "Say hello") 2) as [_ [Hnull _]];
    try (vm_compute; reflexivity).
  assert (E : some_field_recovered (lit "context: hello") = true)
    by (vm_compute; reflexivity).
  rewrite Hnull in E; [discriminate E | vm_compute; reflexivity].
Qed.

(** C4, amended.  When strict parsing and the brace extraction both fail,
    - [refinePrompt] returns a null prompt, recoverable fields or not: it
      has no third tier;
    - [generateInitialPrompt] never returns a null prompt: when one of
      context, role and task is recovered by the patterns (with a text
      that is not blank) it returns the record of the recovered fields,
      the others filled from the fixed templates (that of context quoting
      the raw prompt), and when no field at all is recovered it returns
      the basic record built from the raw prompt. *)
Theorem parser_tiers_by_function : forall (content rawPrompt : jsstring) (n : Z),
  JSON_parse content = None ->
  bracePrompt content = None ->
  refinePrompt (Replies content) n = failure /\
  usable (generateInitialPrompt (Replies content) rawPrompt) = true /\
  (truthy (extractField content "context")
   || truthy (extractField content "role")
   || truthy (extractField content "task") = true ->
   prompt (generateInitialPrompt (Replies content) rawPrompt)
   = extractedPrompt content rawPrompt) /\
  (some_field_recovered content = false ->
   prompt (generateInitialPrompt (Replies content) rawPrompt)
   = basicPrompt rawPrompt).
Proof.
  intros content rawPrompt n Hstrict Hbrace.
  assert (Hinit : generateInitialPrompt (Replies content) rawPrompt
                  = fieldExtraction content rawPrompt).
  { unfold generateInitialPrompt, braceExtraction.
    rewrite Hstrict, Hbrace. reflexivity. }
  split; [ apply (refine_unparsed_unusable content n Hstrict Hbrace) | ].
  rewrite Hinit. unfold usable, fieldExtraction.
  rewrite !js_or_truthy.
  split; [ | split ].
  - destruct (truthy (extractField content "context")
              || truthy (extractField content "role")
              || truthy (extractField content "task")); reflexivity.
  - intros H. rewrite H. reflexivity.
  - intros H. unfold some_field_recovered in H. simpl in H.
    repeat (apply orb_false_iff in H; destruct H as [? H]).
    rewrite !not_recovered_falsy by assumption. reflexivity.
Qed.

(** The amended statement at a reply in prose with a role in bold. *)
Lemma parser_tiers_by_function_witness :
  JSON_parse (lit "**Role**: a careful editor") = None /\
  refinePrompt (Replies (lit "**Role**: a careful editor")) 2 = failure /\
  obj_get (match prompt (generateInitialPrompt
                           (Replies (lit "**Role**: a careful editor"))
                           (lit "Review my code"))
           with VObj record => record | _ => [] end) (lit "role")
  = VStr (lit "a careful editor").
Proof.
  pose proof (parser_tiers_by_function (lit "**Role**: a careful editor")
                (lit "Review my code") 2 eq_refl eq_refl) as [Hr [_ [He _]]].
  split; [ reflexivity | ]. split; [ exact Hr | ].
  rewrite He; reflexivity.
Defined.

(** C7, as stated, fails: [comma_brace_record] is a strictly valid record
    of the five members, whose context is the text x,} ; the clean-up of
    the second tier takes the comma out of it, so that the record the
    tier reads has the context x} . *)
Lemma brace_extraction_changes_valid_record :
  ~ (forall (content : jsstring) (v : value),
       JSON_parse content = Some v ->
       is_five_field_record v = true ->
       bracePrompt content = Some (v, false)).
Proof.
  intro H.
  assert (H1 : JSON_parse comma_brace_record
               = Some (VObj [(lit "context", VStr (lit "x,}"));
                             (lit "role", VStr (lit "r"));
                             (lit "task", VStr (lit "t"));
                             (lit "constraints", VStr (lit "c"));
                             (lit "output", VStr (lit "o"))]))
    by (vm_compute; reflexivity).
  assert (H2 : bracePrompt comma_brace_record
               = Some (VObj [(lit "context", VStr (lit "x}"));
                             (lit "role", VStr (lit "r"));
                             (lit "task", VStr (lit "t"));
                             (lit "constraints", VStr (lit "c"));
                             (lit "output", VStr (lit "o"))], false))
    by (vm_compute; reflexivity).
  specialize (H _ _ H1 ltac:(vm_compute; reflexivity)).
  rewrite H2 in H. vm_compute in H. discriminate H.
Qed.

(* ------------------------------------------------------------------ *)
(** ** The machine of [JSON.parse] and the second tier on valid records *)
(* ------------------------------------------------------------------ *)

Lemma cu_eqb_eq : forall a b, cu_eqb a b = true <-> a = b.
Proof. intros; unfold cu_eqb; apply N.eqb_eq. Qed.

Lemma str_eqb_eq : forall a b, str_eqb a b = true <-> a = b.
Proof.
  induction a as [| x a IH]; destruct b as [| y b]; simpl; split; intro H;
    try reflexivity; try discriminate.
  - apply andb_true_iff in H as [H1 H2].
    apply cu_eqb_eq in H1. apply IH in H2. congruence.
  - injection H as -> ->. apply andb_true_iff. split.
    + apply cu_eqb_eq; reflexivity.
    + apply IH; reflexivity.
Qed.

Lemma run_app : forall a b st, run (a ++ b) st = run b (run a st).
Proof. intros; unfold run; apply fold_left_app. Qed.

Lemma run_none : forall s, run s None = None.
Proof. induction s; simpl; auto. Qed.

Lemma JSON_parse_run : forall text, JSON_parse text = json_finish (run text json_init).
Proof. reflexivity. Qed.

Lemma lex_idle_ws : forall c, is_json_ws c = true -> lex_idle c = Some (LIdle, []).
Proof. intros c H. unfold lex_idle. rewrite H. reflexivity. Qed.

Lemma init_ws : forall c, is_json_ws c = true -> json_step json_init c = json_init.
Proof. intros c H. unfold json_step, json_init. simpl. rewrite (lex_idle_ws c H). reflexivity. Qed.

Lemma closed_ws : forall v c, is_json_ws c = true -> json_step (closed v) c = closed v.
Proof. intros v c H. unfold json_step, closed. simpl. rewrite (lex_idle_ws c H). reflexivity. Qed.

Lemma run_ws_init : forall ws s,
  forallb is_json_ws ws = true -> run (ws ++ s) json_init = run s json_init.
Proof.
  induction ws as [| c ws IH]; intros s H; simpl in *; [reflexivity | ].
  apply andb_true_iff in H as [Hc Hws].
  change (run (ws ++ s) (json_step json_init c) = run s json_init).
  rewrite (init_ws c Hc). apply IH; assumption.
Qed.

Lemma run_ws_closed : forall ws v,
  forallb is_json_ws ws = true -> run ws (closed v) = closed v.
Proof.
  induction ws as [| c ws IH]; intros v H; simpl in *; [reflexivity | ].
  apply andb_true_iff in H as [Hc Hws].
  change (run ws (json_step (closed v) c) = closed v).
  rewrite (closed_ws v c Hc). apply IH; assumption.
Qed.

Lemma deliver_done : forall v stack v',
  deliver v stack = Some ([], MDone v') -> v' = v /\ stack = [].
Proof.
  intros v stack v' H. destruct stack as [| [es | m [k |]] rest]; simpl in H;
    try discriminate. injection H as ->. auto.
Qed.

Lemma parse_token_done : forall ps t v,
  parse_token ps t = Some ([], MDone v) ->
  t = TValue v \/ (t = TCloseObj /\ exists m, v = VObj m)
  \/ (t = TCloseArr /\ exists l, v = VArr l).
Proof.
  intros [stack mode] t v H. unfold parse_token in H.
  destruct mode; destruct t as [ | | | | | | tv ]; try discriminate H;
    try (apply deliver_done in H as [-> _]; left; reflexivity);
    try (destruct stack as [| [es | m k] rest]; try discriminate H;
         apply deliver_done in H as [-> _]; eauto 6);
    try (destruct tv; try discriminate H;
         destruct stack as [| [es | m k] rest]; discriminate H).
Qed.

Lemma finish_object : forall st m,
  json_finish st = Some (VObj m) -> st = closed (VObj m).
Proof.
  intros [[lx [stack mode]] |] m H; unfold json_finish in H; [ | discriminate].
  destruct lx; try discriminate H.
  - destruct stack; [ | discriminate H].
    destruct mode; try discriminate H. injection H as ->. reflexivity.
  - destruct (num_complete ph); [ | discriminate H].
    destruct (parse_token (stack, mode) (TValue (VNum (number_of a))))
      as [[stack' mode'] |] eqn:E; [ | discriminate H].
    destruct stack'; [ | discriminate H].
    destruct mode'; try discriminate H. inversion H; subst.
    apply parse_token_done in E as [E | [[E _] | [E _]]]; discriminate E.
Qed.

Ltac split_ifs_in H :=
  repeat match type of H with
         | context [if ?b then _ else _] =>
             let E := fresh "E" in destruct b eqn:E
         end.

(** What the scanner does between tokens: white space is skipped, a
    punctuation mark is a token, and anything else opens a string, a
    number or a literal. *)
Lemma lex_idle_cases : forall c lx toks,
  lex_idle c = Some (lx, toks) ->
  (is_json_ws c = true /\ lx = LIdle /\ toks = []) \/
  (is_json_ws c = false /\ lx = LIdle /\
   ((toks = [TOpenObj] /\ c = LBRACE) \/ (toks = [TCloseObj] /\ c = RBRACE) \/
    toks = [TOpenArr] \/ toks = [TCloseArr] \/ toks = [TColon] \/ toks = [TComma])) \/
  (is_json_ws c = false /\ lx <> LIdle /\ toks = []).
Proof.
  intros c lx toks H. unfold lex_idle in H.
  destruct (is_json_ws c) eqn:Ews.
  - injection H as <- <-. left. auto.
  - right. split_ifs_in H; try discriminate H; injection H as <- <-;
      try (right; repeat split; try reflexivity; discriminate);
      left; (split; [reflexivity | ]); (split; [reflexivity | ]).
    + left. split; [reflexivity | apply cu_eqb_eq; assumption].
    + right; left. split; [reflexivity | apply cu_eqb_eq; assumption].
    + tauto.
    + tauto.
    + tauto.
    + tauto.
Qed.

Lemma lex_step_scanner_tokens : forall lx c lx' toks,
  lex_step lx c = Some (lx', toks) -> forallb scanner_token toks = true.
Proof.
  intros lx c lx' toks H.
  destruct lx; simpl in H.
  - apply lex_idle_cases in H.
    destruct H as [[_ [_ ->]] | [[_ [_ H]] | [_ [_ ->]]]]; try reflexivity.
    destruct H as [[-> _] | [[-> _] | [-> | [-> | [-> | ->]]]]]; reflexivity.
  - split_ifs_in H; try discriminate H; injection H as <- <-; reflexivity.
  - split_ifs_in H; try discriminate H; injection H as <- <-; reflexivity.
  - destruct (hex_val c); [ | discriminate H].
    split_ifs_in H; injection H as <- <-; reflexivity.
  - destruct (num_continue ph a c) as [[ph' a'] |].
    + injection H as <- <-; reflexivity.
    + destruct (num_complete ph); [ | discriminate H].
      destruct (lex_idle c) as [[lx0 toks0] |] eqn:E; [ | discriminate H].
      injection H as <- <-. simpl.
      apply lex_idle_cases in E.
      destruct E as [[_ [_ ->]] | [[_ [_ H]] | [_ [_ ->]]]]; try reflexivity.
      destruct H as [[-> _] | [[-> _] | [-> | [-> | [-> | ->]]]]]; reflexivity.
  - destruct rest as [| x rest]; [discriminate H | ].
    destruct (cu_eqb c x); [ | discriminate H].
    destruct rest; injection H as <- <-; [ | reflexivity].
    destruct l; reflexivity.
Qed.

(** A closing brace is the only code unit at which the scanner emits the
    token of a closing brace. *)
Lemma lex_step_close_obj : forall lx c lx' toks,
  lex_step lx c = Some (lx', toks) -> In TCloseObj toks -> c = RBRACE.
Proof.
  intros lx c lx' toks H Hin.
  assert (Hidle : forall lx0 toks0, lex_idle c = Some (lx0, toks0) ->
                  In TCloseObj toks0 -> c = RBRACE).
  { intros lx0 toks0 E Hin0. apply lex_idle_cases in E.
    destruct E as [[_ [_ ->]] | [[_ [_ E]] | [_ [_ ->]]]];
      try (simpl in Hin0; contradiction).
    destruct E as [[-> _] | [[-> E] | [-> | [-> | [-> | ->]]]]];
      try exact E; simpl in Hin0; destruct Hin0 as [Hin0 | []]; discriminate Hin0. }
  destruct lx; simpl in H.
  - eapply Hidle; eassumption.
  - split_ifs_in H; try discriminate H; injection H as <- <-;
      simpl in Hin; try contradiction; destruct Hin as [Hin | []]; discriminate Hin.
  - split_ifs_in H; try discriminate H; injection H as <- <-;
      simpl in Hin; contradiction.
  - destruct (hex_val c); [ | discriminate H].
    split_ifs_in H; injection H as <- <-; simpl in Hin; contradiction.
  - destruct (num_continue ph a c) as [[ph' a'] |].
    + injection H as <- <-; simpl in Hin; contradiction.
    + destruct (num_complete ph); [ | discriminate H].
      destruct (lex_idle c) as [[lx0 toks0] |] eqn:E; [ | discriminate H].
      injection H as <- <-. simpl in Hin. destruct Hin as [Hin | Hin];
        [discriminate Hin | ].
      eapply Hidle; [reflexivity | exact Hin].
  - destruct rest as [| x rest]; [discriminate H | ].
    destruct (cu_eqb c x); [ | discriminate H].
    destruct rest; injection H as <- <-; simpl in Hin; try contradiction.
    destruct Hin as [Hin | []]; discriminate Hin.
Qed.

(** The scanner comes to rest without a token only on white space
    between tokens. *)
Lemma lex_step_idle_silent : forall lx c,
  lex_step lx c = Some (LIdle, []) -> lx = LIdle /\ is_json_ws c = true.
Proof.
  intros lx c H. destruct lx; simpl in H.
  - apply lex_idle_cases in H.
    destruct H as [[Hws _] | [[_ [_ H]] | [_ [H _]]]].
    + split; [reflexivity | exact Hws].
    + destruct H as [[H _] | [[H _] | [H | [H | [H | H]]]]]; discriminate H.
    + contradiction H; reflexivity.
  - split_ifs_in H; discriminate H.
  - split_ifs_in H; discriminate H.
  - destruct (hex_val c); [ | discriminate H]. split_ifs_in H; discriminate H.
  - destruct (num_continue ph a c) as [[ph' a'] |]; [discriminate H | ].
    destruct (num_complete ph); [ | discriminate H].
    destruct (lex_idle c) as [[lx0 toks0] |]; discriminate H.
  - destruct rest as [| x rest]; [discriminate H | ].
    destruct (cu_eqb c x); [ | discriminate H].
    destruct rest; discriminate H.
Qed.

(** In the middle of a string, a number or a literal the scanner either
    stays there or emits that scalar first. *)
Lemma lex_step_busy : forall lx c lx' toks,
  lx <> LIdle ->
  lex_step lx c = Some (lx', toks) ->
  (toks = [] /\ lx' <> LIdle) \/
  (exists v toks', toks = TValue v :: toks' /\ scanner_token (TValue v) = true).
Proof.
  intros lx c lx' toks Hbusy H. destruct lx; simpl in H.
  - contradiction Hbusy; reflexivity.
  - split_ifs_in H; try discriminate H; injection H as <- <-;
      try (left; (split; [reflexivity | discriminate])).
    right. eexists _, _. split; reflexivity.
  - split_ifs_in H; try discriminate H; injection H as <- <-;
      left; (split; [reflexivity | discriminate]).
  - destruct (hex_val c); [ | discriminate H].
    split_ifs_in H; injection H as <- <-; left; (split; [reflexivity | discriminate]).
  - destruct (num_continue ph a c) as [[ph' a'] |].
    + injection H as <- <-. left; (split; [reflexivity | discriminate]).
    + destruct (num_complete ph); [ | discriminate H].
      destruct (lex_idle c) as [[lx0 toks0] |]; [ | discriminate H].
      injection H as <- <-. right. eexists _, _. split; reflexivity.
  - destruct rest as [| x rest]; [discriminate H | ].
    destruct (cu_eqb c x); [ | discriminate H].
    destruct rest; injection H as <- <-.
    + right. eexists _, _. split; [reflexivity | destruct l; reflexivity].
    + left; (split; [reflexivity | discriminate]).
Qed.

Lemma parse_tokens_closed_object : forall toks ps m,
  parse_tokens ps toks = Some ([], MDone (VObj m)) ->
  forallb scanner_token toks = true ->
  (toks = [] /\ ps = ([], MDone (VObj m))) \/ In TCloseObj toks.
Proof.
  induction toks as [| t toks IH]; intros ps m H Hs; simpl in H.
  - injection H as ->. left; auto.
  - right. simpl in Hs. apply andb_true_iff in Hs as [Ht Hs].
    destruct (parse_token ps t) as [ps' |] eqn:E; [ | discriminate H].
    destruct (IH ps' m H Hs) as [[-> ->] | Hin].
    + apply parse_token_done in E as [-> | [[-> _] | [_ [l Hl]]]].
      * discriminate Ht.
      * left; reflexivity.
      * discriminate Hl.
    + right; exact Hin.
Qed.

(** The machine reaches the state of a complete object by white space
    after the object, or at a closing brace. *)
Lemma step_to_closed_object : forall st c m,
  json_step st c = closed (VObj m) ->
  (st = closed (VObj m) /\ is_json_ws c = true) \/ c = RBRACE.
Proof.
  intros [[lx ps] |] c m H; simpl in H; [ | discriminate H].
  destruct (lex_step lx c) as [[lx' toks] |] eqn:El; [ | discriminate H].
  destruct (parse_tokens ps toks) as [ps' |] eqn:Ep; [ | discriminate H].
  unfold closed in H. injection H as -> ->.
  destruct (parse_tokens_closed_object toks ps m Ep
              (lex_step_scanner_tokens lx c LIdle toks El)) as [[-> ->] | Hin].
  - apply lex_step_idle_silent in El as [-> Hws]. left; auto.
  - right. eapply lex_step_close_obj; eassumption.
Qed.

(** A text whose value is an object is the text up to a closing brace,
    followed by white space. *)
Lemma closed_decompose : forall text m,
  run text json_init = closed (VObj m) ->
  exists pre ws,
    text = pre ++ RBRACE :: ws /\
    forallb is_json_ws ws = true /\
    run (pre ++ [RBRACE]) json_init = closed (VObj m).
Proof.
  induction text as [| c text IH] using rev_ind; intros m H.
  - discriminate H.
  - rewrite run_app in H. simpl in H.
    destruct (step_to_closed_object _ _ _ H) as [[Hst Hws] | ->].
    + destruct (IH m Hst) as [pre [ws [-> [Hw Hrun]]]].
      exists pre, (ws ++ [c]). split; [ | split ].
      * rewrite <- app_assoc. reflexivity.
      * rewrite forallb_app, Hw. simpl. rewrite Hws. reflexivity.
      * exact Hrun.
    + exists text, []. split; [reflexivity | split; [reflexivity | ] ].
      rewrite run_app. exact H.
Qed.

Lemma bottom_cons : forall f stack,
  stack <> [] -> bottom (f :: stack) = bottom stack.
Proof. intros f [| g stack] H; [contradiction | reflexivity]. Qed.

Lemma bottom_cons_some : forall stack f, bottom (f :: stack) <> None.
Proof.
  induction stack as [| g stack IH]; intros f; [discriminate | ].
  rewrite bottom_cons by discriminate. apply IH.
Qed.

Lemma deliver_non_object : forall v stack ps,
  deliver v stack = Some ps ->
  (stack = [] -> match v with VObj _ => False | _ => True end) ->
  (stack <> [] -> exists es, bottom stack = Some (FArr es)) ->
  pstate_non_object ps.
Proof.
  intros v stack ps H Hv Hb. unfold pstate_non_object.
  destruct stack as [| [es | m [k |]] rest]; simpl in H; try discriminate H;
    injection H as <-; simpl fst; simpl snd.
  - simpl. specialize (Hv eq_refl). destruct v; auto.
  - destruct (Hb ltac:(discriminate)) as [es' Hb'].
    destruct rest as [| g rest].
    + simpl in *. auto.
    + rewrite bottom_cons in * by discriminate. rewrite Hb'. exact I.
  - destruct (Hb ltac:(discriminate)) as [es' Hb'].
    destruct rest as [| g rest].
    + simpl in *. discriminate Hb'.
    + rewrite bottom_cons in * by discriminate. rewrite Hb'. exact I.
Qed.

Lemma pstate_non_object_inv : forall stack mode,
  pstate_non_object (stack, mode) ->
  (stack = [] /\ exists v, mode = MDone v /\ match v with VObj _ => False | _ => True end)
  \/ (stack <> [] /\ exists es, bottom stack = Some (FArr es)).
Proof.
  intros stack mode H. unfold pstate_non_object in H. simpl in H.
  destruct stack as [| f stack].
  - left. simpl in H. split; [reflexivity | ].
    destruct mode; try contradiction. exists v. split; [reflexivity | exact H].
  - right. split; [discriminate | ].
    pose proof (bottom_cons_some stack f) as Hb.
    destruct (bottom (f :: stack)) as [[es | m k] |]; try contradiction.
    exists es; reflexivity.
Qed.

(** A token of the scanner keeps the parser among the states whose value
    cannot be an object. *)
Lemma parse_token_non_object : forall ps t ps',
  pstate_non_object ps ->
  scanner_token t = true ->
  parse_token ps t = Some ps' ->
  pstate_non_object ps'.
Proof.
  intros [stack mode] t ps' Hn Ht H.
  apply pstate_non_object_inv in Hn as [[-> [v [-> Hv]]] | [Hne [es Hb]]].
  - discriminate H.
  - assert (Hpush : forall f, pstate_non_object (f :: stack, MObjFirst)
                              /\ pstate_non_object (f :: stack, MArrFirst)
                              /\ pstate_non_object (f :: stack, MColon)).
    { intros f. unfold pstate_non_object. simpl fst.
      rewrite bottom_cons by exact Hne. rewrite Hb. auto. }
    assert (Hsame : forall mode', pstate_non_object (stack, mode')).
    { intros mode'. unfold pstate_non_object. simpl fst. rewrite Hb. exact I. }
    assert (Hdel : forall v ps0, deliver v stack = Some ps0 -> pstate_non_object ps0).
    { intros v ps0 Hd. eapply deliver_non_object; eauto. intros; contradiction. }
    assert (Hpop : forall f rest v ps0, stack = f :: rest ->
               (rest = [] -> match v with VObj _ => False | _ => True end) ->
               deliver v rest = Some ps0 -> pstate_non_object ps0).
    { intros f rest v ps0 -> Hv Hd. eapply deliver_non_object; eauto.
      intros Hr. exists es. rewrite bottom_cons in Hb by exact Hr. exact Hb. }
    unfold parse_token in H.
    destruct mode; destruct t as [ | | | | | | tv ]; try discriminate H;
      try (injection H as <-; first [apply Hpush | apply Hsame]);
      try (eapply Hdel; eassumption);
      try (destruct tv; try discriminate H);
      try (destruct stack as [| [es0 | m0 k0] rest] eqn:Es; try discriminate H;
           try (injection H as <-;
                first [ apply Hsame
                      | unfold pstate_non_object; simpl fst;
                        destruct rest;
                        [ simpl in Hb |- *; (discriminate Hb || exact I)
                        | rewrite bottom_cons in Hb |- * by discriminate;
                          rewrite Hb; exact I ] ]);
           try (eapply Hpop; [reflexivity | | eassumption];
                intros ->; simpl in Hb; (discriminate Hb || exact I))).
Qed.

Lemma parse_tokens_non_object : forall toks ps ps',
  pstate_non_object ps ->
  forallb scanner_token toks = true ->
  parse_tokens ps toks = Some ps' ->
  pstate_non_object ps'.
Proof.
  induction toks as [| t toks IH]; intros ps ps' Hn Hs H; simpl in H.
  - injection H as <-. exact Hn.
  - simpl in Hs. apply andb_true_iff in Hs as [Ht Hs].
    destruct (parse_token ps t) as [ps1 |] eqn:E; [ | discriminate H].
    eapply IH; [ | exact Hs | exact H].
    eapply parse_token_non_object; eassumption.
Qed.

(** Once the value of the text cannot be an object, it never can. *)
Lemma step_non_object : forall st c, non_object st -> non_object (json_step st c).
Proof.
  intros [[lx ps] |] c Hn; simpl; [ | exact I].
  destruct (lex_step lx c) as [[lx' toks] |] eqn:El; [ | exact I].
  pose proof (lex_step_scanner_tokens lx c lx' toks El) as Hs.
  destruct (parse_tokens ps toks) as [ps' |] eqn:Ep; [ | exact I].
  simpl. destruct Hn as [Hn | [-> Hbusy]].
  - left. eapply parse_tokens_non_object; eassumption.
  - destruct (lex_step_busy lx c lx' toks Hbusy El)
      as [[-> Hbusy'] | [v [toks' [-> Hv]]]].
    + simpl in Ep. injection Ep as <-. right; auto.
    + left. simpl in Ep.
      change (scanner_token (TValue v) && forallb scanner_token toks' = true) in Hs.
      apply andb_true_iff in Hs as [_ Hs].
      eapply parse_tokens_non_object; [ | exact Hs | exact Ep].
      unfold pstate_non_object. simpl. destruct v; try exact I; discriminate Hv.
Qed.

Lemma run_non_object : forall text st, non_object st -> non_object (run text st).
Proof.
  induction text as [| c text IH]; intros st Hn; simpl; [exact Hn | ].
  apply IH. apply step_non_object. exact Hn.
Qed.

(** A text that does not open with a brace has no object for value. *)
Lemma first_unit_non_object : forall c,
  is_json_ws c = false -> c <> LBRACE -> non_object (json_step json_init c).
Proof.
  intros c Hws Hc. unfold json_step, json_init. simpl lex_step.
  destruct (lex_idle c) as [[lx toks] |] eqn:E; [ | exact I].
  apply lex_idle_cases in E.
  destruct E as [[E _] | [[_ [-> E]] | [_ [Hbusy ->]]]].
  - congruence.
  - destruct E as [[_ E] | [[-> _] | [-> | [-> | [-> | ->]]]]]; simpl;
      try exact I; try contradiction.
    left. unfold pstate_non_object. simpl. exact I.
  - simpl. right; auto.
Qed.

Lemma closed_object_not_non_object : forall m, ~ non_object (closed (VObj m)).
Proof.
  intros m [H | [H _]].
  - unfold pstate_non_object in H. simpl in H. exact H.
  - discriminate H.
Qed.

(** A text whose value is an object opens, after white space, with a
    brace. *)
Lemma object_opens_with_brace : forall c text m,
  is_json_ws c = false ->
  run (c :: text) json_init = closed (VObj m) ->
  c = LBRACE.
Proof.
  intros c text m Hws H.
  destruct (N.eq_dec c LBRACE) as [E | E]; [exact E | exfalso].
  apply (closed_object_not_non_object m). rewrite <- H.
  simpl. apply run_non_object. apply first_unit_non_object; assumption.
Qed.

Lemma leading_ws : forall text : jsstring,
  exists ws core,
    text = ws ++ core /\ forallb is_json_ws ws = true /\
    match core with [] => True | c :: _ => is_json_ws c = false end.
Proof.
  induction text as [| c text [ws [core [-> [Hw Hc]]]]].
  - exists [], []. auto.
  - destruct (is_json_ws c) eqn:E.
    + exists (c :: ws), core. simpl. rewrite E, Hw. auto.
    + exists [], (c :: ws ++ core). simpl. auto.
Qed.

(** The shape of a text whose value is an object: white space, a text
    from an opening brace to a closing brace with the same value, and
    white space. *)
Lemma object_text_shape : forall text m,
  JSON_parse text = Some (VObj m) ->
  exists ws1 mid ws2,
    text = ws1 ++ (LBRACE :: mid ++ [RBRACE]) ++ ws2 /\
    forallb is_json_ws ws1 = true /\
    forallb is_json_ws ws2 = true /\
    JSON_parse (LBRACE :: mid ++ [RBRACE]) = Some (VObj m).
Proof.
  intros text m H. rewrite JSON_parse_run in H. apply finish_object in H.
  destruct (closed_decompose text m H) as [pre [ws2 [-> [Hw2 Hrun]]]].
  destruct (leading_ws (pre ++ [RBRACE])) as [ws1 [core [Hsplit [Hw1 Hcore]]]].
  rewrite Hsplit in Hrun. rewrite run_ws_init in Hrun by exact Hw1.
  destruct core as [| c core].
  - rewrite app_nil_r in Hsplit. rewrite <- Hsplit in Hw1.
    rewrite forallb_app in Hw1. apply andb_true_iff in Hw1 as [_ Hw1].
    vm_compute in Hw1. discriminate Hw1.
  - pose proof (object_opens_with_brace c core m Hcore Hrun) as ->.
    destruct core as [| x core] using rev_ind.
    + assert (Hl : last (pre ++ [RBRACE]) 0%N = last (ws1 ++ [LBRACE]) 0%N)
        by (rewrite Hsplit; reflexivity).
      rewrite !last_last in Hl. discriminate Hl.
    + clear IHcore.
      assert (Hx : x = RBRACE).
      { assert (Hl : last (pre ++ [RBRACE]) 0%N
                     = last ((ws1 ++ LBRACE :: core) ++ [x]) 0%N).
        { rewrite Hsplit. rewrite <- app_assoc. reflexivity. }
        rewrite !last_last in Hl. symmetry; exact Hl. }
      subst x.
      exists ws1, core, ws2. split; [ | split; [exact Hw1 | split; [exact Hw2 | ]]].
      * change (pre ++ RBRACE :: ws2) with (pre ++ [RBRACE] ++ ws2).
        rewrite app_assoc, Hsplit. rewrite <- app_assoc. reflexivity.
      * rewrite JSON_parse_run. rewrite Hrun. reflexivity.
Qed.

Lemma indexOf_from_first : forall pre rest c i,
  forallb (fun x => negb (cu_eqb x c)) pre = true ->
  indexOf_from i (pre ++ c :: rest) c = i + Z.of_nat (length pre).
Proof.
  induction pre as [| x pre IH]; intros rest c i H; simpl in *.
  - assert (E : cu_eqb c c = true) by (apply cu_eqb_eq; reflexivity).
    rewrite E. lia.
  - apply andb_true_iff in H as [Hx H]. apply negb_true_iff in Hx.
    rewrite Hx, IH by exact H. lia.
Qed.

Lemma lastIndexOf_from_absent : forall s c i found,
  forallb (fun x => negb (cu_eqb x c)) s = true ->
  lastIndexOf_from i found s c = found.
Proof.
  induction s as [| x s IH]; intros c i found H; simpl in *; [reflexivity | ].
  apply andb_true_iff in H as [Hx H]. apply negb_true_iff in Hx.
  rewrite Hx. apply IH; exact H.
Qed.

Lemma lastIndexOf_from_last : forall pre rest c i found,
  forallb (fun x => negb (cu_eqb x c)) rest = true ->
  lastIndexOf_from i found (pre ++ c :: rest) c = i + Z.of_nat (length pre).
Proof.
  induction pre as [| x pre IH]; intros rest c i found H; simpl app.
  - simpl lastIndexOf_from.
    assert (E : cu_eqb c c = true) by (apply cu_eqb_eq; reflexivity).
    rewrite E, lastIndexOf_from_absent by exact H. simpl; lia.
  - simpl lastIndexOf_from. rewrite IH by exact H. simpl length. lia.
Qed.

Lemma ws_without : forall (c : codeunit) ws,
  is_json_ws c = false ->
  forallb is_json_ws ws = true ->
  forallb (fun x => negb (cu_eqb x c)) ws = true.
Proof.
  intros c ws Hc H. induction ws as [| x ws IH]; simpl in *; [reflexivity | ].
  apply andb_true_iff in H as [Hx H]. rewrite IH by exact H.
  rewrite andb_true_r. apply negb_true_iff.
  destruct (cu_eqb x c) eqn:E; [ | reflexivity].
  apply cu_eqb_eq in E. congruence.
Qed.

Lemma slice_middle : forall a core b : jsstring,
  slice (a ++ core ++ b) (Z.of_nat (length a))
        (Z.of_nat (length a) + Z.of_nat (length core)) = core.
Proof.
  intros a core b. unfold slice, js_length.
  rewrite !length_app.
  assert (E1 : Z.ltb (Z.of_nat (length a)) 0 = false) by (apply Z.ltb_ge; lia).
  assert (E2 : Z.ltb (Z.of_nat (length a) + Z.of_nat (length core)) 0 = false)
    by (apply Z.ltb_ge; lia).
  rewrite E1, E2.
  rewrite Z.min_l by lia. rewrite Z.min_l by lia.
  replace (Z.to_nat (Z.max (Z.of_nat (length a) + Z.of_nat (length core)
                            - Z.of_nat (length a)) 0)) with (length core) by lia.
  rewrite Nat2Z.id.
  rewrite skipn_app, skipn_all, Nat.sub_diag. simpl.
  rewrite firstn_app, firstn_all, Nat.sub_diag. simpl. apply app_nil_r.
Qed.

(** The text the second tier cuts out of an object text in white space. *)
Lemma brace_slice_of_object_text : forall ws1 mid ws2,
  forallb is_json_ws ws1 = true ->
  forallb is_json_ws ws2 = true ->
  braceSlice (ws1 ++ (LBRACE :: mid ++ [RBRACE]) ++ ws2)
  = Some (stripTrailingCommas (LBRACE :: mid ++ [RBRACE])).
Proof.
  intros ws1 mid ws2 H1 H2. unfold braceSlice, indexOf, lastIndexOf.
  set (core := LBRACE :: mid ++ [RBRACE]).
  assert (Efirst : indexOf_from 0 (ws1 ++ core ++ ws2) LBRACE
                   = Z.of_nat (length ws1)).
  { unfold core. simpl app. rewrite indexOf_from_first; [lia | ].
    apply ws_without; [reflexivity | exact H1]. }
  assert (Elast : lastIndexOf_from 0 (-1) (ws1 ++ core ++ ws2) RBRACE
                  = Z.of_nat (length ws1) + Z.of_nat (length core) - 1).
  { unfold core.
    replace (ws1 ++ (LBRACE :: mid ++ [RBRACE]) ++ ws2)
      with ((ws1 ++ LBRACE :: mid) ++ RBRACE :: ws2)
      by (rewrite <- !app_assoc; simpl; rewrite <- app_assoc; reflexivity).
    rewrite lastIndexOf_from_last
      by (apply ws_without; [reflexivity | exact H2]).
    rewrite length_app. simpl length. rewrite length_app. simpl length. lia. }
  rewrite Efirst, Elast.
  assert (Hlen : (2 <= length core)%nat).
  { unfold core. simpl length. rewrite length_app. simpl. lia. }
  assert (E1 : Z.eqb (Z.of_nat (length ws1)) (-1) = false)
    by (apply Z.eqb_neq; lia).
  assert (E2 : Z.eqb (Z.of_nat (length ws1) + Z.of_nat (length core) - 1) (-1)
               = false)
    by (apply Z.eqb_neq; lia).
  assert (E3 : Z.gtb (Z.of_nat (length ws1) + Z.of_nat (length core) - 1)
                     (Z.of_nat (length ws1)) = true)
    by (apply Z.gtb_lt; lia).
  rewrite E1, E2, E3. simpl andb. cbv iota.
  replace (Z.of_nat (length ws1) + Z.of_nat (length core) - 1 + 1)
    with (Z.of_nat (length ws1) + Z.of_nat (length core)) by lia.
  rewrite slice_middle. reflexivity.
Qed.

(** Regular expressions: a text without a match is left as it is by the
    replacement of all matches. *)
Lemma rx_search_none : forall ci r c s,
  rx_search ci r (c :: s) = None ->
  match_here ci r (c :: s) = None /\ rx_search ci r s = None.
Proof.
  intros ci r c s H. simpl in H.
  destruct (match_here ci r (c :: s)); [discriminate H | auto].
Qed.

Lemma replace_all_no_match : forall ci r s,
  rx_test ci r s = false -> replace_all_g1 ci r 0 s = s.
Proof.
  intros ci r s H. unfold rx_test in H.
  destruct (rx_search ci r s) eqn:E; [discriminate H | clear H].
  induction s as [| c s IH].
  - simpl in *. destruct (match_here ci r []); [discriminate E | reflexivity].
  - apply rx_search_none in E as [E1 E2].
    simpl replace_all_g1. rewrite E1. rewrite IH by exact E2. reflexivity.
Qed.

Lemma star_bt_found : forall p s k,
  k s <> None -> star_bt p s k <> None.
Proof.
  intros p [| c s] k H; simpl; [exact H | ].
  destruct (p c); [ | exact H].
  destruct (star_bt p s k); [discriminate | exact H].
Qed.

Lemma star_bt_extend : forall p (u : jsstring) s k k',
  (forall s', k s' <> None -> k' (s' ++ u) <> None) ->
  star_bt p s k <> None -> star_bt p (s ++ u) k' <> None.
Proof.
  intros p u s k k' Hk. induction s as [| c s IH]; simpl; intros H.
  - apply star_bt_found. apply (Hk [] H).
  - destruct (p c).
    + destruct (star_bt p s k) eqn:E.
      * destruct (star_bt p (s ++ u) k') eqn:E'; [discriminate | ].
        exfalso. apply IH; [discriminate | reflexivity].
      * destruct (star_bt p (s ++ u) k'); [discriminate | ].
        apply (Hk (c :: s) H).
    + apply (Hk (c :: s) H).
Qed.

(** A match of the trailing-comma pattern is still one when text is
    added after it. *)
Lemma comma_match_extend : forall s u,
  match_here false trailingCommaPattern s <> None ->
  match_here false trailingCommaPattern (s ++ u) <> None.
Proof.
  intros s u H.
  destruct s as [| c s]; [contradiction H; reflexivity | ].
  unfold match_here, trailingCommaPattern in *. simpl in H |- *.
  destruct (cu_eqb c COMMA); [ | exact H].
  revert H. apply star_bt_extend.
  intros [| y s'] Hy; [contradiction Hy; reflexivity | ].
  simpl in Hy |- *. destruct (is_closer y); [discriminate | exact Hy].
Qed.

Lemma comma_search_extend : forall s u,
  rx_search false trailingCommaPattern s <> None ->
  rx_search false trailingCommaPattern (s ++ u) <> None.
Proof.
  induction s as [| c s IH]; intros u H.
  - simpl in H. contradiction H. reflexivity.
  - simpl app. simpl rx_search in H |- *.
    destruct (match_here false trailingCommaPattern (c :: s)) eqn:E.
    + pose proof (comma_match_extend (c :: s) u) as Hm. rewrite E in Hm.
      simpl app in Hm.
      destruct (match_here false trailingCommaPattern (c :: s ++ u));
        [discriminate | ].
      exfalso. apply Hm; [discriminate | reflexivity].
    + destruct (match_here false trailingCommaPattern (c :: s ++ u));
        [discriminate | ].
      apply IH. exact H.
Qed.

Lemma rx_search_suffix : forall ci r a s,
  rx_search ci r (a ++ s) = None -> rx_search ci r s = None.
Proof.
  induction a as [| c a IH]; intros s H; [exact H | ].
  simpl app in H. apply rx_search_none in H as [_ H]. apply IH; exact H.
Qed.

Lemma comma_test_inside : forall a s u,
  rx_test false trailingCommaPattern (a ++ s ++ u) = false ->
  rx_test false trailingCommaPattern s = false.
Proof.
  intros a s u H. unfold rx_test in *.
  destruct (rx_search false trailingCommaPattern (a ++ s ++ u)) eqn:E;
    [discriminate H | ].
  apply rx_search_suffix in E.
  destruct (rx_search false trailingCommaPattern s) eqn:Es; [ | reflexivity].
  exfalso. apply (comma_search_extend s u); [rewrite Es; discriminate | exact E].
Qed.

Lemma keys_within : forall (m : object) (allowed : list jsstring) k,
  forallb (fun kv => existsb (str_eqb (fst kv)) allowed) m = true ->
  existsb (str_eqb k) allowed = false ->
  obj_has m k = false.
Proof.
  intros m allowed k Hm Hk. unfold obj_has.
  induction m as [| [k' v] m IH]; simpl in *; [reflexivity | ].
  apply andb_true_iff in Hm as [Hk' Hm].
  destruct (str_eqb k' k) eqn:E.
  - apply str_eqb_eq in E. subst k'. congruence.
  - apply IH; exact Hm.
Qed.

(** On a record of the five members the test of the second tier for the
    required members succeeds. *)
Lemma five_field_record_check : forall v,
  is_five_field_record v = true ->
  every_hasOwnProperty v requiredFields = Some true.
Proof.
  intros v H. destruct v; try discriminate H.
  unfold is_five_field_record in H.
  apply andb_true_iff in H as [Hall Hkeys].
  rewrite every_hasOwnProperty_plain.
  - rewrite Hall. reflexivity.
  - apply keys_within with (allowed := requiredFields);
      [exact Hkeys | reflexivity].
Qed.

(** C7, amended.  For every text that is a strictly valid record of the
    five members, and in which no comma is followed, white space apart,
    by a closing brace or bracket (in strict JSON such a comma can only
    stand inside a string), the second tier reads the same record as
    strict parsing, and returns it as it is. *)
Theorem brace_extraction_agrees_on_clean_records : forall (content : jsstring)
    (v : value),
  JSON_parse content = Some v ->
  is_five_field_record v = true ->
  rx_test false trailingCommaPattern content = false ->
  bracePrompt content = Some (v, false).
Proof.
  intros content v Hparse Hrecord Hclean.
  destruct v as [ | | | | | | m]; try discriminate Hrecord.
  destruct (object_text_shape content m Hparse)
    as [ws1 [mid [ws2 [-> [Hw1 [Hw2 Hcore]]]]]].
  unfold bracePrompt.
  rewrite (brace_slice_of_object_text ws1 mid ws2 Hw1 Hw2).
  unfold stripTrailingCommas.
  rewrite replace_all_no_match by (eapply comma_test_inside; exact Hclean).
  rewrite Hcore, (five_field_record_check (VObj m) Hrecord). reflexivity.
Qed.

(** The amended statement at a record with white space around it. *)
Lemma brace_extraction_agrees_on_clean_records_witness :
  exists v,
    JSON_parse plain_record = Some v /\
    is_five_field_record v = true /\
    bracePrompt plain_record = Some (v, false).
Proof.
  destruct (JSON_parse plain_record) as [v |] eqn:E;
    [ | vm_compute in E; discriminate E ].
  assert (Hr : is_five_field_record v = true)
    by (vm_compute in E; injection E as <-; vm_compute; reflexivity).
  exists v. split; [reflexivity | split; [exact Hr | ] ].
  apply (brace_extraction_agrees_on_clean_records plain_record v E Hr).
  vm_compute; reflexivity.
Defined.

(* ------------------------------------------------------------------ *)
(** ** More on the complexity analyzer *)
(* ------------------------------------------------------------------ *)

Lemma mapScore_iterations : forall s, 1 <= snd (mapScore s) <= 5.
Proof.
  intros s. unfold mapScore.
  repeat match goal with |- context [if ?b then _ else _] => destruct b end;
    simpl; lia.
Qed.

Lemma analyze_tier : forall rawPrompt,
  difficulty (analyzePromptComplexity rawPrompt) = fst (mapScore (totalScore rawPrompt)) /\
  iterations (analyzePromptComplexity rawPrompt) = snd (mapScore (totalScore rawPrompt)).
Proof.
  intros; unfold analyzePromptComplexity.
  destruct (mapScore (totalScore rawPrompt)); split; reflexivity.
Qed.

Lemma mkFactors_sum : forall a b c d e f,
  a + b + c + d + e + f
  = length_score (mkFactors a b c d e f) + technical_keywords (mkFactors a b c d e f)
    + domain_keywords (mkFactors a b c d e f) + structural_cues (mkFactors a b c d e f)
    + logical_connectors (mkFactors a b c d e f) + punctuation_density (mkFactors a b c d e f).
Proof. intros; reflexivity. Qed.

Lemma mkFactors_in_schema : forall a b c d e f,
  0 <= a <= 4 -> 0 <= b <= 4 -> 0 <= c <= 3 -> 0 <= d <= 4 -> 0 <= e <= 3 ->
  0 <= f <= 2 -> factors_in_schema (mkFactors a b c d e f).
Proof. intros; unfold factors_in_schema; simpl; repeat split; lia. Qed.

Lemma factors_sum : forall rawPrompt,
  totalScore rawPrompt
  = length_score (factors rawPrompt) + technical_keywords (factors rawPrompt)
    + domain_keywords (factors rawPrompt) + structural_cues (factors rawPrompt)
    + logical_connectors (factors rawPrompt) + punctuation_density (factors rawPrompt).
Proof. intros; unfold totalScore, factors; apply mkFactors_sum. Qed.

(** The result of the analyzer always fits the schemas written for it:
    the six sub-scores lie within the bounds of ComplexityFactorsSchema,
    they add up to the score, and the score is at most 20 and the
    iteration count between 1 and 5 as ComplexityAnalysisSchema has it. *)
Theorem analyzer_result_fits_schema : forall rawPrompt : jsstring,
  let r := analyzePromptComplexity rawPrompt in
  let f := factors rawPrompt in
  factors_in_schema f /\
  score r = length_score f + technical_keywords f + domain_keywords f
            + structural_cues f + logical_connectors f + punctuation_density f /\
  0 <= score r <= 20 /\
  1 <= iterations r <= 5.
Proof.
  intros rawPrompt r f; subst r f.
  destruct (analyze_fields rawPrompt) as [Hs _].
  destruct (analyze_tier rawPrompt) as [_ Hi].
  rewrite Hs, Hi.
  pose proof (mapScore_iterations (totalScore rawPrompt)).
  pose proof (totalScore_range rawPrompt).
  split; [ | split; [apply factors_sum | split; assumption]].
  pose proof (lengthScore_range rawPrompt).
  pose proof (specialScore_range rawPrompt).
  pose proof (structuralHits_range rawPrompt).
  pose proof (hits_nonneg (toLowerCase rawPrompt) techKeywords).
  pose proof (hits_nonneg (toLowerCase rawPrompt) domainKeywords).
  pose proof (hits_nonneg (toLowerCase rawPrompt) logicWords).
  unfold factors, techHits, domainHits, logicHits.
  apply mkFactors_in_schema; lia.
Qed.

Lemma mapScore_rank : forall s, snd (mapScore s) = rank (fst (mapScore s)).
Proof.
  intros s. unfold mapScore.
  repeat match goal with |- context [if ?b then _ else _] => destruct b end;
    reflexivity.
Qed.

Lemma mapScore_monotone : forall a b,
  a <= b -> snd (mapScore a) <= snd (mapScore b).
Proof.
  intros a b Hab. unfold mapScore.
  repeat match goal with
         | |- context [?x <=? ?y] => destruct (Z.leb_spec x y)
         end; simpl; lia.
Qed.

(** A text that scores at least as high as another never gets a lower
    difficulty or fewer iterations; and the iteration count is the rank
    of the difficulty among the five. *)
Theorem analyzer_tiers_follow_score : forall a b : jsstring,
  score (analyzePromptComplexity a) <= score (analyzePromptComplexity b) ->
  iterations (analyzePromptComplexity a) <= iterations (analyzePromptComplexity b) /\
  rank (difficulty (analyzePromptComplexity a))
  <= rank (difficulty (analyzePromptComplexity b)) /\
  iterations (analyzePromptComplexity a) = rank (difficulty (analyzePromptComplexity a)).
Proof.
  intros a b Hs.
  destruct (analyze_fields a) as [Ha _]. destruct (analyze_fields b) as [Hb _].
  destruct (analyze_tier a) as [Hda Hia]. destruct (analyze_tier b) as [Hdb Hib].
  rewrite Ha, Hb in Hs. rewrite Hda, Hdb, Hia, Hib.
  pose proof (mapScore_monotone _ _ Hs).
  rewrite <- !mapScore_rank. lia.
Qed.

(** The statement at a short text and the 500-word sample. *)
Lemma analyzer_tiers_follow_score_witness :
  iterations (analyzePromptComplexity (lit "Write a haiku"))
  <= iterations (analyzePromptComplexity sample500).
Proof.
  refine (proj1 (analyzer_tiers_follow_score (lit "Write a haiku") sample500 _)).
  vm_compute. discriminate.
Defined.

(** *** A longer text never scores lower *)

Lemma space_runs_nonneg : forall s b, 0 <= space_runs b s.
Proof.
  induction s as [| c s IH]; intros b; cbn [space_runs]; [lia | ].
  destruct (is_space c); [ | apply IH].
  pose proof (IH true). destruct b; lia.
Qed.

Lemma space_runs_flag : forall s,
  space_runs true s <= space_runs false s <= 1 + space_runs true s.
Proof.
  intros [| c s]; cbn [space_runs]; [lia | ]. destruct (is_space c); lia.
Qed.

Lemma space_runs_append : forall s u b, space_runs b s <= space_runs b (s ++ u).
Proof.
  induction s as [| c s IH]; intros u b; cbn [space_runs app].
  - apply space_runs_nonneg.
  - destruct (is_space c).
    + pose proof (IH u true). lia.
    + apply IH.
Qed.

Lemma space_runs_prepend : forall a s,
  space_runs false s <= space_runs false (a ++ s) /\
  space_runs true s <= space_runs true (a ++ s).
Proof.
  induction a as [| c a IH]; intros s; cbn [space_runs app]; [lia | ].
  destruct (IH s) as [Hf Ht]. pose proof (space_runs_flag s).
  destruct (is_space c); lia.
Qed.

Lemma words_inside : forall a s u, words s <= words (a ++ s ++ u).
Proof.
  intros a s u. unfold words, split_spaces_length.
  pose proof (space_runs_append s u false).
  pose proof (proj1 (space_runs_prepend a (s ++ u))). lia.
Qed.

Lemma lengthScore_monotone : forall s t,
  words s <= words t -> lengthScore s <= lengthScore t.
Proof.
  intros s t H. unfold lengthScore.
  repeat match goal with
         | |- context [?x >? ?y] => destruct (Z.gtb_spec x y)
         end; lia.
Qed.

Lemma starts_with_append : forall p s u,
  starts_with p s = true -> starts_with p (s ++ u) = true.
Proof.
  induction p as [| x p IH]; intros s u H; [reflexivity | ].
  destruct s as [| y s]; [discriminate H | ]. simpl in *.
  apply andb_true_iff in H as [H1 H2]. rewrite H1. simpl. apply IH; exact H2.
Qed.

Lemma includes_inside : forall a s u needle,
  includes s needle = true -> includes (a ++ s ++ u) needle = true.
Proof.
  intros a s u needle H.
  assert (Happ : includes (s ++ u) needle = true).
  { induction s as [| c s IH]; simpl in H.
    - rewrite orb_false_r in H. destruct needle; [ | discriminate H].
      destruct u; reflexivity.
    - apply orb_true_iff in H as [H | H].
      + simpl. apply orb_true_iff. left.
        apply (starts_with_append needle (c :: s) u H).
      + simpl. apply orb_true_iff. right. apply IH; exact H. }
  clear H. induction a as [| c a IH]; [exact Happ | ].
  simpl. rewrite IH. apply orb_true_r.
Qed.

Lemma filter_length_monotone : forall (A : Type) (f g : A -> bool) (l : list A),
  (forall x, f x = true -> g x = true) ->
  (length (filter f l) <= length (filter g l))%nat.
Proof.
  intros A f g l H. induction l as [| x l IH]; simpl; [lia | ].
  destruct (f x) eqn:Ef.
  - rewrite (H x Ef). simpl. lia.
  - destruct (g x); simpl; lia.
Qed.

Lemma toLowerCase_app : forall s u,
  toLowerCase (s ++ u) = toLowerCase s ++ toLowerCase u.
Proof. intros; unfold toLowerCase; apply flat_map_app. Qed.

Lemma hits_inside : forall a s u kws,
  hits (toLowerCase s) kws <= hits (toLowerCase (a ++ s ++ u)) kws.
Proof.
  intros a s u kws. unfold hits. rewrite !toLowerCase_app.
  apply Nat2Z.inj_le. apply filter_length_monotone.
  intros kw. apply includes_inside.
Qed.

(** A match found in a text is found again when text is added after it. *)
Lemma rx_match_extend : forall ci (u : jsstring) r s cap cap' k k',
  (forall s' c c', k s' c <> None -> k' (s' ++ u) c' <> None) ->
  rx_match ci r s cap k <> None ->
  rx_match ci r (s ++ u) cap' k' <> None.
Proof.
  intros ci u r. induction r as [ | c | p | p | p | c | r1 IH1 r2 IH2 | r IH];
    intros s cap cap' k k' Hk H; simpl in *.
  - eapply Hk; exact H.
  - destruct s as [| x t]; [contradiction H; reflexivity | ]. simpl.
    destruct (chr_matches ci x c); [ | exact H]. eapply Hk; exact H.
  - destruct s as [| x t]; [contradiction H; reflexivity | ]. simpl.
    destruct (p x); [ | exact H]. eapply Hk; exact H.
  - revert H. apply star_bt_extend. intros s'. apply Hk.
  - destruct s as [| x t]; [contradiction H; reflexivity | ]. simpl.
    destruct (p x); [ | exact H].
    revert H. apply star_bt_extend. intros s'. apply Hk.
  - assert (Hopt : forall w : jsstring, k' w cap' <> None ->
              match (match w with
                     | x :: t => if chr_matches ci x c then k' t cap' else None
                     | [] => None
                     end) with
              | Some res => Some res
              | None => k' w cap'
              end <> None).
    { intros w Hw.
      destruct (match w with
                | x :: t => if chr_matches ci x c then k' t cap' else None
                | [] => None
                end); [discriminate | exact Hw]. }
    destruct s as [| x t].
    + apply Hopt. apply (Hk [] cap cap' H).
    + destruct (chr_matches ci x c) eqn:Ec.
      * destruct (k t cap) eqn:Ek.
        -- assert (Ht : k' (t ++ u) cap' <> None)
             by (apply (Hk t cap cap'); rewrite Ek; discriminate).
           cbn [app]. rewrite Ec.
           destruct (k' (t ++ u) cap'); [discriminate | contradiction Ht; reflexivity].
        -- apply Hopt. apply (Hk (x :: t) cap cap' H).
      * apply Hopt. apply (Hk (x :: t) cap cap' H).
  - revert H. apply IH1. intros s' c c'. apply IH2. exact Hk.
  - revert H. apply IH. intros s' c c'. apply Hk.
Qed.

Lemma match_here_extend : forall ci r s u,
  match_here ci r s <> None -> match_here ci r (s ++ u) <> None.
Proof.
  intros ci r s u. unfold match_here. apply rx_match_extend.
  intros; discriminate.
Qed.

Lemma rx_search_extend : forall ci r s u,
  rx_search ci r s <> None -> rx_search ci r (s ++ u) <> None.
Proof.
  intros ci r s u. induction s as [| c s IH]; intros H.
  - simpl in H.
    assert (Hm : match_here ci r [] <> None)
      by (destruct (match_here ci r []); [discriminate | exact H]).
    apply (match_here_extend ci r [] u) in Hm. simpl in Hm.
    destruct u as [| y u]; simpl.
    + destruct (match_here ci r []); [discriminate | contradiction Hm; reflexivity].
    + destruct (match_here ci r (y :: u)); [discriminate | contradiction Hm; reflexivity].
  - simpl app. simpl rx_search in H |- *.
    destruct (match_here ci r (c :: s)) eqn:E.
    + pose proof (match_here_extend ci r (c :: s) u) as Hm. rewrite E in Hm.
      simpl app in Hm.
      destruct (match_here ci r (c :: s ++ u)); [discriminate | ].
      exfalso. apply Hm; [discriminate | reflexivity].
    + destruct (match_here ci r (c :: s ++ u)); [discriminate | ].
      apply IH. exact H.
Qed.

Lemma rx_search_prepend : forall ci r a s,
  rx_search ci r s <> None -> rx_search ci r (a ++ s) <> None.
Proof.
  intros ci r a s H. induction a as [| c a IH]; [exact H | ].
  simpl. destruct (match_here ci r (c :: a ++ s)); [discriminate | exact IH].
Qed.

Lemma rx_test_inside : forall ci r a s u,
  rx_test ci r s = true -> rx_test ci r (a ++ s ++ u) = true.
Proof.
  intros ci r a s u H. unfold rx_test in *.
  assert (Hs : rx_search ci r s <> None)
    by (destruct (rx_search ci r s); [discriminate | discriminate H]).
  pose proof (rx_search_prepend ci r a (s ++ u) (rx_search_extend ci r s u Hs)) as Hx.
  destruct (rx_search ci r (a ++ s ++ u)); [reflexivity | contradiction Hx; reflexivity].
Qed.

Lemma structuralHits_inside : forall a s u,
  structuralHits s <= structuralHits (a ++ s ++ u).
Proof.
  intros a s u. unfold structuralHits. apply Nat2Z.inj_le.
  apply filter_length_monotone. intros pat. apply rx_test_inside.
Qed.

Lemma specialChars_inside : forall a s u,
  specialChars s <= specialChars (a ++ s ++ u).
Proof.
  intros a s u. unfold specialChars, count_class.
  rewrite !filter_app, !length_app. lia.
Qed.

Lemma specialScore_monotone : forall s t,
  specialChars s <= specialChars t -> specialScore s <= specialScore t.
Proof.
  intros s t H. unfold specialScore.
  repeat match goal with
         | |- context [?x >=? ?y] => destruct (Z.geb_spec x y)
         end; lia.
Qed.

(** Adding text before or after a prompt never lowers its score, its
    difficulty or its iteration count. *)
Theorem analyzer_monotone_in_text : forall before rawPrompt after : jsstring,
  let small := analyzePromptComplexity rawPrompt in
  let large := analyzePromptComplexity (before ++ rawPrompt ++ after) in
  score small <= score large /\
  iterations small <= iterations large /\
  rank (difficulty small) <= rank (difficulty large).
Proof.
  intros a s u small large; subst small large.
  assert (Hscore : totalScore s <= totalScore (a ++ s ++ u)).
  { unfold totalScore.
    pose proof (lengthScore_monotone s (a ++ s ++ u) (words_inside a s u)).
    pose proof (hits_inside a s u techKeywords).
    pose proof (hits_inside a s u domainKeywords).
    pose proof (hits_inside a s u logicWords).
    pose proof (structuralHits_inside a s u).
    pose proof (specialScore_monotone s (a ++ s ++ u) (specialChars_inside a s u)).
    unfold techHits, domainHits, logicHits. lia. }
  destruct (analyze_fields s) as [Hs _].
  destruct (analyze_fields (a ++ s ++ u)) as [Hl _].
  destruct (analyze_tier s) as [Hds His].
  destruct (analyze_tier (a ++ s ++ u)) as [Hdl Hil].
  rewrite Hs, Hl, Hds, Hdl, His, Hil.
  pose proof (mapScore_monotone _ _ Hscore).
  rewrite <- !mapScore_rank. lia.
Qed.

(* ------------------------------------------------------------------ *)
(** ** More on the run of [processPrompt] *)
(* ------------------------------------------------------------------ *)

Lemma trimStart_all_space : forall s,
  forallb is_space s = true -> trimStart s = [].
Proof.
  induction s as [| c s IH]; simpl; intros H; [reflexivity | ].
  apply andb_true_iff in H as [Hc Hs]. rewrite Hc. apply IH; exact Hs.
Qed.

Lemma trimStart_nil : forall s, trimStart s = [] -> forallb is_space s = true.
Proof.
  induction s as [| c s IH]; simpl; intros H; [reflexivity | ].
  destruct (is_space c); [apply IH; exact H | discriminate H].
Qed.

Lemma forallb_rev : forall (A : Type) (f : A -> bool) (l : list A),
  forallb f (rev l) = forallb f l.
Proof.
  intros A f l. induction l as [| x l IH]; [reflexivity | ].
  simpl. rewrite forallb_app, IH. simpl. rewrite andb_true_r. apply andb_comm.
Qed.

Lemma trimStart_head : forall s c t, trimStart s = c :: t -> is_space c = false.
Proof.
  induction s as [| x s IH]; simpl; intros c t H; [discriminate H | ].
  destruct (is_space x) eqn:E; [apply (IH c t H) | ].
  injection H as <- _. exact E.
Qed.

Lemma trim_nil : forall s, trim s = [] <-> forallb is_space s = true.
Proof.
  intros s. unfold trim. split.
  - intros H.
    assert (Hr : trimStart (rev (trimStart s)) = []).
    { destruct (trimStart (rev (trimStart s))) as [| x l]; [reflexivity | ].
      simpl in H. destruct (rev l); discriminate H. }
    apply trimStart_nil in Hr. rewrite forallb_rev in Hr.
    destruct (trimStart s) as [| c t] eqn:E.
    + apply trimStart_nil; exact E.
    + apply trimStart_head in E. simpl in Hr. rewrite E in Hr. discriminate Hr.
  - intros H. rewrite (trimStart_all_space s H). reflexivity.
Qed.

(** [validatePrompt] lets a text through exactly when it has between 10
    and 10000 code units, not all of them white space. *)
Theorem validatePrompt_accepts : forall text : jsstring,
  validatePrompt text = None
  <-> 10 <= js_length text <= 10000 /\ forallb is_space text = false.
Proof.
  intros text. unfold validatePrompt.
  assert (Hblank : (js_length (trim text) =? 0) = forallb is_space text).
  { destruct (forallb is_space text) eqn:E.
    - apply (proj2 (trim_nil text)) in E. rewrite E. reflexivity.
    - apply Z.eqb_neq. intros H. unfold js_length in H.
      assert (Ht : trim text = []) by (destruct (trim text); [reflexivity | discriminate H]).
      apply trim_nil in Ht. congruence. }
  rewrite Hblank.
  destruct text as [| c text]; [simpl; split; [discriminate | intros [_ H]; discriminate H] | ].
  cbn [truthy negb orb].
  destruct (forallb is_space (c :: text)).
  - split; [discriminate | intros [_ H]; discriminate H].
  - destruct (Z.ltb_spec (js_length (c :: text)) 10);
      [split; [discriminate | intros [H1 _]; lia] | ].
    destruct (Z.gtb_spec (js_length (c :: text)) 10000);
      [split; [discriminate | intros [H1 _]; lia] | ].
    split; [intros _; split; [lia | reflexivity] | reflexivity].
Qed.

Section Budget.

Variable client : Client.

(** Whatever the backend does, the loop makes at most one call per
    iteration, pushes one entry per call except the one that stops it,
    and keeps a prompt that passes the test of the loop. *)
Lemma refineLoop_budget : forall (remaining : nat) (i : Z) (st : LoopState),
  let st' := refineLoop client remaining i st in
  (calls st <= calls st' <= calls st + remaining)%nat /\
  (length (refinementHistory st') - length (refinementHistory st)
   <= calls st' - calls st
   <= length (refinementHistory st') - length (refinementHistory st) + 1)%nat /\
  (length (refinementHistory st) <= length (refinementHistory st'))%nat /\
  (truthy (workingPrompt st) = true -> truthy (workingPrompt st') = true).
Proof.
  induction remaining as [| remaining IH]; intros i st; cbn [refineLoop].
  - cbv zeta. repeat split; try lia. auto.
  - cbv zeta.
    destruct (truthy (prompt (refinePrompt (client (calls st)) (i + 2)))) eqn:E;
      cbn [negb].
    + specialize (IH (i + 1)
        (mkLoop (prompt (refinePrompt (client (calls st)) (i + 2)))
                (refinementHistory st
                 ++ [mkEntry (i + 2) (edits (refinePrompt (client (calls st)) (i + 2)))])
                (S (calls st)))).
      cbv zeta in IH. cbn [calls refinementHistory workingPrompt] in IH.
      rewrite length_app in IH. cbn [length] in IH.
      destruct IH as [H1 [H2 [H3 H4]]].
      repeat split; try lia. intros _. apply H4. exact E.
    + cbn [calls refinementHistory workingPrompt]. repeat split; try lia. auto.
Qed.

(** The entries of the loop fit the schema of the history when the
    edits of usable rounds are texts. *)
Lemma refineLoop_history_schema : forall (remaining : nat) (i : Z) (st : LoopState),
  0 <= i ->
  (forall reply n, usable (refinePrompt reply n) = true ->
                   nonempty_string (edits (refinePrompt reply n)) = true) ->
  RefinementHistorySchema (refinementHistory st) = true ->
  RefinementHistorySchema
    (refinementHistory (refineLoop client remaining i st)) = true.
Proof.
  induction remaining as [| remaining IH]; intros i st Hi Hedits Hst;
    cbn [refineLoop]; [exact Hst | ].
  cbv zeta.
  destruct (truthy (prompt (refinePrompt (client (calls st)) (i + 2)))) eqn:E;
    cbn [negb]; [ | exact Hst].
  apply IH; [lia | exact Hedits | ].
  cbn [refinementHistory]. unfold RefinementHistorySchema in *.
  rewrite forallb_app, Hst. cbn [forallb andb].
  unfold RefinementHistoryItemSchema. cbn [iteration entry_edits].
  rewrite (Hedits _ _ E).
  replace (1 <=? i + 2) with true by (symmetry; apply Z.leb_le; lia).
  reflexivity.
Qed.

(** When every round is usable the loop runs to its end. *)
Lemma refineLoop_complete : forall (remaining : nat) (i : Z) (st : LoopState),
  (forall k, (k < remaining)%nat ->
     usable (refinePrompt (client (calls st + k)%nat) (i + Z.of_nat k + 2)) = true) ->
  let st' := refineLoop client remaining i st in
  calls st' = (calls st + remaining)%nat /\
  refinementHistory st'
  = refinementHistory st
    ++ map (fun k => mkEntry (i + Z.of_nat k + 2)
                       (edits (refinePrompt (client (calls st + k)%nat)
                                            (i + Z.of_nat k + 2))))
           (seq 0 remaining) /\
  workingPrompt st'
  = match remaining with
    | O => workingPrompt st
    | S r => prompt (refinePrompt (client (calls st + r)%nat) (i + Z.of_nat r + 2))
    end.
Proof.
  unfold usable.
  induction remaining as [| remaining IH]; intros i st Hgood; cbn [refineLoop].
  - cbv zeta. cbn [seq map]. rewrite app_nil_r, Nat.add_0_r. auto.
  - cbv zeta.
    pose proof (Hgood O ltac:(lia)) as H0.
    rewrite Nat.add_0_r, Z.add_0_r in H0. rewrite H0. cbn [negb].
    set (st1 := mkLoop _ _ _).
    specialize (IH (i + 1) st1).
    assert (Hcalls : calls st1 = S (calls st)) by reflexivity.
    cbv zeta in IH. destruct IH as [Hc [Hh Hw]].
    + intros k Hk. rewrite Hcalls.
      replace (S (calls st) + k)%nat with (calls st + S k)%nat by lia.
      replace (i + 1 + Z.of_nat k + 2) with (i + Z.of_nat (S k) + 2) by lia.
      apply Hgood. lia.
    + rewrite Hc, Hh, Hw, Hcalls. split; [lia | ]. split.
      * subst st1. cbn [refinementHistory]. rewrite <- app_assoc. f_equal.
        cbn [seq map app]. rewrite Nat.add_0_r, Z.add_0_r. f_equal.
        rewrite <- seq_shift, map_map. apply map_ext. intros k.
        replace (S (calls st) + k)%nat with (calls st + S k)%nat by lia.
        replace (i + 1 + Z.of_nat k + 2) with (i + Z.of_nat (S k) + 2) by lia.
        reflexivity.
      * destruct remaining as [| r].
        -- subst st1. cbn [workingPrompt]. rewrite Nat.add_0_r, Z.add_0_r. reflexivity.
        -- replace (S (calls st) + r)%nat with (calls st + S r)%nat by lia.
           replace (i + 1 + Z.of_nat r + 2) with (i + Z.of_nat (S r) + 2) by lia.
           reflexivity.
Qed.

End Budget.

Lemma recommendedIterations_range : forall text,
  1 <= recommendedIterations text <= 5.
Proof.
  intros text. unfold recommendedIterations, strategyIterations. cbv zeta.
  destruct (analyze_tier text) as [_ Hi]. rewrite Hi.
  apply mapScore_iterations.
Qed.

(** The budget of a run, whatever the backend answers.  A refused text
    costs no call and a failed initial generation one call.  A run that
    ends in Done made at most one call per recommended iteration after
    the first, six at most; its history has one entry for each call
    except a last unusable one; and its final prompt passes the test of
    the loop. *)
Theorem run_call_budget : forall (client : Client) (text : jsstring),
  match processPrompt client text with
  | (Rejected message, n) => n = 0%nat /\ validatePrompt text = Some message
  | (Failed, n) =>
      n = 1%nat /\ usable (generateInitialPrompt (client O) text) = false
  | (Done final history, n) =>
      truthy final = true /\
      (1 <= length history <= n)%nat /\
      (n <= length history + 1)%nat /\
      (n <= 1 + Z.to_nat (recommendedIterations text))%nat /\
      (n <= 6)%nat
  end.
Proof.
  intros client text. unfold processPrompt, usable.
  destruct (validatePrompt text) as [message |]; [split; reflexivity | ].
  destruct (truthy (prompt (generateInitialPrompt (client O) text))) eqn:E;
    cbn [negb]; [ | split; reflexivity].
  cbv zeta.
  pose proof (refineLoop_budget client (Z.to_nat (recommendedIterations text)) 0
                (mkLoop (prompt (generateInitialPrompt (client O) text))
                        [mkEntry 1 (edits (generateInitialPrompt (client O) text))]
                        1%nat)) as H.
  cbv zeta in H. cbn [calls refinementHistory workingPrompt length] in H.
  destruct H as [H1 [H2 [H3 H4]]].
  pose proof (recommendedIterations_range text).
  split; [apply H4; exact E | ]. repeat split; lia.
Qed.

(** A run in which the initial generation and every refinement round are
    usable makes one call per recommended iteration after the first, and
    ends with the prompt of the last round and a history that holds the
    edits of the initial generation and of every round, in order. *)
Theorem run_all_rounds_good : forall (client : Client) (text : jsstring),
  validatePrompt text = None ->
  usable (generateInitialPrompt (client O) text) = true ->
  (forall j, (1 <= j <= Z.to_nat (recommendedIterations text))%nat ->
             usable (round client j) = true) ->
  let rounds := Z.to_nat (recommendedIterations text) in
  exists history,
    processPrompt client text
    = (Done (prompt_after client text rounds) history, (1 + rounds)%nat) /\
    length history = (1 + rounds)%nat /\
    map entry_edits history
    = edits (generateInitialPrompt (client O) text)
      :: map (fun j => edits (round client j)) (seq 1 rounds).
Proof.
  intros client text Hvalid Hinit Hgood rounds.
  unfold processPrompt. rewrite Hvalid.
  unfold usable in Hinit. rewrite Hinit. cbn [negb]. cbv zeta.
  set (st0 := mkLoop _ _ _).
  destruct (refineLoop_complete client rounds 0 st0) as [Hc [Hh Hw]].
  { intros k Hk. subst st0. cbn [calls].
    specialize (Hgood (S k) ltac:(subst rounds; lia)). unfold round in Hgood.
    replace (0 + Z.of_nat k + 2) with (Z.of_nat (S k) + 1) by lia.
    exact Hgood. }
  fold rounds. eexists. split; [ | split].
  - f_equal; [f_equal | ].
    + rewrite Hw. subst st0. cbn [workingPrompt calls].
      destruct rounds as [| r]; cbn [prompt_after]; [reflexivity | ].
      unfold round. replace (0 + Z.of_nat r + 2) with (Z.of_nat (S r) + 1) by lia.
      reflexivity.
    + rewrite Hc. reflexivity.
  - rewrite Hh. subst st0. cbn [refinementHistory].
    rewrite length_app, length_map, length_seq. reflexivity.
  - rewrite Hh. subst st0. cbn [refinementHistory calls app map entry_edits].
    f_equal. rewrite map_map. cbn [entry_edits].
    rewrite <- seq_shift, map_map. apply map_ext. intros k. unfold round.
    replace (0 + Z.of_nat k + 2) with (Z.of_nat (S k) + 1) by lia.
    reflexivity.
Qed.

(** The statement at a short text, of one iteration, and a backend that
    always answers with a complete record: two calls, two entries. *)
Lemma run_all_rounds_good_witness :
  exists history,
    processPrompt client_steady (lit "Write a haiku about autumn")
    = (Done (prompt_after client_steady (lit "Write a haiku about autumn") 1)
            history, 2%nat) /\
    length history = 2%nat.
Proof.
  destruct (run_all_rounds_good client_steady (lit "Write a haiku about autumn")
              eq_refl eq_refl) as [history [Hrun [Hlen _]]].
  - intros j _. vm_compute. reflexivity.
  - exists history. split; [exact Hrun | exact Hlen].
Defined.

(* ------------------------------------------------------------------ *)
(** ** More on the parser of the replies *)
(* ------------------------------------------------------------------ *)

Lemma every_hasOwnProperty_true : forall parsed f fields,
  every_hasOwnProperty parsed (f :: fields) = Some true ->
  exists m, parsed = VObj m /\ forallb (obj_has m) (f :: fields) = true.
Proof.
  intros parsed f fields H.
  destruct parsed as [ | | b | n | s | l | m];
    try (simpl in H; discriminate H).
  exists m. split; [reflexivity | ].
  revert H. generalize (f :: fields) as fs. clear f fields.
  induction fs as [| g fs IH]; [reflexivity | ].
  cbn [every_hasOwnProperty call_hasOwnProperty forallb].
  destruct (obj_has m (lit "hasOwnProperty")); [discriminate | ].
  destruct (obj_has m g); [ | discriminate].
  intros H. cbn [andb]. apply IH; exact H.
Qed.

Lemma validPrompt_fields : forall parsed p,
  validPrompt parsed = Some p -> has_required_fields p = true.
Proof.
  intros parsed p H. unfold validPrompt in H.
  destruct (field_or parsed "context" "No context provided"); [ | discriminate H].
  destruct (field_or parsed "role" "Expert assistant"); [ | discriminate H].
  destruct (field_or parsed "task" "Complete the requested task"); [ | discriminate H].
  destruct (field_or parsed "constraints" "Follow best practices"); [ | discriminate H].
  destruct (field_or parsed "output" "Provide appropriate output"); [ | discriminate H].
  injection H as <-. reflexivity.
Qed.

(** What the second tier returns is an object with the five members. *)
Lemma bracePrompt_fields : forall content p b,
  bracePrompt content = Some (p, b) -> has_required_fields p = true.
Proof.
  intros content p b H. unfold bracePrompt in H.
  destruct (braceSlice content) as [jsonStr |]; [ | discriminate H].
  destruct (JSON_parse jsonStr) as [parsed |]; [ | discriminate H].
  destruct (every_hasOwnProperty parsed requiredFields) as [[|] |] eqn:E;
    [ | | discriminate H].
  - injection H as <- _.
    apply every_hasOwnProperty_true in E as [m [-> Hm]]. exact Hm.
  - destruct (validPrompt parsed) as [q |] eqn:Ev; [ | discriminate H].
    injection H as <- _. apply (validPrompt_fields parsed q Ev).
Qed.

Lemma has_required_fields_truthy : forall v,
  has_required_fields v = true -> truthy v = true.
Proof. intros [ | | | | | | m] H; try discriminate H; reflexivity. Qed.

Lemma firstCapture_cases : forall content patterns,
  firstCapture content patterns = VNull
  \/ exists s, firstCapture content patterns = VStr s.
Proof.
  intros content patterns. induction patterns as [| pattern rest IH];
    cbn [firstCapture]; [left; reflexivity | ].
  destruct (rx_search true pattern content) as [[rest' [[| c cs] |]] |];
    try exact IH.
  right. eexists. reflexivity.
Qed.

(** An extracted field, or its non-empty default, is a non-empty text. *)
Lemma extracted_or_default : forall content field dflt,
  dflt <> [] ->
  nonempty_string (js_or (extractField content field) (VStr dflt)) = true.
Proof.
  intros content field [| c d] Hd; [contradiction Hd; reflexivity | ].
  unfold extractField, js_or.
  destruct (firstCapture_cases content (fieldPatterns (lit field)))
    as [-> | [[| x s] ->]]; reflexivity.
Qed.

Lemma five_members_schema : forall c r t k o,
  nonempty_string c = true -> nonempty_string r = true ->
  nonempty_string t = true -> nonempty_string k = true ->
  nonempty_string o = true ->
  PE2PromptSchema
    (VObj [(lit "context", c); (lit "role", r); (lit "task", t);
           (lit "constraints", k); (lit "output", o)]) = true.
Proof.
  intros c r t k o Hc Hr Ht Hk Ho. unfold PE2PromptSchema.
  set (m := [(lit "context", c); (lit "role", r); (lit "task", t);
             (lit "constraints", k); (lit "output", o)]).
  assert (E1 : obj_get m (lit "context") = c) by reflexivity.
  assert (E2 : obj_get m (lit "role") = r) by reflexivity.
  assert (E3 : obj_get m (lit "task") = t) by reflexivity.
  assert (E4 : obj_get m (lit "constraints") = k) by reflexivity.
  assert (E5 : obj_get m (lit "output") = o) by reflexivity.
  rewrite E1, E2, E3, E4, E5, Hc, Hr, Ht, Hk, Ho. reflexivity.
Qed.

Lemma nonempty_string_intro : forall s, s <> [] -> nonempty_string (VStr s) = true.
Proof. intros [| c s] H; [contradiction H; reflexivity | reflexivity]. Qed.

Lemma lit_app_nonempty : forall (a : string) (rest : jsstring),
  lit a <> [] -> lit a ++ rest <> [].
Proof.
  intros a rest Ha H. apply app_eq_nil in H as [H _]. contradiction.
Qed.

(** The records of the extraction by patterns and of the last resort
    hold five non-empty texts. *)
Lemma fieldExtraction_schema : forall content rawPrompt,
  PE2PromptSchema (prompt (fieldExtraction content rawPrompt)) = true /\
  has_required_fields (prompt (fieldExtraction content rawPrompt)) = true.
Proof.
  intros content rawPrompt. unfold fieldExtraction.
  destruct (truthy
              (js_or (js_or (extractField content "context")
                            (extractField content "role"))
                     (extractField content "task"))); cbn [prompt].
  - split; [ | reflexivity].
    unfold extractedPrompt.
    apply five_members_schema; apply extracted_or_default;
      try (apply lit_app_nonempty); vm_compute; discriminate.
  - split; [ | reflexivity].
    unfold basicPrompt.
    apply five_members_schema; apply nonempty_string_intro;
      try (apply lit_app_nonempty); vm_compute; discriminate.
Qed.

Lemma recovery_fields : forall content rawPrompt,
  JSON_parse content = None ->
  has_required_fields (prompt (generateInitialPrompt (Replies content) rawPrompt))
  = true.
Proof.
  intros content rawPrompt Hstrict.
  unfold generateInitialPrompt, braceExtraction. rewrite Hstrict.
  destruct (bracePrompt content) as [[p b] |] eqn:E.
  - apply bracePrompt_fields in E. exact E.
  - apply fieldExtraction_schema.
Qed.

(** The fallback tiers always deliver the five members.  When the text
    of a reply is not strictly valid JSON, the prompt returned by
    [generateInitialPrompt] is an object with the five required members,
    and so is the prompt returned by [refinePrompt] unless it is null. *)
Theorem recovery_gives_required_fields : forall (content rawPrompt : jsstring)
    (n : Z),
  JSON_parse content = None ->
  has_required_fields (prompt (generateInitialPrompt (Replies content) rawPrompt))
  = true /\
  (prompt (refinePrompt (Replies content) n) = VNull \/
   has_required_fields (prompt (refinePrompt (Replies content) n)) = true).
Proof.
  intros content rawPrompt n Hstrict.
  unfold generateInitialPrompt, refinePrompt, braceExtraction. rewrite Hstrict.
  destruct (bracePrompt content) as [[p b] |] eqn:E.
  - apply bracePrompt_fields in E. cbn [prompt]. auto.
  - split; [apply fieldExtraction_schema | left; reflexivity].
Qed.

(** The statement at a reply in prose with a record of two members. *)
Lemma recovery_gives_required_fields_witness :
  has_required_fields
    (prompt (generateInitialPrompt
               (Replies (dq "Sure: {'context':'c2','role':'r',}"))
               (lit "Review my code"))) = true.
Proof.
  apply (recovery_gives_required_fields
           (dq "Sure: {'context':'c2','role':'r',}") (lit "Review my code") 2).
  reflexivity.
Defined.

(** When neither strict parsing nor the brace extraction reads the
    reply, the prompt that [generateInitialPrompt] builds is accepted by
    [PE2PromptSchema]: context, role, task, constraints and output are
    non-empty texts. *)
Theorem built_prompt_fits_schema : forall content rawPrompt : jsstring,
  JSON_parse content = None ->
  bracePrompt content = None ->
  PE2PromptSchema (prompt (generateInitialPrompt (Replies content) rawPrompt))
  = true.
Proof.
  intros content rawPrompt Hstrict Hbrace.
  unfold generateInitialPrompt, braceExtraction. rewrite Hstrict, Hbrace.
  apply fieldExtraction_schema.
Qed.

(** The statement at a reply whose only field is blank, and at an empty
    prompt: the defaults stand in. *)
Lemma built_prompt_fits_schema_witness :
  PE2PromptSchema
    (prompt (generateInitialPrompt (Replies (lit "context:  ")) [])) = true.
Proof.
  apply (built_prompt_fits_schema (lit "context:  ") []); reflexivity.
Defined.

(** The initial generation gives no prompt in two cases only: the call
    throws, or the text of the reply is by itself valid JSON for a value
    that is not truthy (null, false, 0 or the empty text). *)
Theorem initial_generation_fails_only : forall (reply : Outcome)
    (rawPrompt : jsstring),
  usable (generateInitialPrompt reply rawPrompt) = false
  <-> reply = Throws
      \/ exists content v, reply = Replies content /\
                           JSON_parse content = Some v /\ truthy v = false.
Proof.
  intros reply rawPrompt. unfold usable. split.
  - destruct reply as [| content]; [left; reflexivity | ]. intros H. right.
    unfold generateInitialPrompt, braceExtraction in H.
    destruct (JSON_parse content) as [v |] eqn:Es.
    + exists content, v. auto.
    + exfalso.
      assert (Ht : truthy (prompt (generateInitialPrompt (Replies content) rawPrompt))
                   = true).
      { apply has_required_fields_truthy.
        apply (recovery_fields content rawPrompt Es). }
      unfold generateInitialPrompt, braceExtraction in Ht. rewrite Es in Ht.
      congruence.
  - intros [-> | [content [v [-> [Hv Ht]]]]]; [reflexivity | ].
    unfold generateInitialPrompt. rewrite Hv. exact Ht.
Qed.

Lemma usable_edits_initial : forall reply rawPrompt,
  usable (generateInitialPrompt reply rawPrompt) = true ->
  nonempty_string (edits (generateInitialPrompt reply rawPrompt)) = true.
Proof.
  intros [| content] rawPrompt H; [discriminate H | ].
  unfold generateInitialPrompt, braceExtraction, fieldExtraction in *.
  destruct (JSON_parse content); [reflexivity | ].
  destruct (bracePrompt content) as [[p [|]] |]; try reflexivity.
  destruct (truthy _); reflexivity.
Qed.

Lemma usable_edits_refined : forall reply n,
  usable (refinePrompt reply n) = true ->
  nonempty_string (edits (refinePrompt reply n)) = true.
Proof.
  intros [| content] n H; [discriminate H | ].
  unfold refinePrompt, braceExtraction in *.
  destruct (JSON_parse content); [reflexivity | ].
  destruct (bracePrompt content) as [[p [|]] |]; try reflexivity.
  discriminate H.
Qed.

(** The history of every run that ends in Done is accepted by
    [RefinementHistorySchema]: each entry has an iteration number of 1
    or more and edits that are a non-empty text. *)
Theorem history_fits_schema : forall (client : Client) (text : jsstring)
    (final : value) (history : list HistoryEntry) (n : nat),
  processPrompt client text = (Done final history, n) ->
  RefinementHistorySchema history = true.
Proof.
  intros client text final history n Hrun. unfold processPrompt in Hrun.
  destruct (validatePrompt text); [discriminate Hrun | ].
  destruct (truthy (prompt (generateInitialPrompt (client O) text))) eqn:E;
    cbn [negb] in Hrun; [ | discriminate Hrun].
  injection Hrun as _ Hh _. rewrite <- Hh.
  apply refineLoop_history_schema; [lia | exact usable_edits_refined | ].
  unfold RefinementHistorySchema, RefinementHistoryItemSchema.
  cbn [refinementHistory forallb iteration entry_edits].
  rewrite (usable_edits_initial _ _ E). reflexivity.
Qed.

(** The statement at a run of three calls, the last of them unusable. *)
Lemma history_fits_schema_witness :
  exists final history,
    processPrompt client_two_good sample500 = (Done final history, 3%nat) /\
    RefinementHistorySchema history = true.
Proof.
  destruct (processPrompt client_two_good sample500) as [[ | | final history] n] eqn:E;
    try (vm_compute in E; discriminate E).
  assert (Hn : n = 3%nat) by (vm_compute in E; congruence).
  subst n. exists final, history. split; [reflexivity | ].
  apply (history_fits_schema client_two_good sample500 final history 3 E).
Defined.

(* ------------------------------------------------------------------ *)
(** *** The clean-up of trailing commas *)

Lemma star_bt_some : forall p s k r,
  star_bt p s k = Some r ->
  exists pre rest, s = pre ++ rest /\ forallb p pre = true /\ k rest = Some r.
Proof.
  intros p s k r. induction s as [| c s IH]; cbn [star_bt]; intros H.
  - exists [], []. auto.
  - destruct (p c) eqn:Ep.
    + destruct (star_bt p s k) as [r' |] eqn:Es.
      * injection H as <-. destruct (IH eq_refl) as [pre [rest [-> [Hp Hk]]]].
        exists (c :: pre), rest. cbn [forallb app]. rewrite Ep, Hp. auto.
      * exists [], (c :: s). auto.
    + exists [], (c :: s). auto.
Qed.

(** A match of the trailing-comma pattern: a comma, white space, a
    closing bracket; the capture is what follows the comma. *)
Lemma comma_match_shape : forall c t rest cap,
  match_here false trailingCommaPattern (c :: t) = Some (rest, cap) ->
  c = COMMA /\
  exists pre x, t = pre ++ x :: rest /\ cap = Some (pre ++ [x]).
Proof.
  intros c t rest cap H.
  unfold match_here, trailingCommaPattern in H.
  cbn [rx_match chr_matches] in H.
  destruct (cu_eqb c COMMA) eqn:Ec; [ | discriminate H].
  apply cu_eqb_eq in Ec. split; [exact Ec | ].
  apply star_bt_some in H as [pre [rest' [Ht [_ Hk]]]].
  destruct rest' as [| x t']; [discriminate Hk | ].
  destruct (is_closer x); [ | discriminate Hk].
  injection Hk as <- <-. exists pre, x. split; [exact Ht | ].
  f_equal. rewrite Ht, length_app. cbn [length].
  replace (length pre + S (length t') - length t')%nat with (length pre + 1)%nat by lia.
  rewrite firstn_app, firstn_all2 by lia.
  replace (length pre + 1 - length pre)%nat with 1%nat by lia.
  reflexivity.
Qed.

Lemma replace_all_skip : forall ci r pre rest,
  replace_all_g1 ci r (length pre) (pre ++ rest) = replace_all_g1 ci r 0 rest.
Proof.
  intros ci r pre rest. induction pre as [| c pre IH]; [reflexivity | ].
  cbn [length app replace_all_g1]. exact IH.
Qed.

Lemma deletes_commas_refl : forall s, deletes_commas s s.
Proof. induction s; constructor; assumption. Qed.

Lemma deletes_commas_app : forall a s s',
  deletes_commas s s' -> deletes_commas (a ++ s) (a ++ s').
Proof. induction a; intros; [assumption | constructor; auto]. Qed.

Lemma deletes_commas_length : forall s s',
  deletes_commas s s' -> (length s' <= length s)%nat.
Proof. induction 1; cbn [length]; lia. Qed.

Lemma deletes_commas_filter : forall s s',
  deletes_commas s s' ->
  filter (fun c => negb (cu_eqb c COMMA)) s' = filter (fun c => negb (cu_eqb c COMMA)) s.
Proof.
  induction 1; cbn [filter]; [reflexivity | | ].
  - rewrite IHdeletes_commas. reflexivity.
  - replace (cu_eqb COMMA COMMA) with true by reflexivity. exact IHdeletes_commas.
Qed.

Lemma strip_deletes : forall (n : nat) (s : jsstring),
  (length s <= n)%nat ->
  deletes_commas s (replace_all_g1 false trailingCommaPattern 0 s) /\
  (rx_test false trailingCommaPattern s = true ->
   (length (replace_all_g1 false trailingCommaPattern 0 s) < length s)%nat).
Proof.
  induction n as [| n IH]; intros s Hlen.
  - destruct s; [ | cbn [length] in Hlen; lia]. split.
    + vm_compute. constructor.
    + intros H. vm_compute in H. discriminate H.
  - destruct s as [| c t].
    + split; [vm_compute; constructor | intros H; vm_compute in H; discriminate H].
    + cbn [length] in Hlen. cbn [replace_all_g1].
      destruct (match_here false trailingCommaPattern (c :: t))
        as [[rest cap] |] eqn:Em.
      * apply comma_match_shape in Em as [-> [pre [x [-> ->]]]].
        cbn [length]. rewrite length_app. cbn [length].
        replace (S (length pre + S (length rest)) - length rest)%nat
          with (S (length (pre ++ [x]))) by (rewrite length_app; cbn [length]; lia).
        cbn [capture_text].
        replace (pre ++ x :: rest) with ((pre ++ [x]) ++ rest)
          by (rewrite <- app_assoc; reflexivity).
        rewrite replace_all_skip.
        destruct (IH rest) as [Hd _].
        { rewrite length_app in Hlen. cbn [length] in Hlen. lia. }
        split.
        -- apply dc_drop. apply deletes_commas_app. exact Hd.
        -- intros _. apply deletes_commas_length in Hd.
           rewrite !length_app. cbn [length]. lia.
      * destruct (IH t ltac:(lia)) as [Hd Hlt]. split.
        -- apply dc_keep. exact Hd.
        -- intros H. unfold rx_test in H. cbn [rx_search] in H. rewrite Em in H.
           cbn [length]. apply -> Nat.succ_lt_mono. apply Hlt.
           unfold rx_test. exact H.
Qed.

(** The clean-up before the second parse only takes commas out: its
    result is the text with some commas deleted and every other code
    unit in place.  A text in which the pattern (a comma, white space, a
    closing bracket) does not occur is returned as it is, and one in
    which it occurs comes back shorter. *)
Theorem stripTrailingCommas_only_deletes_commas : forall jsonStr : jsstring,
  deletes_commas jsonStr (stripTrailingCommas jsonStr) /\
  filter (fun c => negb (cu_eqb c COMMA)) (stripTrailingCommas jsonStr)
  = filter (fun c => negb (cu_eqb c COMMA)) jsonStr /\
  (rx_test false trailingCommaPattern jsonStr = false ->
   stripTrailingCommas jsonStr = jsonStr) /\
  (rx_test false trailingCommaPattern jsonStr = true ->
   (length (stripTrailingCommas jsonStr) < length jsonStr)%nat).
Proof.
  intros jsonStr. unfold stripTrailingCommas.
  destruct (strip_deletes (length jsonStr) jsonStr (le_n _)) as [Hd Hlt].
  split; [exact Hd | ]. split; [apply deletes_commas_filter; exact Hd | ].
  split; [apply replace_all_no_match | exact Hlt].
Qed.

(* ------------------------------------------------------------------ *)
(** ** More on the provider clients *)
(* ------------------------------------------------------------------ *)

Lemma num_leb_num : forall a b, num_leb (num a) (num b) = true <-> a <= b.
Proof.
  intros a b. unfold num. cbn [num_leb].
  rewrite Qle_bool_iff, <- Zle_Qle. reflexivity.
Qed.

Lemma num_leb_refl : forall x, x <> NaN -> num_leb x x = true.
Proof.
  intros [ | | q | ] H; try reflexivity; [contradiction | ].
  cbn [num_leb]. apply Qle_bool_iff. apply Qle_refl.
Qed.

Lemma num_leb_total : forall a b,
  a <> NaN -> b <> NaN -> num_leb a b = false -> num_leb b a = true.
Proof.
  intros [ | | x | ] [ | | y | ] Ha Hb H; try contradiction; try discriminate H;
    try reflexivity.
  cbn [num_leb] in *. apply Qle_bool_iff.
  destruct (Qlt_le_dec y x) as [Hlt | Hle].
  - apply Qlt_le_weak. exact Hlt.
  - apply Qle_bool_iff in Hle. congruence.
Qed.

Lemma num_not_nan : forall z, num z <> NaN.
Proof. intros z; discriminate. Qed.

(** The three outcomes of [Math.max(lo, Math.min(hi, x))] on a number:
    the upper bound, the number itself, the lower bound. *)
Lemma clamp_cases : forall lo hi x,
  lo <= hi -> x <> NaN ->
  (num_leb (num hi) x = true /\ clamp lo hi x = num hi) \/
  (num_leb (num hi) x = false /\ num_leb (num lo) x = true /\ clamp lo hi x = x) \/
  (num_leb (num hi) x = false /\ num_leb (num lo) x = false /\ clamp lo hi x = num lo).
Proof.
  intros lo hi x Hlh Hx.
  pose proof (proj2 (num_leb_num lo hi) Hlh) as Hnum.
  assert (Hmin : Math_min (num hi) x = (if num_leb (num hi) x then num hi else x)).
  { unfold Math_min, num. destruct x; reflexivity. }
  assert (Hmax : forall y, y <> NaN ->
            Math_max (num lo) y = (if num_leb (num lo) y then y else num lo)).
  { intros y Hy. unfold Math_max, num. destruct y; try reflexivity. contradiction. }
  unfold clamp. rewrite Hmin.
  destruct (num_leb (num hi) x) eqn:E.
  - left. split; [reflexivity | ].
    rewrite (Hmax (num hi) (num_not_nan hi)), Hnum. reflexivity.
  - right. rewrite (Hmax x Hx).
    destruct (num_leb (num lo) x) eqn:E2; [left | right]; auto.
Qed.

Lemma clamp_nan : forall lo hi, clamp lo hi NaN = NaN.
Proof. reflexivity. Qed.

Lemma clamp_within : forall lo hi x,
  lo <= hi -> x <> NaN -> within lo hi (clamp lo hi x) = true.
Proof.
  intros lo hi x Hlh Hx.
  pose proof (proj2 (num_leb_num lo hi) Hlh) as Hnum.
  unfold within.
  destruct (clamp_cases lo hi x Hlh Hx) as [[E ->] | [[E [E2 ->]] | [E [E2 ->]]]].
  - rewrite Hnum, (num_leb_refl (num hi) (num_not_nan hi)). reflexivity.
  - rewrite E2. apply num_leb_total; [apply num_not_nan | exact Hx | exact E].
  - rewrite (num_leb_refl (num lo) (num_not_nan lo)), Hnum. reflexivity.
Qed.

Lemma clamp_unchanged : forall lo hi x,
  lo <= hi -> within lo hi x = true -> same_number (clamp lo hi x) x = true.
Proof.
  intros lo hi x Hlh Hw. unfold within in Hw.
  apply andb_true_iff in Hw as [H1 H2].
  assert (Hx : x <> NaN) by (intros ->; discriminate H1).
  destruct (clamp_cases lo hi x Hlh Hx) as [[E ->] | [[E [E2 ->]] | [E [E2 ->]]]].
  - unfold same_number. cbn [num]. fold (num hi). rewrite E, H2.
    destruct x; reflexivity.
  - unfold same_number. rewrite (num_leb_refl x Hx). destruct x; reflexivity.
  - congruence.
Qed.

Lemma clamp_idempotent : forall lo hi x,
  lo <= hi -> clamp lo hi (clamp lo hi x) = clamp lo hi x.
Proof.
  intros lo hi x Hlh.
  pose proof (proj2 (num_leb_num lo hi) Hlh) as Hnum.
  destruct x as [ | | q | ] eqn:Ex; [reflexivity | | | ].
  all: rewrite <- Ex; assert (Hx : x <> NaN) by (rewrite Ex; discriminate);
    clear Ex.
  all: destruct (clamp_cases lo hi x Hlh Hx) as [[E ->] | [[E [E2 Hc]] | [E [E2 ->]]]].
  all: try (rewrite Hc; exact Hc).
  all: try (destruct (clamp_cases lo hi (num hi) Hlh (num_not_nan hi))
              as [[E' ->] | [[E' [E2' ->]] | [E' [E2' ->]]]];
            [reflexivity | reflexivity |
             rewrite (num_leb_refl (num hi) (num_not_nan hi)) in E'; discriminate E']).
  all: destruct (clamp_cases lo hi (num lo) Hlh (num_not_nan lo))
         as [[E' H'] | [[E' [E2' H']] | [E' [E2' H']]]]; rewrite H'; try reflexivity.
  all: apply num_leb_num in E'; f_equal; lia.
Qed.

Lemma clamp_clamped : forall lo hi x, lo <= hi -> clamped_to lo hi x (clamp lo hi x).
Proof.
  intros lo hi x Hlh. unfold clamped_to. split; [ | split].
  - intros ->. reflexivity.
  - apply clamp_within; exact Hlh.
  - apply clamp_unchanged; exact Hlh.
Qed.

Lemma clamp_or_clamped : forall lo hi dflt x,
  lo <= hi ->
  match x with
  | Some g => clamped_to lo hi g (clamp_or lo hi dflt x)
  | None => clamp_or lo hi dflt x = dflt
  end.
Proof.
  intros lo hi dflt [g |] Hlh; [apply clamp_clamped; exact Hlh | reflexivity].
Qed.

Lemma option_clamp_clamped : forall lo hi x,
  lo <= hi -> clamped_option lo hi x (option_map (clamp lo hi) x).
Proof.
  intros lo hi [g |] Hlh; cbn [option_map clamped_option];
    [apply clamp_clamped; exact Hlh | exact I].
Qed.

Lemma anthropic_sent : forall messagesCreate opts p,
  sent (Anthropic.create messagesCreate opts) = [p] ->
  p = Anthropic.anthropicParams opts.
Proof.
  intros f opts p H. unfold Anthropic.create in H.
  destruct (validate opts); [discriminate H | ].
  destruct (conversationMessages opts) as [| first rest].
  - cbn [sent] in H. congruence.
  - destruct (negb (is_str (role_of first) (lit "user")));
      cbn [sent] in H; [discriminate H | congruence].
Qed.

Lemma google_sent : forall (R : Type) (generate : Google.Request -> Reply R) opts req,
  sent (Google.create generate opts) = [req] -> Google.request opts = Some req.
Proof.
  intros R f opts req H. unfold Google.create in H.
  destruct (validate opts); [discriminate H | ].
  destruct (Google.request opts) as [r |]; cbn [sent] in H;
    [congruence | discriminate H].
Qed.

(** What the four clamping clients do to the sampling parameters of a
    valid request.  Each parameter that is given goes out clamped to the
    bounds of the client: a number outside them is replaced by a number
    within them, a number within them keeps its value, and NaN stays
    NaN.  The OpenAI and OpenRouter clients fill in 0.7, 1, 0 and 0 for
    parameters that are not given; the Anthropic and Google clients leave
    them out.  The bounds of temperature are 0 and 2, except for
    Anthropic, where they are 0 and 1. *)
Theorem sampling_parameters_are_clamped : forall (R : Type) (opts : Opts.t)
    (originalCreate : OpenAI.Params -> Reply R)
    (fetch : OpenRouter.Body -> Reply R)
    (messagesCreate : Anthropic.Params -> Reply Anthropic.Response)
    (generate : Google.Request -> Reply R),
  validate opts = None ->
  (exists params,
     sent (OpenAI.create originalCreate opts) = [params] /\
     clamped_option 0 2
       (Some (match Opts.temperature opts with Some t => t | None => Fin (7 # 10) end))
       (Some (OpenAI.temperature params)) /\
     clamped_option 0 1
       (Some (match Opts.top_p opts with Some p => p | None => num 1 end))
       (Some (OpenAI.top_p params)) /\
     clamped_option (-2) 2
       (Some (match Opts.frequency_penalty opts with Some p => p | None => num 0 end))
       (Some (OpenAI.frequency_penalty params)) /\
     clamped_option (-2) 2
       (Some (match Opts.presence_penalty opts with Some p => p | None => num 0 end))
       (Some (OpenAI.presence_penalty params))) /\
  (exists body,
     sent (OpenRouter.create fetch opts) = [body] /\
     clamped_option 0 2
       (Some (match Opts.temperature opts with Some t => t | None => Fin (7 # 10) end))
       (Some (OpenRouter.temperature body)) /\
     clamped_option 0 1
       (Some (match Opts.top_p opts with Some p => p | None => num 1 end))
       (Some (OpenRouter.top_p body)) /\
     clamped_option (-2) 2
       (Some (match Opts.frequency_penalty opts with Some p => p | None => num 0 end))
       (Some (OpenRouter.frequency_penalty body)) /\
     clamped_option (-2) 2
       (Some (match Opts.presence_penalty opts with Some p => p | None => num 0 end))
       (Some (OpenRouter.presence_penalty body))) /\
  (forall params,
     sent (Anthropic.create messagesCreate opts) = [params] ->
     clamped_option 0 1 (Opts.temperature opts) (Anthropic.temperature params) /\
     clamped_option 0 1 (Opts.top_p opts) (Anthropic.top_p params)) /\
  (forall req,
     sent (Google.create generate opts) = [req] ->
     clamped_option 0 2 (Opts.temperature opts) (Google.temperature req) /\
     clamped_option 0 1 (Opts.top_p opts) (Google.topP req) /\
     clamped_option 1 100 (Opts.top_k opts) (Google.topK req)).
Proof.
  intros R opts f1 f2 f3 f4 Hv.
  assert (Hdflt : forall lo hi dflt x, lo <= hi -> within lo hi dflt = true ->
            clamped_option lo hi
              (Some (match x with Some t => t | None => dflt end))
              (Some (clamp_or lo hi dflt x))).
  { intros lo hi dflt [g |] Hlh Hd; cbn [clamped_option clamp_or].
    - apply clamp_clamped; exact Hlh.
    - unfold clamped_to. split; [auto | ]. split; [intros _; exact Hd | ].
      intros _. unfold same_number.
      assert (Hn : dflt <> NaN) by (intros ->; discriminate Hd).
      rewrite (num_leb_refl dflt Hn). destruct dflt; reflexivity. }
  split; [ | split; [ | split]].
  - exists (OpenAI.enhancedParams opts). unfold OpenAI.create. rewrite Hv.
    split; [reflexivity | ]. unfold OpenAI.enhancedParams.
    cbn [OpenAI.temperature OpenAI.top_p OpenAI.frequency_penalty
         OpenAI.presence_penalty].
    repeat split; apply Hdflt; try lia; reflexivity.
  - exists (OpenRouter.requestBody opts). unfold OpenRouter.create. rewrite Hv.
    split; [reflexivity | ]. unfold OpenRouter.requestBody.
    cbn [OpenRouter.temperature OpenRouter.top_p OpenRouter.frequency_penalty
         OpenRouter.presence_penalty].
    repeat split; apply Hdflt; try lia; reflexivity.
  - intros params Hs. apply anthropic_sent in Hs. subst params.
    unfold Anthropic.anthropicParams.
    cbn [Anthropic.temperature Anthropic.top_p].
    split; apply option_clamp_clamped; lia.
  - intros req Hs. apply google_sent in Hs. unfold Google.request in Hs.
    destruct (rev (map Google.turn (conversationMessages opts))) as [| last before];
      [discriminate Hs | ].
    injection Hs as <-. cbn [Google.temperature Google.topP Google.topK].
    repeat split; apply option_clamp_clamped; lia.
Qed.

(** The statement at the Google client and a request with temperature 5,
    top_p -1 and top_k 1000: what is sent lies within the bounds. *)
Lemma sampling_parameters_are_clamped_witness :
  exists req,
    sent (Google.create (fun _ => Ok tt) wild_request) = [req] /\
    clamped_option 0 2 (Some (num 5)) (Google.temperature req) /\
    clamped_option 0 1 (Some (num (-1))) (Google.topP req) /\
    clamped_option 1 100 (Some (num 1000)) (Google.topK req).
Proof.
  eexists. split; [reflexivity | ].
  apply (proj2 (proj2 (proj2
    (sampling_parameters_are_clamped unit wild_request
       (fun _ => Ok tt) (fun _ => Ok tt) (fun _ => Fails None) (fun _ => Ok tt)
       eq_refl)))).
  reflexivity.
Defined.

Lemma max_one_idempotent : forall x,
  Math_max (num 1) (Math_max (num 1) x) = Math_max (num 1) x.
Proof.
  intros [ | | q | ]; try reflexivity.
  assert (H : Math_max (num 1) (Fin q)
              = if num_leb (num 1) (Fin q) then Fin q else num 1) by reflexivity.
  rewrite H. destruct (num_leb (num 1) (Fin q)) eqn:E.
  - exact H.
  - reflexivity.
Qed.

(** [LLMUtils.sanitizeOptions] is idempotent, and transparent to the
    OpenAI-compatible clients: they send the same temperature, top_p and
    penalties for the sanitized options as for the options themselves.
    The sanitized [max_tokens], when it is a number, is at least 1. *)
Theorem sanitizeOptions_idempotent : forall options : Opts.t,
  sanitizeOptions (sanitizeOptions options) = sanitizeOptions options /\
  (let before := OpenAI.enhancedParams options in
   let after := OpenAI.enhancedParams (sanitizeOptions options) in
   OpenAI.temperature after = OpenAI.temperature before /\
   OpenAI.top_p after = OpenAI.top_p before /\
   OpenAI.frequency_penalty after = OpenAI.frequency_penalty before /\
   OpenAI.presence_penalty after = OpenAI.presence_penalty before) /\
  (let before := OpenRouter.requestBody options in
   let after := OpenRouter.requestBody (sanitizeOptions options) in
   OpenRouter.temperature after = OpenRouter.temperature before /\
   OpenRouter.top_p after = OpenRouter.top_p before /\
   OpenRouter.frequency_penalty after = OpenRouter.frequency_penalty before /\
   OpenRouter.presence_penalty after = OpenRouter.presence_penalty before) /\
  (forall n, Opts.max_tokens options = Some n -> n <> NaN ->
     exists n', Opts.max_tokens (sanitizeOptions options) = Some n' /\
                num_leb (num 1) n' = true).
Proof.
  intros [model messages max_tokens temperature top_p top_k frequency_penalty
          presence_penalty stop stop_sequences stream user headers safety].
  unfold sanitizeOptions, OpenAI.enhancedParams, OpenRouter.requestBody.
  cbn [Opts.model Opts.messages Opts.max_tokens Opts.temperature Opts.top_p
       Opts.top_k Opts.frequency_penalty Opts.presence_penalty Opts.stop
       Opts.stop_sequences Opts.stream Opts.user Opts.headers
       Opts.safety_settings OpenAI.temperature OpenAI.top_p
       OpenAI.frequency_penalty OpenAI.presence_penalty OpenRouter.temperature
       OpenRouter.top_p OpenRouter.frequency_penalty OpenRouter.presence_penalty].
  assert (Hopt : forall lo hi x, lo <= hi ->
            option_map (clamp lo hi) (option_map (clamp lo hi) x)
            = option_map (clamp lo hi) x).
  { intros lo hi [x |] H; cbn [option_map]; [ | reflexivity].
    rewrite clamp_idempotent by exact H. reflexivity. }
  assert (Hor : forall lo hi dflt x, lo <= hi ->
            clamp_or lo hi dflt (option_map (clamp lo hi) x) = clamp_or lo hi dflt x).
  { intros lo hi dflt [x |] H; cbn [option_map clamp_or]; [ | reflexivity].
    apply clamp_idempotent; exact H. }
  split; [ | split; [ | split]].
  - rewrite !Hopt by lia. f_equal.
    destruct max_tokens as [x |]; cbn [option_map]; [ | reflexivity].
    rewrite max_one_idempotent. reflexivity.
  - cbv zeta. rewrite !Hor by lia. auto.
  - cbv zeta. rewrite !Hor by lia. auto.
  - intros n -> Hnan. cbn [option_map].
    eexists. split; [reflexivity | ].
    destruct n as [ | | q | ]; try reflexivity; [contradiction | ].
    unfold Math_max. cbn [num]. fold (num 1).
    destruct (num_leb (num 1) (Fin q)) eqn:E; [exact E | ].
    apply num_leb_refl. discriminate.
Qed.




(* ------------------------------------------------------------------ *)
(** ** The Python adapter *)
(* ------------------------------------------------------------------ *)

Lemma take_drop_while : forall (A : Type) (p : A -> bool) (l : list A),
  l = take_while p l ++ drop_while p l /\
  forallb p (take_while p l) = true /\
  (forall x rest, drop_while p l = x :: rest -> p x = false).
Proof.
  intros A p l. induction l as [| x l [IH1 [IH2 IH3]]]; cbn [take_while drop_while].
  - repeat split. intros x rest H. discriminate H.
  - destruct (p x) eqn:E.
    + cbn [app forallb]. rewrite E, IH2. rewrite <- IH1.
      repeat split. exact IH3.
    + repeat split. intros y rest H. injection H as <- _. exact E.
Qed.

Section Strip.

Variable chars : jsstring.

Let inset := PythonString.charSet_has chars.

Lemma scan_start_run : forall pre rest start,
  forallb inset pre = true ->
  (forall x t, rest = x :: t -> inset x = false) ->
  PythonString.scan_start chars (pre ++ rest) start = start + Z.of_nat (length pre).
Proof.
  induction pre as [| c pre IH]; intros rest start Hpre Hrest.
  - cbn [app length]. destruct rest as [| x t]; cbn [PythonString.scan_start].
    + lia.
    + fold inset. rewrite (Hrest x t eq_refl). lia.
  - cbn [forallb] in Hpre. apply andb_true_iff in Hpre as [Hc Hpre].
    cbn [app PythonString.scan_start length]. fold inset. rewrite Hc.
    rewrite IH by assumption. lia.
Qed.

Lemma scan_end_run : forall pre rest end_,
  forallb inset pre = true ->
  (forall x t, rest = x :: t -> inset x = false) ->
  PythonString.scan_end chars (pre ++ rest) end_ = end_ - Z.of_nat (length pre).
Proof.
  induction pre as [| c pre IH]; intros rest end_ Hpre Hrest.
  - cbn [app length]. destruct rest as [| x t]; cbn [PythonString.scan_end].
    + lia.
    + fold inset. rewrite (Hrest x t eq_refl). lia.
  - cbn [forallb] in Hpre. apply andb_true_iff in Hpre as [Hc Hpre].
    cbn [app PythonString.scan_end length]. fold inset. rewrite Hc.
    rewrite IH by assumption. lia.
Qed.

(** [strip] on a text cut into a run of the set, a core that neither
    begins nor ends in the set, and a run of the set. *)
Lemma strip_decomposed : forall pre core post,
  forallb inset pre = true ->
  forallb inset post = true ->
  (forall x t, core = x :: t -> inset x = false) ->
  (forall x t, rev core = x :: t -> inset x = false) ->
  PythonString.strip (pre ++ core ++ post) (Some chars) = core.
Proof.
  intros pre core post Hpre Hpost Hhead Hlast.
  unfold PythonString.strip. cbv zeta.
  destruct core as [| c0 core0] eqn:Ecore.
  - (* everything is in the set *)
    cbn [app].
    rewrite <- (app_nil_r (pre ++ post)).
    rewrite scan_start_run;
      [ | rewrite forallb_app, Hpre, Hpost; reflexivity | intros x t H; discriminate H].
    rewrite app_nil_r. cbn [Z.add].
    rewrite Nat2Z.id, skipn_all. cbn [rev PythonString.scan_end].
    unfold slice, js_length.
    destruct (Z.of_nat (length (pre ++ post)) <? 0) eqn:E1;
      [apply Z.ltb_lt in E1; lia | ].
    destruct (Z.of_nat (length (pre ++ post)) - 1 + 1 <? 0) eqn:E2;
      [apply Z.ltb_lt in E2; lia | ].
    rewrite !Z.min_l by lia.
    replace (Z.to_nat (Z.max (Z.of_nat (length (pre ++ post)) - 1 + 1
                              - Z.of_nat (length (pre ++ post))) 0)) with O by lia.
    reflexivity.
  - assert (Hrest : forall x t, core ++ post = x :: t -> inset x = false).
    { intros x t H. rewrite Ecore in H. cbn [app] in H. injection H as <- _.
      apply (Hhead c0 core0). reflexivity. }
    rewrite <- Ecore in *.
    rewrite (scan_start_run pre (core ++ post) 0 Hpre Hrest).
    cbn [Z.add]. rewrite Nat2Z.id.
    rewrite skipn_app, skipn_all, Nat.sub_diag. cbn [skipn app].
    rewrite rev_app_distr.
    rewrite scan_end_run;
      [ | rewrite forallb_rev; exact Hpost | exact Hlast].
    rewrite length_rev. unfold js_length. rewrite !length_app.
    replace (Z.of_nat (length pre + (length core + length post)) - 1
             - Z.of_nat (length post) + 1)
      with (Z.of_nat (length pre) + Z.of_nat (length core)) by lia.
    apply slice_middle.
Qed.

End Strip.

(** [strip(chars)] takes off the longest run of code units of [chars] at
    each end, and nothing else: the text is a run of the set, the
    result, and a run of the set, and the result neither begins nor ends
    with a code unit of the set.  Stripping twice changes nothing. *)
Theorem strip_chars_spec : forall value chars : jsstring,
  let stripped := PythonString.strip value (Some chars) in
  (exists pre post,
     value = pre ++ stripped ++ post /\
     forallb (PythonString.charSet_has chars) pre = true /\
     forallb (PythonString.charSet_has chars) post = true) /\
  (forall c rest, stripped = c :: rest -> PythonString.charSet_has chars c = false) /\
  (forall front c, stripped = front ++ [c] -> PythonString.charSet_has chars c = false) /\
  PythonString.strip stripped (Some chars) = stripped.
Proof.
  intros value chars.
  set (p := PythonString.charSet_has chars).
  destruct (take_drop_while _ p value) as [Hv [Hpre Hhead]].
  set (pre := take_while p value) in *. set (d := drop_while p value) in *.
  destruct (take_drop_while _ p (rev d)) as [Hr [Hpost Hlast]].
  set (rpost := take_while p (rev d)) in *. set (rcore := drop_while p (rev d)) in *.
  assert (Hd : d = rev rcore ++ rev rpost).
  { rewrite <- rev_app_distr, <- Hr, rev_involutive. reflexivity. }
  assert (Hcore_head : forall x t, rev rcore = x :: t -> p x = false).
  { intros x t H. destruct rpost as [| y rp] eqn:Erp.
    - cbn [rev] in Hd. rewrite app_nil_r in Hd. apply (Hhead x t). congruence.
    - (* the core is not empty, so the head of d is the head of the core *)
      apply (Hhead x (t ++ rev (y :: rp))). rewrite Hd, H. reflexivity. }
  assert (Hcore_last : forall x t, rev (rev rcore) = x :: t -> p x = false).
  { intros x t H. rewrite rev_involutive in H. apply (Hlast x t H). }
  assert (Hstrip : PythonString.strip value (Some chars) = rev rcore).
  { rewrite Hv, Hd. apply strip_decomposed; try assumption.
    rewrite forallb_rev. exact Hpost. }
  cbv zeta. rewrite Hstrip.
  split; [ | split; [ | split]].
  - exists pre, (rev rpost). split; [congruence | ]. split; [exact Hpre | ].
    rewrite forallb_rev. exact Hpost.
  - exact Hcore_head.
  - intros front c H. apply (Hlast c (rev front)).
    rewrite <- (rev_involutive rcore), H, rev_app_distr. reflexivity.
  - rewrite <- (app_nil_r (rev rcore)) at 1.
    change (rev rcore ++ []) with ([] ++ rev rcore ++ []).
    apply strip_decomposed; try reflexivity; assumption.
Qed.

(** *** [split] *)

Lemma starts_with_prefix : forall p s,
  starts_with p s = true -> s = p ++ skipn (length p) s.
Proof.
  induction p as [| x p IH]; intros s H; [reflexivity | ].
  destruct s as [| y s]; [discriminate H | ].
  cbn [starts_with] in H. apply andb_true_iff in H as [Hx Hp].
  apply cu_eqb_eq in Hx. subst y. cbn [length skipn app]. f_equal.
  apply IH; exact Hp.
Qed.

Lemma split_scan_skip : forall separator pre rest cur,
  split_scan separator (length pre) cur (pre ++ rest)
  = split_scan separator 0 cur rest.
Proof.
  intros separator pre rest cur. induction pre as [| c pre IH]; [reflexivity | ].
  cbn [length app split_scan]. exact IH.
Qed.

Lemma split_scan_nonempty : forall separator s skip cur,
  split_scan separator skip cur s <> [].
Proof.
  intros separator s. induction s as [| c t IH]; intros skip cur;
    cbn [split_scan]; [discriminate | ].
  destruct skip as [| n]; [ | apply IH].
  destruct (starts_with separator (c :: t)); [discriminate | apply IH].
Qed.

Lemma join_cons : forall separator x (l : list jsstring),
  l <> [] -> join separator (x :: l) = x ++ separator ++ join separator l.
Proof. intros separator x [| y l] H; [contradiction | reflexivity]. Qed.

Lemma join_app : forall separator (a b : list jsstring),
  a <> [] -> b <> [] ->
  join separator (a ++ b) = join separator a ++ separator ++ join separator b.
Proof.
  intros separator a b Ha Hb. induction a as [| x a IH]; [contradiction | ].
  destruct a as [| y a].
  - cbn [app]. rewrite join_cons by exact Hb. reflexivity.
  - change ((x :: y :: a) ++ b) with (x :: ((y :: a) ++ b)).
    rewrite join_cons by discriminate.
    rewrite IH by discriminate.
    rewrite (join_cons separator x (y :: a)) by discriminate.
    rewrite <- !app_assoc. reflexivity.
Qed.

(** Joining the pieces by the separator gives the text back. *)
Lemma split_scan_join : forall separator (n : nat) (s cur : jsstring),
  separator <> [] -> (length s <= n)%nat ->
  join separator (split_scan separator 0 cur s) = rev cur ++ s.
Proof.
  intros separator n. induction n as [| n IH]; intros s cur Hsep Hlen.
  - destruct s; [ | cbn [length] in Hlen; lia].
    cbn [split_scan join]. rewrite app_nil_r. reflexivity.
  - destruct s as [| c t]; [cbn [split_scan join]; rewrite app_nil_r; reflexivity | ].
    cbn [length] in Hlen. cbn [split_scan].
    destruct (starts_with separator (c :: t)) eqn:E.
    + apply starts_with_prefix in E.
      destruct separator as [| x sep']; [contradiction Hsep; reflexivity | ].
      cbn [length skipn app] in E. injection E as Ec Et.
      remember (skipn (length sep') t) as rest' eqn:Er. clear Er. subst c t.
      replace (length (x :: sep') - 1)%nat with (length sep') by (cbn [length]; lia).
      rewrite split_scan_skip.
      rewrite join_cons by apply split_scan_nonempty.
      rewrite IH; [reflexivity | discriminate | ].
      rewrite length_app in Hlen. lia.
    + rewrite IH by (try assumption; lia).
      cbn [rev]. rewrite <- app_assoc. reflexivity.
Qed.

Lemma js_split_join : forall value separator,
  join separator (js_split value separator) = value.
Proof.
  intros value separator. unfold js_split.
  destruct separator as [| x sep].
  - rewrite join_nil_concat. induction value as [| c v IH]; [reflexivity | ].
    cbn [map concat app]. rewrite IH. reflexivity.
  - rewrite (split_scan_join (x :: sep) (length value) value []);
      [reflexivity | discriminate | lia].
Qed.

(** The two slices of [split] cut the parts in two at one place. *)
Lemma array_slice_pair : forall (A : Type) (parts : list A) (m : Z),
  let len := Z.of_nat (length parts) in
  let k := Z.to_nat (if m <? 0 then Z.max (len + m) 0 else Z.min m len) in
  array_slice parts 0 m = firstn k parts /\
  array_slice_from parts m = skipn k parts.
Proof.
  intros A parts m len k. unfold array_slice_from, array_slice. fold len.
  cbv zeta. split.
  - change (0 <? 0) with false. cbv iota.
    rewrite (Z.min_l 0 len) by lia. cbn [Z.to_nat skipn].
    f_equal. subst k. destruct (m <? 0); lia.
  - replace (len <? 0) with false by (symmetry; apply Z.ltb_ge; lia).
    rewrite Z.min_id. fold k.
    apply firstn_all2. rewrite length_skipn. subst k len.
    destruct (m <? 0); lia.
Qed.

Lemma join_regroup : forall separator (parts : list jsstring) (k : nat),
  (k < length parts)%nat \/ parts = [] ->
  join separator (firstn k parts ++ [join separator (skipn k parts)])
  = join separator parts.
Proof.
  intros separator parts k [Hk | ->].
  - destruct k as [| k]; [reflexivity | ].
    rewrite join_app; [ | | discriminate].
    + cbn [join]. rewrite <- join_app.
      * rewrite firstn_skipn. reflexivity.
      * destruct parts; [cbn [length] in Hk; lia | discriminate].
      * intros H. apply (f_equal (@length _)) in H.
        rewrite length_skipn in H. cbn [length] in H. lia.
    + destruct parts; [cbn [length] in Hk; lia | discriminate].
  - destruct k; reflexivity.
Qed.

(** [split(separator, maxsplit)] and [join] are inverse: joining the
    pieces by the separator gives the text back, whatever the separator
    and the limit (also a negative one).  With a limit of [m >= 0] there
    are at most [m + 1] pieces, the first [m] of them those of the
    unlimited split. *)
Theorem split_join_round_trip : forall (value separator : jsstring)
    (maxsplit : option Z),
  join separator (PythonString.split value (Some separator) maxsplit) = value /\
  (forall m, maxsplit = Some m -> 0 <= m ->
     Z.of_nat (length (PythonString.split value (Some separator) maxsplit))
     = Z.min (Z.of_nat (length (js_split value separator))) (m + 1) /\
     firstn (Z.to_nat m) (PythonString.split value (Some separator) maxsplit)
     = firstn (Z.to_nat m) (js_split value separator)).
Proof.
  intros value separator maxsplit. unfold PythonString.split.
  destruct maxsplit as [m |]; [ | split; [apply js_split_join | discriminate]].
  cbv zeta.
  set (parts := js_split value separator).
  destruct (array_slice_pair _ parts m) as [H1 H2]. cbv zeta in H1, H2.
  destruct (Z.leb_spec (Z.of_nat (length parts)) (m + 1)) as [Hle | Hgt].
  - split; [apply js_split_join | ].
    intros m' Hm Hpos. injection Hm as <-. split; [lia | reflexivity].
  - rewrite H1, H2. split.
    + rewrite join_regroup; [apply js_split_join | ].
      destruct parts as [| p0 parts']; [right; reflexivity | left].
      cbn [length] in *. destruct (m <? 0) eqn:E.
      * apply Z.ltb_lt in E. lia.
      * apply Z.ltb_ge in E. lia.
    + intros m' Hm Hpos. injection Hm as <-.
      replace (m <? 0) with false by (symmetry; apply Z.ltb_ge; lia).
      rewrite Z.min_l by lia. split.
      * rewrite length_app, length_firstn. cbn [length]. lia.
      * rewrite firstn_app, length_firstn.
        replace (Z.to_nat m - Nat.min (Z.to_nat m) (length parts))%nat with O by lia.
        cbn [firstn]. rewrite app_nil_r, firstn_firstn.
        rewrite Nat.min_id. reflexivity.
Qed.

(** *** [count] *)

(** One search of [indexOf] and one step of [split] find the same
    occurrence of a non-empty text. *)
Lemma find_split : forall (substring s cur : jsstring) (k : Z),
  substring <> [] ->
  (find_at substring s k = -1 /\
   length (split_scan substring 0 cur s) = 1%nat) \/
  (exists (j : nat) (rest : jsstring),
     find_at substring s k = k + Z.of_nat j /\
     skipn (j + length substring) s = rest /\
     (j + length substring <= length s)%nat /\
     length (split_scan substring 0 cur s)
     = S (length (split_scan substring 0 [] rest))).
Proof.
  intros substring s. induction s as [| c t IH]; intros cur k Hsub.
  - left. destruct substring as [| x sub]; [contradiction Hsub; reflexivity | ].
    split; reflexivity.
  - cbn [find_at split_scan].
    destruct (starts_with substring (c :: t)) eqn:E.
    + right. exists O, (skipn (length substring) (c :: t)).
      pose proof (starts_with_prefix _ _ E) as Hp.
      assert (Hlen : (length substring <= length (c :: t))%nat).
      { rewrite Hp, length_app. lia. }
      split; [cbn [Z.of_nat]; lia | ]. split; [reflexivity | ].
      split; [exact Hlen | ].
      destruct substring as [| x sub]; [contradiction Hsub; reflexivity | ].
      cbn [length skipn app] in Hp. injection Hp as _ Ht.
      cbn [length skipn]. f_equal.
      replace (S (length sub) - 1)%nat with (length sub) by lia.
      rewrite Ht at 1. rewrite split_scan_skip. reflexivity.
    + destruct (IH (c :: cur) (k + 1) Hsub) as [[Hf Hl] | [j [rest [Hf [Hr [Hj Hl]]]]]].
      * left. auto.
      * right. exists (S j), rest. cbn [length].
        split; [rewrite Hf; lia | ]. split; [exact Hr | ]. split; [lia | exact Hl].
Qed.

Lemma indexOf_string_at : forall value substring (pos : nat),
  (pos <= length value)%nat ->
  indexOf_string value substring (Z.of_nat pos)
  = find_at substring (skipn pos value) (Z.of_nat pos).
Proof.
  intros value substring pos H. unfold indexOf_string, js_length. cbv zeta.
  rewrite Z.max_l by lia. rewrite Z.min_l by lia. rewrite Nat2Z.id. reflexivity.
Qed.

Lemma count_loop_split : forall (value substring : jsstring),
  substring <> [] ->
  forall (rounds pos : nat) (count : Z),
    (pos <= length value)%nat ->
    (length value - pos < rounds)%nat ->
    PythonString.count_loop rounds value substring count (Z.of_nat pos)
    = Some (count
            + Z.of_nat (length (split_scan substring 0 [] (skipn pos value))) - 1).
Proof.
  intros value substring Hsub. induction rounds as [| rounds IH];
    intros pos count Hpos Hrounds; [lia | ].
  cbn [PythonString.count_loop]. cbv zeta.
  rewrite indexOf_string_at by exact Hpos.
  destruct (find_split substring (skipn pos value) [] (Z.of_nat pos) Hsub)
    as [[Hf Hl] | [j [rest [Hf [Hr [Hj Hl]]]]]].
  - rewrite Hf, Hl, Z.eqb_refl. f_equal. change (Z.of_nat 1) with 1. lia.
  - rewrite Hf, Hl.
    replace (Z.of_nat pos + Z.of_nat j =? -1) with false
      by (symmetry; apply Z.eqb_neq; lia).
    rewrite length_skipn in Hj.
    replace (Z.of_nat pos + Z.of_nat j + js_length substring)
      with (Z.of_nat (pos + (j + length substring))) by (unfold js_length; lia).
    assert (Hlen : (0 < length substring)%nat)
      by (destruct substring; [contradiction Hsub; reflexivity | cbn [length]; lia]).
    rewrite IH by lia.
    rewrite skipn_skipn in Hr.
    replace (pos + (j + length substring))%nat with (j + length substring + pos)%nat
      by lia.
    rewrite Hr. f_equal. lia.
Qed.

(** [count] ends exactly when the text searched for is not empty.  For
    a non-empty text, one round more than the code units of the value
    suffices, and the count is the number of cuts [split] makes: one
    less than its pieces.  For the empty text the loop finds a match
    without moving on, and no number of rounds ends it. *)
Theorem count_ends_unless_empty : forall value substring : jsstring,
  (substring <> [] ->
   forall rounds, (length value < rounds)%nat ->
     PythonString.count rounds value substring
     = Some (Z.of_nat (length (js_split value substring)) - 1)) /\
  (substring = [] ->
   forall rounds, PythonString.count rounds value substring = None).
Proof.
  intros value substring. split.
  - intros Hsub rounds Hr. unfold PythonString.count.
    change 0 with (Z.of_nat 0) at 2.
    rewrite (count_loop_split value substring Hsub rounds O 0) by lia.
    cbn [skipn]. unfold js_split.
    destruct substring; [contradiction Hsub; reflexivity | ]. f_equal.
  - intros -> rounds. unfold PythonString.count.
    assert (H : forall count pos,
              PythonString.count_loop rounds value [] count pos = None);
      [ | apply H].
    induction rounds as [| rounds IH]; intros count pos; [reflexivity | ].
    cbn [PythonString.count_loop]. cbv zeta.
    assert (Hfound : 0 <= indexOf_string value [] pos).
    { unfold indexOf_string. cbv zeta.
      destruct (skipn _ value); cbn [find_at starts_with]; unfold js_length; lia. }
    replace (indexOf_string value [] pos =? -1) with false
      by (symmetry; apply Z.eqb_neq; lia).
    apply IH.
Qed.

(** *** [range] *)






(** *** [split] on white space *)

(** The pieces of [split(/\s+/)] are as many as the analyzer counts. *)
Lemma space_pieces_length : forall s b cur,
  Z.of_nat (length (space_pieces b cur s)) = 1 + space_runs b s.
Proof.
  induction s as [| c t IH]; intros b cur; cbn [space_pieces space_runs].
  - reflexivity.
  - destruct (is_space c).
    + destruct b.
      * rewrite IH. lia.
      * cbn [length]. rewrite Nat2Z.inj_succ, IH. lia.
    + apply IH.
Qed.

Lemma has_length_nonempty : forall s, has_length s = true <-> s <> [].
Proof.
  intros [| c s]; unfold has_length, js_length; split; intros H.
  - vm_compute in H. discriminate H.
  - contradiction H; reflexivity.
  - discriminate.
  - apply Z.gtb_lt. cbn [length]. lia.
Qed.

(** No piece holds white space, and together the pieces are the text
    without its white space. *)
Lemma space_pieces_content : forall s b cur,
  forallb no_space cur = true ->
  Forall (fun p => forallb no_space p = true) (space_pieces b cur s) /\
  concat (space_pieces b cur s) = rev cur ++ filter no_space s.
Proof.
  induction s as [| c t IH]; intros b cur Hcur; cbn [space_pieces filter].
  - split; [ | cbn [concat]; reflexivity].
    constructor; [rewrite forallb_rev; exact Hcur | constructor].
  - destruct (is_space c) eqn:E.
    + assert (Hc : no_space c = false) by (unfold no_space; rewrite E; reflexivity).
      rewrite Hc. destruct b.
      * apply IH; exact Hcur.
      * destruct (IH true [] eq_refl) as [H1 H2]. split.
        -- constructor; [rewrite forallb_rev; exact Hcur | exact H1].
        -- cbn [concat]. rewrite H2. reflexivity.
    + assert (Hc : no_space c = true) by (unfold no_space; rewrite E; reflexivity).
      rewrite Hc.
      destruct (IH false (c :: cur)) as [H1 H2].
      { cbn [forallb]. rewrite Hc, Hcur. reflexivity. }
      split; [exact H1 | ]. rewrite H2. cbn [rev]. rewrite <- app_assoc. reflexivity.
Qed.

Lemma concat_filter_has_length : forall l : list jsstring,
  concat (filter has_length l) = concat l.
Proof.
  induction l as [| x l IH]; [reflexivity | ].
  cbn [filter]. destruct x as [| c x].
  - cbn [concat app]. exact IH.
  - replace (has_length (c :: x)) with true
      by (symmetry; apply has_length_nonempty; discriminate).
    cbn [concat]. rewrite IH. reflexivity.
Qed.

(** After the filter the flag of the scan does not matter, white space
    at the head can be dropped, and so can white space at the end. *)
Lemma pieces_flag : forall s,
  filter has_length (space_pieces true [] s)
  = filter has_length (space_pieces false [] s).
Proof.
  intros [| c t]; [reflexivity | ]. cbn [space_pieces].
  destruct (is_space c); reflexivity.
Qed.

Lemma pieces_trimStart : forall s,
  filter has_length (split_spaces (trimStart s)) = filter has_length (split_spaces s).
Proof.
  unfold split_spaces. induction s as [| c t IH]; [reflexivity | ].
  cbn [trimStart]. destruct (is_space c) eqn:E; [ | reflexivity].
  rewrite IH. cbn [space_pieces]. rewrite E. cbn [rev filter].
  change (has_length []) with false. cbv iota. symmetry. apply pieces_flag.
Qed.

Lemma pieces_trailing : forall s b cur sp,
  forallb is_space sp = true ->
  filter has_length (space_pieces b cur (s ++ sp))
  = filter has_length (space_pieces b cur s).
Proof.
  induction s as [| c t IH]; intros b cur sp Hsp.
  - cbn [app]. revert b. induction sp as [| x sp IHsp]; intros b; [reflexivity | ].
    cbn [forallb] in Hsp. apply andb_true_iff in Hsp as [Hx Hsp].
    cbn [space_pieces]. rewrite Hx. destruct b.
    + apply (IHsp Hsp true).
    + cbn [filter]. 
      assert (Hrest : filter has_length (space_pieces true [] sp) = []).
      { clear IHsp. induction sp as [| y sp IH2]; [reflexivity | ].
        cbn [forallb] in Hsp. apply andb_true_iff in Hsp as [Hy Hsp].
        cbn [space_pieces]. rewrite Hy. apply IH2; exact Hsp. }
      rewrite Hrest. destruct (has_length (rev cur)); reflexivity.
  - cbn [app space_pieces]. destruct (is_space c).
    + destruct b; [apply IH; exact Hsp | ].
      cbn [filter]. rewrite IH by exact Hsp. reflexivity.
    + apply IH; exact Hsp.
Qed.

Lemma trimStart_decomposed : forall s,
  exists pre, s = pre ++ trimStart s /\ forallb is_space pre = true.
Proof.
  induction s as [| c t [pre [H1 H2]]]; [exists []; auto | ].
  cbn [trimStart]. destruct (is_space c) eqn:E.
  - exists (c :: pre). cbn [app forallb]. rewrite E, H2. split; [congruence | reflexivity].
  - exists []. auto.
Qed.

Lemma pieces_trim : forall s,
  filter has_length (split_spaces (trim s)) = filter has_length (split_spaces s).
Proof.
  intros s. unfold trim.
  rewrite <- (pieces_trimStart s).
  destruct (trimStart_decomposed (rev (trimStart s))) as [pre [H1 H2]].
  assert (H : trimStart s = rev (trimStart (rev (trimStart s))) ++ rev pre).
  { rewrite <- rev_app_distr, <- H1, rev_involutive. reflexivity. }
  rewrite H at 2. unfold split_spaces. symmetry. apply pieces_trailing.
  rewrite forallb_rev. exact H2.
Qed.

(** At most two pieces are empty: one before white space at the head
    and one after white space at the end. *)
Lemma pieces_empties : forall s b cur,
  (length (space_pieces b cur s)
   <= length (filter has_length (space_pieces b cur s))
      + (if b then 1 else match cur with [] => 2 | _ => 1 end))%nat.
Proof.
  induction s as [| c t IH]; intros b cur; cbn [space_pieces].
  - cbn [length filter]. destruct (has_length (rev cur)); cbn [length];
      destruct b; destruct cur; lia.
  - destruct (is_space c).
    + destruct b.
      * apply IH.
      * cbn [length filter]. specialize (IH true []). cbv iota in IH.
        destruct cur as [| x cur].
        -- cbn [rev]. change (has_length []) with false. cbv iota. lia.
        -- replace (has_length (rev (x :: cur))) with true.
           ++ cbn [length]. cbv iota. lia.
           ++ symmetry. apply has_length_nonempty. cbn [rev].
              intros H. apply app_eq_nil in H as [_ H]. discriminate H.
    + specialize (IH false (c :: cur)). cbv iota in IH.
      destruct b; destruct cur; lia.
Qed.

(** [split()] without a separator gives the words of the text: no piece
    is empty or holds white space, and the pieces together are the text
    without its white space.  The trim before the split changes nothing
    once the empty pieces are dropped.  The count of the analyzer, which
    keeps the empty pieces, exceeds the number of words by 2 at most. *)
Theorem split_on_whitespace : forall value : jsstring,
  let pieces := PythonString.split value None None in
  Forall (fun p => p <> [] /\ forallb no_space p = true) pieces /\
  concat pieces = filter no_space value /\
  pieces = filter has_length (split_spaces value) /\
  words value - 2 <= Z.of_nat (length pieces) <= words value.
Proof.
  intros value pieces. subst pieces. unfold PythonString.split.
  rewrite pieces_trim.
  destruct (space_pieces_content value false [] eq_refl) as [Hall Hcat].
  split; [ | split; [ | split; [reflexivity | ]]].
  - apply Forall_forall. intros p Hp. apply filter_In in Hp as [Hin Hne].
    split; [apply has_length_nonempty; exact Hne | ].
    rewrite Forall_forall in Hall. apply Hall. exact Hin.
  - rewrite concat_filter_has_length. exact Hcat.
  - unfold words, split_spaces_length.
    rewrite <- (space_pieces_length value false []).
    pose proof (pieces_empties value false []) as H. cbv iota in H.
    pose proof (filter_length_le has_length (space_pieces false [] value)).
    unfold split_spaces. lia.
Qed.

(* ------------------------------------------------------------------ *)
(** ** The command table *)
(* ------------------------------------------------------------------ *)

Lemma lower_unit_slash : forall c,
  exists x rest, lower_unit c = x :: rest /\ cu_eqb 47%N x = cu_eqb 47%N c.
Proof.
  intros c. unfold lower_unit.
  destruct (in_range 65%N 90%N c) eqn:E1.
  { eexists _, _. split; [reflexivity | ].
    unfold in_range in E1. apply andb_true_iff in E1 as [H1 H2].
    apply N.leb_le in H1, H2. unfold cu_eqb.
    rewrite (proj2 (N.eqb_neq 47%N (c + 32)%N)) by lia.
    rewrite (proj2 (N.eqb_neq 47%N c)) by lia. reflexivity. }
  destruct (in_range 192%N 222%N c && negb (cu_eqb c 215%N)) eqn:E2.
  { eexists _, _. split; [reflexivity | ].
    apply andb_true_iff in E2 as [E2 _].
    unfold in_range in E2. apply andb_true_iff in E2 as [H1 H2].
    apply N.leb_le in H1, H2. unfold cu_eqb.
    rewrite (proj2 (N.eqb_neq 47%N (c + 32)%N)) by lia.
    rewrite (proj2 (N.eqb_neq 47%N c)) by lia. reflexivity. }
  destruct (cu_eqb c 8490%N) eqn:E3.
  { eexists _, _. split; [reflexivity | ].
    apply cu_eqb_eq in E3. subst c. reflexivity. }
  destruct (cu_eqb c 304%N) eqn:E4.
  { eexists _, _. split; [reflexivity | ].
    apply cu_eqb_eq in E4. subst c. reflexivity. }
  eexists _, _. split; reflexivity.
Qed.

(** A text begins with a slash exactly when its lower case does. *)
Lemma slash_lower : forall input,
  starts_with (lit "/") (toLowerCase input) = starts_with (lit "/") input.
Proof.
  intros [| c t]; [reflexivity | ].
  unfold toLowerCase. cbn [flat_map].
  destruct (lower_unit_slash c) as [x [rest [-> Hx]]].
  change (lit "/") with [47%N]. cbn [app starts_with].
  rewrite Hx.
  destruct (rest ++ flat_map lower_unit t); destruct t; reflexivity.
Qed.

Lemma starts_with_trans_head : forall p s,
  starts_with p s = true -> starts_with (lit "/") s = true ->
  p = [] \/ starts_with (lit "/") p = true.
Proof.
  intros [| x p] [| y s] H Hs; try (left; reflexivity); try discriminate H.
  right. change (lit "/") with [47%N] in *. cbn [starts_with] in *.
  apply andb_true_iff in H as [Hxy _]. apply cu_eqb_eq in Hxy. subst y.
  destruct s; destruct p; exact Hs.
Qed.

Lemma toLowerCase_nil : forall input, toLowerCase input = [] -> input = [].
Proof.
  intros [| c t] H; [reflexivity | ].
  unfold toLowerCase in H. cbn [flat_map] in H.
  destruct (lower_unit_slash c) as [x [rest [E _]]]. rewrite E in H.
  discriminate H.
Qed.

(** What [getCommandSuggestions] suggests.  For a text that is not
    empty these are, in the order of the table, the commands that begin
    with the text in lower case, each with its description from the
    table: the test for a leading slash only matters for the empty
    text, for which nothing is suggested.  The letter case of the text
    does not matter. *)
Theorem getCommandSuggestions_by_prefix : forall input : jsstring,
  map command (getCommandSuggestions input)
  = match input with
    | [] => []
    | _ => filter (starts_with (toLowerCase input)) (Object_keys COMMANDS)
    end /\
  (forall s, In s (getCommandSuggestions input) ->
     obj_lookup COMMANDS (command s) = Some (description s)) /\
  (forall other, toLowerCase other = toLowerCase input ->
     getCommandSuggestions other = getCommandSuggestions input).
Proof.
  assert (Hkeys : forallb (starts_with (lit "/")) (Object_keys COMMANDS) = true)
    by (vm_compute; reflexivity).
  assert (Hfilter : forall partial,
            partial <> [] -> starts_with (lit "/") partial = false ->
            filter (starts_with partial) (Object_keys COMMANDS) = []).
  { intros partial Hne Hs.
    assert (H : forall keys, forallb (starts_with (lit "/")) keys = true ->
                filter (starts_with partial) keys = []).
    { induction keys as [| k keys IH]; intros Hk; [reflexivity | ].
      cbn [forallb] in Hk. apply andb_true_iff in Hk as [Hk1 Hk2].
      cbn [filter]. destruct (starts_with partial k) eqn:E; [ | apply IH; exact Hk2].
      destruct (starts_with_trans_head partial k E Hk1) as [H | H];
        [contradiction | congruence]. }
    apply H. exact Hkeys. }
  intros input. split; [ | split].
  - unfold getCommandSuggestions.
    destruct (starts_with (lit "/") input) eqn:Es; cbn [negb].
    + cbv zeta. rewrite map_map. cbn [command]. rewrite map_id.
      destruct input; [discriminate Es | reflexivity].
    + destruct input as [| c t]; [reflexivity | ].
      rewrite Hfilter; [reflexivity | | rewrite slash_lower; exact Es].
      intros H. apply toLowerCase_nil in H. discriminate H.
  - intros s Hs. unfold getCommandSuggestions in Hs.
    destruct (negb (starts_with (lit "/") input)); [contradiction | ].
    cbv zeta in Hs. apply in_map_iff in Hs as [cmd [<- Hin]].
    apply filter_In in Hin as [Hin _]. cbn [command description].
    unfold obj_get. unfold Object_keys in Hin.
    apply in_map_iff in Hin as [[k v] [<- Hkv]]. cbn [fst].
    destruct (obj_lookup COMMANDS k) as [d |] eqn:El; [reflexivity | ].
    exfalso. revert El. generalize COMMANDS Hkv. clear.
    induction o as [| [k' v'] o IH]; intros Hin El; [contradiction | ].
    cbn [obj_lookup] in El. destruct (str_eqb k' k) eqn:E; [discriminate El | ].
    destruct Hin as [Heq | Hin]; [ | apply (IH Hin El)].
    injection Heq as -> _.
    rewrite (proj2 (str_eqb_eq k k) eq_refl) in E. discriminate E.
  - intros other Hl. unfold getCommandSuggestions.
    rewrite <- (slash_lower other), <- (slash_lower input), Hl. reflexivity.
Qed.

(* ------------------------------------------------------------------ *)
(** ** The requests of the tool at the provider clients *)
(* ------------------------------------------------------------------ *)

Lemma completionRequest_valid : forall model content,
  truthy model = true -> is_string model = true -> content <> [] ->
  validate (completionRequest model content) = None.
Proof.
  intros model content Ht Hs Hc. unfold validate, completionRequest.
  cbn [Opts.model Opts.messages]. rewrite Ht, Hs. cbn [negb orb].
  destruct content as [| c content]; [contradiction Hc; reflexivity | ].
  reflexivity.
Qed.

(** What becomes of a request of [generateInitialPrompt] or
    [refinePrompt] (a model and one system message) at each client.  The
    OpenAI, OpenRouter and Ollama clients pass the message on.  The
    Anthropic client sends the text as the system prompt next to an
    empty list of messages.  The Google client sends nothing: with no
    message besides the system message there is no input, and the call
    fails. *)
Theorem completion_request_by_provider : forall (R : Type) (model : value)
    (content : jsstring)
    (originalCreate : OpenAI.Params -> Reply R)
    (fetch : OpenRouter.Body -> Reply R)
    (post : Ollama.Body -> Reply R)
    (messagesCreate : Anthropic.Params -> Reply Anthropic.Response)
    (generate : Google.Request -> Reply R),
  truthy model = true -> is_string model = true -> content <> [] ->
  let opts := completionRequest model content in
  (exists params,
     sent (OpenAI.create originalCreate opts) = [params] /\
     OpenAI.messages params = VArr [systemMessage content] /\
     OpenAI.headers params = Some requestHeaders) /\
  (exists body,
     sent (OpenRouter.create fetch opts) = [body] /\
     OpenRouter.messages body = VArr [systemMessage content]) /\
  (exists body,
     sent (Ollama.create post opts) = [body] /\
     Ollama.messages body = VArr [systemMessage content]) /\
  (exists params,
     sent (Anthropic.create messagesCreate opts) = [params] /\
     Anthropic.messages params = [] /\
     Anthropic.system params = Some content) /\
  Google.create generate opts = mkEffect (Thrown NoInput) [].
Proof.
  intros R model content f1 f2 f3 f4 f5 Ht Hs Hc opts.
  pose proof (completionRequest_valid model content Ht Hs Hc) as Hv.
  fold opts in Hv.
  destruct content as [| c content]; [contradiction Hc; reflexivity | ].
  split; [ | split; [ | split; [ | split]]].
  - unfold OpenAI.create. rewrite Hv. eexists. split; [reflexivity | ].
    split; reflexivity.
  - unfold OpenRouter.create. rewrite Hv. eexists. split; reflexivity.
  - unfold Ollama.create. eexists. split; reflexivity.
  - unfold Anthropic.create. rewrite Hv. eexists. split; [reflexivity | ].
    split; reflexivity.
  - unfold Google.create. rewrite Hv. reflexivity.
Qed.

(** The statement at a request for the initial generation. *)
Lemma completion_request_by_provider_witness :
  Google.create (fun _ => Ok tt)
    (completionRequest (VStr (lit "gemini-1.5-pro")) (lit "You are a prompt engineer."))
  = mkEffect (Thrown NoInput) [].
Proof.
  apply (completion_request_by_provider unit (VStr (lit "gemini-1.5-pro"))
           (lit "You are a prompt engineer.")
           (fun _ => Ok tt) (fun _ => Ok tt) (fun _ => Ok tt)
           (fun _ => Fails None) (fun _ => Ok tt) eq_refl eq_refl).
  discriminate.
Defined.

(** Through the Google client no run is ever completed.  Whatever the
    service would answer, the request of the initial generation is not
    sent, the generation gives no prompt, and a text that passes
    [validatePrompt] ends in Failed after that one call. *)
Theorem google_provider_never_completes : forall
    (generate : Google.Request -> Reply jsstring) (model : value)
    (contents : nat -> jsstring) (text : jsstring),
  truthy model = true -> is_string model = true ->
  (forall k, contents k <> []) ->
  (forall k, sent (Google.create generate (completionRequest model (contents k)))
             = []) /\
  (validatePrompt text = None ->
   processPrompt (googleBackend generate model contents) text = (Failed, 1%nat)) /\
  (forall final history n,
     processPrompt (googleBackend generate model contents) text
     <> (Done final history, n)).
Proof.
  intros generate model contents text Ht Hs Hc.
  assert (Hcreate : forall k,
            Google.create generate (completionRequest model (contents k))
            = mkEffect (Thrown NoInput) []).
  { intros k. unfold Google.create.
    rewrite (completionRequest_valid model (contents k) Ht Hs (Hc k)).
    reflexivity. }
  assert (Hrun : validatePrompt text = None ->
            processPrompt (googleBackend generate model contents) text
            = (Failed, 1%nat)).
  { intros Hv. unfold processPrompt, googleBackend. rewrite Hv, Hcreate.
    reflexivity. }
  split; [intros k; rewrite Hcreate; reflexivity | ].
  split; [exact Hrun | ].
  intros final history n H.
  destruct (validatePrompt text) as [message |] eqn:Ev.
  - unfold processPrompt in H. rewrite Ev in H. discriminate H.
  - rewrite (Hrun eq_refl) in H. discriminate H.
Qed.

(** The statement at a service that would answer every request with a
    complete record. *)
Lemma google_provider_never_completes_witness :
  processPrompt
    (googleBackend
       (fun _ => Ok (dq "{'context':'c','role':'r','task':'t','constraints':'k','output':'o'}"))
       (VStr (lit "gemini-1.5-pro")) (fun _ => lit "You are a prompt engineer."))
    (lit "Write a haiku about autumn")
  = (Failed, 1%nat).
Proof.
  apply (google_provider_never_completes
           (fun _ => Ok (dq "{'context':'c','role':'r','task':'t','constraints':'k','output':'o'}"))
           (VStr (lit "gemini-1.5-pro")) (fun _ => lit "You are a prompt engineer.")
           (lit "Write a haiku about autumn") eq_refl eq_refl).
  - intros k. discriminate.
  - reflexivity.
Defined.

(** A prompt of 60 words or fewer never reaches the highest tier: with
    no points for its length the other five steps add 16 at most, so it
    gets at most 4 iterations and is never rated MASTER. *)
Theorem short_prompts_below_master : forall rawPrompt : jsstring,
  words rawPrompt <= 60 ->
  score (analyzePromptComplexity rawPrompt) <= 16 /\
  iterations (analyzePromptComplexity rawPrompt) <= 4 /\
  difficulty (analyzePromptComplexity rawPrompt) <> MASTER.
Proof.
  intros rawPrompt Hw.
  assert (Hlen : lengthScore rawPrompt = 0).
  { unfold lengthScore. cbv zeta.
    repeat match goal with
           | |- context [?x >? ?y] => destruct (Z.gtb_spec x y); [lia | ]
           end.
    reflexivity. }
  assert (Hs : totalScore rawPrompt <= 16).
  { unfold totalScore. rewrite Hlen.
    pose proof (specialScore_range rawPrompt). lia. }
  destruct (analyze_fields rawPrompt) as [Hscore _].
  destruct (analyze_tier rawPrompt) as [Hd Hi].
  rewrite Hscore, Hd, Hi. split; [exact Hs | ].
  unfold mapScore.
  repeat match goal with
         | |- context [?x <=? ?y] => destruct (Z.leb_spec x y)
         end; cbn [fst snd]; try lia; split; try lia; discriminate.
Qed.

(** The statement at a prompt of three words. *)
Lemma short_prompts_below_master_witness :
  iterations (analyzePromptComplexity (lit "Write a haiku")) <= 4.
Proof.
  apply (short_prompts_below_master (lit "Write a haiku")).
  vm_compute. discriminate.
Defined.

(* ------------------------------------------------------------------ *)
(** ** The reports of failed calls *)
(* ------------------------------------------------------------------ *)





